(** * AuraSplit: script-to-transcript alignment and clip-synthesis pipeline

    A shallow embedding of
      - [_seq.py]          ([_clean_text], [_parse_script], [_match_words_to_script]),
      - [safe_kernel.py]   ([execute_safe]),
      - [process_task.py]  ([_cutting_loop], [_image_flow_loop]),
      - [engines/sk3_image_flow.py] (the script-loading step of [process_image_flow]),
    together with the properties the specification states about them. *)

From Stdlib Require Import String Ascii DecimalString.
From Stdlib Require Import List Arith ZArith NArith Bool Lia PrimFloat.
Import ListNotations.

Set Implicit Arguments.
Set Warnings "-inexact-float,-abstract-large-number".

(** ** Python strings

    A Python [str] is a sequence of Unicode code points and [len] counts code
    points, so text is a list of code-point numbers. *)

Module PyStr.

Definition codepoint := N.
Definition pystr := list codepoint.

(** Literals: an ASCII-only Rocq string read as code points. *)
Definition lit (s : string) : pystr := map N_of_ascii (list_ascii_of_string s).

(** [x or ""] *)
Definition or_empty (x : option pystr) : pystr :=
  match x with Some s => s | None => [] end.

(** The part of [str.lower] that concerns ASCII: [A-Z] to [a-z]; used
    wherever a concrete runtime is needed. *)
Definition ascii_lower_char (c : codepoint) : codepoint :=
  if ((65 <=? c) && (c <=? 90))%N then (c + 32)%N else c.
Definition ascii_lower (s : pystr) : pystr := map ascii_lower_char s.
Definition ascii_lower_stable (c : codepoint) : bool :=
  negb ((65 <=? c) && (c <=? 90))%N.

(** ASCII instances of [str.isspace] and of the decimal value of a digit. *)
Definition ascii_space (c : codepoint) : bool :=
  ((c =? 32) || ((9 <=? c) && (c <=? 13)) || ((28 <=? c) && (c <=? 31)))%N.
Definition ascii_digit (c : codepoint) : option N :=
  if ((48 <=? c) && (c <=? 57))%N then Some (c - 48)%N else None.

End PyStr.
Import PyStr.

(** ** [_seq.py]: text normalizer *)

Module Normalizer.

(** The character class of the regular expression in [_clean_text]:
    [[.,\/#!$%\^&\*;:{}=\-_\`~()。、？「」…!]].  Every backslash escapes the
    character after it, so the backslash itself is not a member. *)
Definition PUNCTUATION : list codepoint :=
  [ 0x2e; 0x2c; 0x2f; 0x23; 0x21; 0x24; 0x25; 0x5e; 0x26; 0x2a; 0x3b; 0x3a;
    0x7b; 0x7d; 0x3d; 0x2d; 0x5f; 0x60; 0x7e; 0x28; 0x29;
    0x3002; 0x3001; 0xff1f; 0x300c; 0x300d; 0x2026; 0x21 ]%N.

Definition in_class (c : codepoint) : bool := existsb (N.eqb c) PUNCTUATION.

(** [re.sub(class, "", text)] for a one-character class: drop the members. *)
Definition re_sub_class (text : pystr) : pystr :=
  filter (fun c => negb (in_class c)) text.

Section WithRuntime.

(** [str.lower] of the Python runtime. *)
Variable str_lower : pystr -> pystr.

(** def _clean_text(text):
      text = (text or "").lower()
      return re.sub(r"[...]", "", text) *)
Definition _clean_text (text : option pystr) : pystr :=
  let text := str_lower (or_empty text) in
  re_sub_class text.

End WithRuntime.

End Normalizer.
Import Normalizer.

(** ** [_seq.py]: script parser *)

Module Parser.

Definition LBRACKET : codepoint := 0x5b%N.
Definition RBRACKET : codepoint := 0x5d%N.
Definition UPPER_V : codepoint := 0x56%N.
Definition LOWER_V : codepoint := 0x76%N.

(** A script item [(id, text)]. *)
Definition script_item := (Z * pystr)%type.

Section WithRuntime.

(** [\s] and [str.strip] use the runtime's notion of whitespace, [\d] and
    [int] its table of decimal digits. *)
Variable is_space : codepoint -> bool.
Variable digit_value : codepoint -> option N.

Definition is_digit (c : codepoint) : bool :=
  match digit_value c with Some _ => true | None => false end.

(** [([^\[]+)]: the longest run without an opening bracket, at least one
    character. *)
Fixpoint span_no_bracket (s : pystr) : pystr :=
  match s with
  | [] => []
  | c :: s' => if N.eqb c LBRACKET then [] else c :: span_no_bracket s'
  end.

Definition match_body (s : pystr) : option pystr :=
  match span_no_bracket s with
  | [] => None
  | b => Some b
  end.

(** [\s*([^\[]+)] with the backtracking of a greedy star: take the
    whitespace character when the rest then matches, otherwise stop the
    star here.  The result is group 2 and the number of characters
    consumed. *)
Fixpoint match_ws_body (s : pystr) : option (pystr * nat) :=
  let here := match match_body s with
              | Some b => Some (b, length b)
              | None => None
              end in
  match s with
  | [] => here
  | c :: s' =>
      if is_space c then
        match match_ws_body s' with
        | Some (b, n) => Some (b, S n)
        | None => here
        end
      else here
  end.

(** [\d*\]\s*([^\[]+)] after the digits [acc] already taken (greedy,
    with backtracking). *)
Fixpoint match_digits_tail (acc : pystr) (s : pystr)
  : option (pystr * pystr * nat) :=
  let here :=
    match s with
    | c :: s' =>
        if N.eqb c RBRACKET then
          match match_ws_body s' with
          | Some (b, n) => Some (acc, b, S n)
          | None => None
          end
        else None
    | [] => None
    end in
  match s with
  | [] => here
  | c :: s' =>
      if is_digit c then
        match match_digits_tail (acc ++ [c]) s' with
        | Some (ds, b, n) => Some (ds, b, S n)
        | None => here
        end
      else here
  end.

(** The whole pattern [\[[Vv](\d+)\]\s*([^\[]+)] anchored at the head of
    [s]: groups 1 and 2 and the length of the match. *)
Definition match_here (s : pystr) : option (pystr * pystr * nat) :=
  match s with
  | b :: v :: d :: s' =>
      if N.eqb b LBRACKET && (N.eqb v UPPER_V || N.eqb v LOWER_V) && is_digit d
      then match match_digits_tail [d] s' with
           | Some (ds, body, n) => Some (ds, body, 3 + n)
           | None => None
           end
      else None
  | _ => None
  end.

(** [int(m[0])] on a run of decimal digits. *)
Definition int_of_digits (ds : pystr) : Z :=
  Z.of_N (fold_left (fun acc c =>
                       match digit_value c with
                       | Some v => (10 * acc + v)%N
                       | None => acc
                       end) ds 0%N).

(** [str.strip()] *)
Fixpoint lstrip (s : pystr) : pystr :=
  match s with
  | c :: s' => if is_space c then lstrip s' else s
  | [] => []
  end.
Definition strip (s : pystr) : pystr := rev (lstrip (rev (lstrip s))).

(** [re.findall]: scan left to right; after a match resume behind it
    ([skip] counts the characters of the last match still to pass),
    otherwise move on by one character. *)
Fixpoint findall (skip : nat) (s : pystr) : list (pystr * pystr) :=
  match s with
  | [] => []
  | _ :: s' =>
      match skip with
      | S k => findall k s'
      | O =>
          match match_here s with
          | Some (ds, body, n) => (ds, body) :: findall (pred n) s'
          | None => findall 0 s'
          end
      end
  end.

(** def _parse_script(content):
      pattern = r"\[[Vv](\d+)\]\s*([^\[]+)"
      return [(int(m[0]), m[1].strip())
              for m in re.findall(pattern, content or "", re.DOTALL)] *)
Definition _parse_script (content : option pystr) : list script_item :=
  map (fun m => (int_of_digits (fst m), strip (snd m)))
      (findall 0 (or_empty content)).

End WithRuntime.

End Parser.
Import Parser.

(** ** [_seq.py]: sequence aligner *)

Module Aligner.

(** A transcribed word as the aligner reads it: [w.get("word", "")] passed
    through [str], [w.get("start", ...)] and [w.get("end", ...)] passed
    through [float]; [None] is a missing key. *)
Record word_dict := {
  w_word : option pystr;
  w_start : option float;
  w_end : option float
}.

(** An element of [all_words]: a dict, or anything else
    ([isinstance(w, dict)] is false). *)
Inductive word_entry :=
| Dict (d : word_dict)
| NotDict.

(** [(vid, start_time, end_time, text)] *)
Definition matched := (Z * float * float * pystr)%type.

Definition MAX_COLLECTED_LEN : nat := 5000.
Definition GC_INTERVAL : nat := 20.
Definition SPACE : codepoint := 0x20%N.

(** The variables of the [while] loop.  [current_idx] is a ghost field: the
    positions in [all_words] of the entries held by [current_words]. *)
Record loop_state := {
  word_ptr : nat;
  collected : pystr;
  current_words : list word_entry;
  current_idx : list nat
}.

(** What the loop does that the claims speak of. *)
Inductive event :=
| IterStart (st : loop_state)
    (** the guard [word_ptr < total_words] held, an iteration begins *)
| RatioCall (raw : pystr) (a b : pystr)
    (** [SequenceMatcher(None, a, b).ratio()], [a = _clean_text(raw)] *).

Inductive log_msg :=
| SkipEmptyTarget (vid : Z)
| SkipNoValidWords (vid : Z)
| SkipInvalidWordType (vid : Z).

(** The variables of [_match_words_to_script] between two script items;
    [used] (ghost) lists, for every emitted match, the word positions it was
    built from, [events] (ghost) what the inner loops did, [gc_runs] the
    calls of [gc.collect()]. *)
Record aligner_state := {
  a_word_ptr : nat;
  a_matches : list matched;
  a_used : list (list nat);
  a_log : list log_msg;
  a_events : list event;
  a_gc_runs : nat
}.

Section WithRuntime.

Variable str_lower : pystr -> pystr.
(** [difflib.SequenceMatcher(None, a, b).ratio()] *)
Variable ratio : pystr -> pystr -> float.

Variable all_words : list word_entry.

Definition total_words : nat := length all_words.

(** Lines 81-84:
      if isinstance(w, dict):
          collected += " " + str(w.get("word", ""))
          current_words.append(w)
      word_ptr += 1 *)
Definition take_word (w : word_entry) (st : loop_state) : loop_state :=
  match w with
  | Dict d =>
      {| word_ptr := S (word_ptr st);
         collected := collected st ++ SPACE :: or_empty (w_word d);
         current_words := current_words st ++ [w];
         current_idx := current_idx st ++ [word_ptr st] |}
  | NotDict =>
      {| word_ptr := S (word_ptr st);
         collected := collected st;
         current_words := current_words st;
         current_idx := current_idx st |}
  end.

(** Lines 94-97: the similarity test, made on the normalized buffer. *)
Definition satisfied (target : pystr) (st : loop_state) : bool :=
  let c := _clean_text str_lower (Some (collected st)) in
  ltb 0.85 (ratio c target) || (length target + 20 <? length c).

(** The [while word_ptr < total_words] loop, lines 79-98.  [fuel] is the
    loop variant [total_words - word_ptr]; [len(collected) <
    len(target) * 0.5] is exact on integers as
    [2 * len(collected) < len(target)]. *)
Fixpoint accumulate (target : pystr) (fuel : nat) (st : loop_state)
  : loop_state * list event :=
  match fuel with
  | O => (st, [])
  | S fuel' =>
      match nth_error all_words (word_ptr st) with
      | None => (st, [])
      | Some w =>
          let st1 := take_word w st in
          if MAX_COLLECTED_LEN <? length (collected st1) then
            (st1, [IterStart st])
          else if 2 * length (collected st1) <? length target then
            let '(r, tr) := accumulate target fuel' st1 in
            (r, IterStart st :: tr)
          else
            let call := RatioCall (collected st1)
                          (_clean_text str_lower (Some (collected st1)))
                          target in
            if satisfied target st1 then
              (st1, [IterStart st; call])
            else
              let '(r, tr) := accumulate target fuel' st1 in
              (r, IterStart st :: call :: tr)
      end
  end.

Definition fresh_loop (ptr : nat) : loop_state :=
  {| word_ptr := ptr; collected := []; current_words := [];
     current_idx := [] |}.

Definition float_or (x : option float) (d : float) : float :=
  match x with Some f => f | None => d end.

(** One pass of the [for item_idx, (vid, text) in enumerate(script_items)]
    loop, lines 70-119. *)
Definition process_item (item_idx : nat) (item : script_item)
    (st : aligner_state) : aligner_state :=
  let '(vid, text) := item in
  let target := _clean_text str_lower (Some text) in
  match target with
  | [] =>
      {| a_word_ptr := a_word_ptr st; a_matches := a_matches st;
         a_used := a_used st; a_log := a_log st ++ [SkipEmptyTarget vid];
         a_events := a_events st; a_gc_runs := a_gc_runs st |}
  | _ :: _ =>
      let '(ls, evs) :=
        accumulate target (total_words - a_word_ptr st)
                   (fresh_loop (a_word_ptr st)) in
      match current_words ls with
      | [] =>
          {| a_word_ptr := word_ptr ls; a_matches := a_matches st;
             a_used := a_used st;
             a_log := a_log st ++ [SkipNoValidWords vid];
             a_events := a_events st ++ evs; a_gc_runs := a_gc_runs st |}
      | first_word :: _ =>
          let last_word := last (current_words ls) first_word in
          match first_word, last_word with
          | Dict f, Dict l =>
              let s_time := float_or (w_start f) 0 in
              let e_time := float_or (w_end l) (s_time + 0.1) in
              {| a_word_ptr := word_ptr ls;
                 a_matches := a_matches st ++ [(vid, s_time, e_time, text)];
                 a_used := a_used st ++ [current_idx ls];
                 a_log := a_log st;
                 a_events := a_events st ++ evs;
                 a_gc_runs :=
                   if (0 <? item_idx) && (item_idx mod GC_INTERVAL =? 0)
                   then S (a_gc_runs st) else a_gc_runs st |}
          | _, _ =>
              {| a_word_ptr := word_ptr ls; a_matches := a_matches st;
                 a_used := a_used st;
                 a_log := a_log st ++ [SkipInvalidWordType vid];
                 a_events := a_events st ++ evs;
                 a_gc_runs := a_gc_runs st |}
          end
      end
  end.

Fixpoint for_items (item_idx : nat) (items : list script_item)
    (st : aligner_state) : aligner_state :=
  match items with
  | [] => st
  | item :: rest => for_items (S item_idx) rest (process_item item_idx item st)
  end.

Definition initial : aligner_state :=
  {| a_word_ptr := 0; a_matches := []; a_used := []; a_log := [];
     a_events := []; a_gc_runs := 0 |}.

Definition run (script_items : list script_item) : aligner_state :=
  for_items 0 script_items initial.

(** def _match_words_to_script(all_words, script_items, log_func=None) *)
Definition _match_words_to_script (script_items : list script_item)
  : list matched :=
  a_matches (run script_items).

End WithRuntime.

End Aligner.

(** ** [safe_kernel.py]: process execution kernel *)

Module Kernel.

(** The [RuntimeError]s of [execute_safe], by the head of their message. *)
Inductive failure :=
| STOPPED
| TIMEOUT
| CMD_NOT_FOUND
| FFMPEG_CRASHED (returncode : Z).

(** [subprocess.CompletedProcess]: the return code and the captured
    diagnostic lines. *)
Record completed := {
  returncode : Z;
  stderr : list pystr
}.

(** [Running]: the observed prefix of the environment ended while the
    external process was still being waited for. *)
Inductive outcome :=
| Returned (cp : completed)
| Raised (f : failure)
| Running.

Inductive action :=
| ReadStop (b : bool)      (** [_is_stopped()] returned [b] *)
| Spawn                    (** [subprocess.Popen] / [subprocess.run] *)
| Terminate                (** [proc.terminate()] *)
| Wait2                    (** [proc.wait(timeout=2)] *)
| Kill                     (** [proc.kill()] *)
| LogLine (line : pystr)   (** [log_func(line.rstrip("\n"))] *)
| Sleep                    (** [time.sleep(0.01)] *)
| Exited (rc : Z)          (** the process is done: [proc.poll()] gave
                               [rc], or [subprocess.run] returned *)
| WriteLastFailedCmd       (** [_write_last_failed_cmd] *).

(** What one pass of the streaming loop observes. *)
Record poll := {
  p_stopped : bool;          (** [_is_stopped()] *)
  p_elapsed : bool;          (** [(time.time() - start) > float(timeout)] *)
  p_line : option pystr;     (** [proc.stderr.readline()], [None] for [""] *)
  p_exit : option Z          (** [proc.poll()] *)
}.

(** [subprocess.run] in the non-streaming mode. *)
Inductive run_outcome :=
| RunCompleted (cp : completed)
| RunTimeoutExpired
| RunNotFound.

Record environment := {
  e_stop_before : bool;      (** [_is_stopped()] on entry *)
  e_launch_fails : bool;     (** [Popen] raises FileNotFoundError / OSError *)
  e_polls : list poll;
  e_terminate_raises : bool;
  e_wait_exits : bool;       (** [proc.wait(timeout=2)] returns in time *)
  e_stop_after : bool;       (** [_is_stopped()] after the process is done *)
  e_run : run_outcome
}.

Record config := {
  has_timeout : bool;        (** [timeout is not None] *)
  stream : bool;
  check : bool;
  has_log_func : bool
}.

Section WithEnvironment.

Variable cfg : config.
Variable env : environment.

(** Lines 207-219: the stop branch of the streaming loop. *)
Definition stop_process : list action :=
  Terminate :: Wait2 :: (if e_wait_exits env then [] else [Kill]).

(** Lines 221-230: the timeout branch; here a failing [terminate] skips
    the wait. *)
Definition timeout_process : list action :=
  if e_terminate_raises env then [Terminate; Kill]
  else Terminate :: Wait2 :: (if e_wait_exits env then [] else [Kill]).

(** Lines 206-243, [while True]; the result is the exit code and the
    accumulated diagnostic lines when the loop is left by [break]. *)
Fixpoint stream_loop (ps : list poll) (stderr_acc : list pystr)
  : (failure + option completed) * list action :=
  match ps with
  | [] => (inr None, [])
  | p :: ps' =>
      if p_stopped p then
        (inl STOPPED, ReadStop true :: stop_process)
      else if has_timeout cfg && p_elapsed p then
        (inl TIMEOUT, ReadStop false :: timeout_process)
      else
        match p_line p with
        | Some line =>
            let '(r, acts) := stream_loop ps' (stderr_acc ++ [line]) in
            (r, ReadStop false ::
                (if has_log_func cfg then [LogLine line] else []) ++ acts)
        | None =>
            match p_exit p with
            | Some rc =>
                (inr (Some {| returncode := rc; stderr := stderr_acc |}),
                 [ReadStop false; Exited rc])
            | None =>
                let '(r, acts) := stream_loop ps' stderr_acc in
                (r, ReadStop false :: Sleep :: acts)
            end
        end
  end.

(** Lines 158-164 and 254-260: what follows a completed process. *)
Definition finish (cp : completed) : outcome * list action :=
  if e_stop_after env then (Raised STOPPED, [ReadStop true])
  else if check cfg && negb (Z.eqb (returncode cp) 0) then
    (Raised (FFMPEG_CRASHED (returncode cp)),
     [ReadStop false; WriteLastFailedCmd])
  else (Returned cp, [ReadStop false]).

(** def execute_safe(cmd, *, cwd, env, timeout, log_func, stream, check, ...) *)
Definition execute_safe : outcome * list action :=
  if e_stop_before env then (Raised STOPPED, [ReadStop true])
  else if negb (stream cfg) then
    match e_run env with
    | RunTimeoutExpired =>
        if has_timeout cfg
        then (Raised TIMEOUT, [ReadStop false; Spawn; WriteLastFailedCmd])
        else (Running, [ReadStop false; Spawn])
    | RunNotFound =>
        (Raised CMD_NOT_FOUND, [ReadStop false; Spawn; WriteLastFailedCmd])
    | RunCompleted cp =>
        let '(r, acts) := finish cp in
        (r, ReadStop false :: Spawn :: Exited (returncode cp) :: acts)
    end
  else if e_launch_fails env then
    (Raised CMD_NOT_FOUND, [ReadStop false; Spawn; WriteLastFailedCmd])
  else
    match stream_loop (e_polls env) [] with
    | (inl f, acts) => (Raised f, ReadStop false :: Spawn :: acts)
    | (inr None, acts) => (Running, ReadStop false :: Spawn :: acts)
    | (inr (Some cp), acts) =>
        let '(r, acts') := finish cp in
        (r, ReadStop false :: Spawn :: acts ++ acts')
    end.

End WithEnvironment.

End Kernel.

(** ** [process_task.py]: clip synthesis orchestrator *)

Module Orchestrator.

Import Aligner.

(** The exceptions that reach the loops; all derive from [Exception]. *)
Inductive exn :=
| StopRequested
| RuntimeError (msg : pystr)
| ValueError
| IndexError
| OSError.

Inductive result (A : Type) :=
| Ok (a : A)
| Raise (e : exn).
Arguments Ok {A} a.
Arguments Raise {A} e.

Inductive clip_kind := AudioVideo | AudioOnly | AudioImage.

Inductive log_msg :=
| LogStopped
| LogAudioFailed (vid : Z) (err : exn)
| LogNoVisual (vid : Z)
| LogClip (idx total : nat) (vid : Z) (kind : clip_kind) (duration : float)
          (text_display : pystr).

(** The arguments of one [_make_image_clip] call. *)
Record clip_args := {
  c_image : pystr; c_out : pystr; c_duration : float;
  c_canvas_w : Z; c_canvas_h : Z;
  c_enc_name : pystr; c_enc_preset : pystr; c_effect : pystr
}.

(** Everything a loop does to its environment, in order. *)
Inductive event :=
| StopCheck (b : bool)
| Log (m : log_msg)
| Gc
| Makedirs (path : pystr) (raised : option exn)
| RunnerCall (argv : list pystr) (raised : option exn)
| FindVideo (dir : pystr) (vid : Z) (found : result (option pystr))
| Probe (path : pystr) (readable : bool)
| MakeImageClip (args : clip_args) (raised : option exn).

Definition history := list event.

(** Computations of the loops: they read and extend the history and end
    normally or with an exception. *)
Definition M (A : Type) := history -> result A * history.

Definition ret {A} (a : A) : M A := fun h => (Ok a, h).
Definition raise {A} (e : exn) : M A := fun h => (Raise e, h).
Definition bind {A B} (m : M A) (k : A -> M B) : M B :=
  fun h => match m h with
           | (Ok a, h') => k a h'
           | (Raise e, h') => (Raise e, h')
           end.
(** [try: m  except Exception as e: handler(e)] *)
Definition try_except {A} (m : M A) (handler : exn -> M A) : M A :=
  fun h => match m h with
           | (Ok a, h') => (Ok a, h')
           | (Raise e, h') => handler e h'
           end.

Declare Scope orch_scope.
Delimit Scope orch_scope with orch.
Notation "x <- m ;; k" := (bind m (fun x => k))
  (at level 61, m at next level, right associativity) : orch_scope.
Notation "m ;;; k" := (bind m (fun _ => k))
  (at level 61, right associativity) : orch_scope.

(** *** Python lists of strings *)

Fixpoint str_eqb (a b : pystr) : bool :=
  match a, b with
  | [], [] => true
  | x :: a', y :: b' => N.eqb x y && str_eqb a' b'
  | _, _ => false
  end.

(** [l.index(x)]; [None] stands for ValueError. *)
Fixpoint list_index (x : pystr) (l : list pystr) : option nat :=
  match l with
  | [] => None
  | y :: l' => if str_eqb y x then Some 0
               else match list_index x l' with
                    | Some i => Some (S i)
                    | None => None
                    end
  end.

(** [l[i] = v]; [None] stands for IndexError. *)
Fixpoint list_set (i : nat) (v : pystr) (l : list pystr)
  : option (list pystr) :=
  match l, i with
  | [], _ => None
  | _ :: l', O => Some (v :: l')
  | y :: l', S j => match list_set j v l' with
                    | Some r => Some (y :: r)
                    | None => None
                    end
  end.

(** [l.insert(i, x)] for [0 <= i]. *)
Definition list_insert (i : nat) (x : pystr) (l : list pystr) : list pystr :=
  firstn i l ++ x :: skipn i l.

(** Lines 655-658 (and 491-494):
      cmd_aac = cmd_copy[:]
      cmd_aac[cmd_aac.index("-c:a") + 1] = "aac"
      cmd_aac.insert(cmd_aac.index("-shortest"), "192k")
      cmd_aac.insert(cmd_aac.index("-shortest"), "-b:a") *)
Definition rebuild_aac (cmd_copy : list pystr) : result (list pystr) :=
  let cmd_aac := cmd_copy in
  match list_index (lit "-c:a") cmd_aac with
  | None => Raise ValueError
  | Some i =>
      match list_set (i + 1) (lit "aac") cmd_aac with
      | None => Raise IndexError
      | Some cmd_aac =>
          match list_index (lit "-shortest") cmd_aac with
          | None => Raise ValueError
          | Some j =>
              let cmd_aac := list_insert j (lit "192k") cmd_aac in
              match list_index (lit "-shortest") cmd_aac with
              | None => Raise ValueError
              | Some k => Ok (list_insert k (lit "-b:a") cmd_aac)
              end
          end
      end
  end.

(** [str(n)] for an integer and [s.zfill(width)]. *)
Definition str_int (n : Z) : pystr :=
  lit (DecimalString.NilZero.string_of_int (Z.to_int n)).

Definition zfill (width : nat) (s : pystr) : pystr :=
  let pad body := repeat 0x30%N (width - length s) ++ body in
  match s with
  | c :: body => if N.eqb c 0x2d%N || N.eqb c 0x2b%N then c :: pad body
                 else pad s
  | [] => pad s
  end.

(** [text[:40] + "..." if len(text) > 40 else text] *)
Definition text_display (text : pystr) : pystr :=
  if 40 <? length text then firstn 40 text ++ lit "..." else text.

(** [max(0.10, x)]: Python keeps the first argument unless the second is
    greater. *)
Definition max_tenth (x : float) : float :=
  if ltb 0.10 x then x else 0.10%float.

Section WithEnvironment.

(** The callbacks and system calls, each a function of what happened so
    far. *)
Variable ffmpeg_runner : history -> list pystr -> option exn.
Variable stop_check : history -> bool.
Variable gc_func : bool.                     (** a [gc_func] was passed *)
Variable os_makedirs : history -> pystr -> option exn.
Variable find_video_by_vid_any_ext :
  history -> pystr -> Z -> result (option pystr).
Variable ffprobe_has_video_stream : history -> pystr -> bool.
Variable make_image_clip : history -> clip_args -> option exn.

(** [str(x)] of a float, [os.path.join], [os.path.dirname]. *)
Variable str_float : float -> pystr.
Variable path_join : pystr -> pystr -> pystr.
Variable path_dirname : pystr -> pystr.

Local Open Scope orch_scope.

Definition of_raised (r : option exn) : result unit :=
  match r with None => Ok tt | Some e => Raise e end.

Definition do_stop_check : M bool :=
  fun h => let b := stop_check h in (Ok b, h ++ [StopCheck b]).
Definition do_log (m : log_msg) : M unit :=
  fun h => (Ok tt, h ++ [Log m]).
Definition do_gc : M unit := fun h => (Ok tt, h ++ [Gc]).
Definition do_makedirs (path : pystr) : M unit :=
  fun h => let r := os_makedirs h path in
           (of_raised r, h ++ [Makedirs path r]).
Definition call_runner (argv : list pystr) : M unit :=
  fun h => let r := ffmpeg_runner h argv in
           (of_raised r, h ++ [RunnerCall argv r]).
Definition do_find_video (dir : pystr) (vid : Z) : M (option pystr) :=
  fun h => let r := find_video_by_vid_any_ext h dir vid in
           (r, h ++ [FindVideo dir vid r]).
Definition do_probe (path : pystr) : M bool :=
  fun h => let b := ffprobe_has_video_stream h path in
           (Ok b, h ++ [Probe path b]).
Definition do_make_image_clip (args : clip_args) : M unit :=
  fun h => let r := make_image_clip h args in
           (of_raised r, h ++ [MakeImageClip args r]).

(** Lines 613-622 and 728-737: the audio-extraction command. *)
Definition audio_cmd (audio_path : pystr) (s_time e_time : float)
    (a_out : pystr) : list pystr :=
  [ lit "ffmpeg"; lit "-y";
    lit "-ss"; str_float s_time;
    lit "-to"; str_float e_time;
    lit "-i"; audio_path;
    lit "-vn"; lit "-acodec"; lit "libmp3lame";
    lit "-q:a"; lit "2";
    lit "-loglevel"; lit "error";
    a_out ].

(** Lines 632-649: the video command with a direct audio-stream copy. *)
Definition video_cmd_copy (ffmpeg_threads : list pystr) (video_src : pystr)
    (duration : float) (enc_name enc_preset v_out : pystr) : list pystr :=
  [ lit "ffmpeg"; lit "-y" ] ++ ffmpeg_threads ++
  [ lit "-ss"; lit "0";
    lit "-i"; video_src;
    lit "-t"; str_float duration;
    lit "-vf"; lit "scale=trunc(iw/2)*2:trunc(ih/2)*2,fps=30";
    lit "-map"; lit "0:v:0";
    lit "-map"; lit "0:a?";
    lit "-c:v"; enc_name;
    lit "-preset"; enc_preset;
    lit "-pix_fmt"; lit "yuv420p";
    lit "-c:a"; lit "copy";
    lit "-shortest";
    lit "-map_metadata"; lit "-1";
    lit "-loglevel"; lit "error";
    v_out ].

Definition out_file (dir : pystr) (vid : Z) (ext : string) : pystr :=
  path_join dir (zfill 3 (str_int vid) ++ lit ext).

(** Lines 651-659:
      try: ffmpeg_runner(cmd_copy)
      except Exception: (rebuild) ; ffmpeg_runner(cmd_aac) *)
Definition cut_video (cmd_copy : list pystr) : M unit :=
  try_except (call_runner cmd_copy)
    (fun _ => match rebuild_aac cmd_copy with
              | Ok cmd_aac => call_runner cmd_aac
              | Raise e => raise e
              end).

Section CuttingLoop.

Variables (total : nat) (audio_path video_source_dir out_aud out_vid : pystr)
          (enc_name enc_preset : pystr) (ffmpeg_threads : list pystr).

(** The [for idx, (vid, s_time, e_time, text) in enumerate(matches, 1)]
    loop of [_cutting_loop], lines 597-673. *)
Fixpoint cutting_for (idx : nat) (matches : list matched) (processed : nat)
  : M nat :=
  match matches with
  | [] => ret processed
  | (vid, s_time, e_time, text) :: rest =>
      stopped <- do_stop_check ;;
      if stopped : bool then
        do_log LogStopped ;;; ret processed
      else
        (if (idx mod 20 =? 0) && gc_func then do_gc else ret tt) ;;;
        let duration := (e_time - s_time)%float in
        let a_out := out_file out_aud vid ".mp3" in
        do_makedirs (path_dirname a_out) ;;;
        audio_ok <- try_except
                      (call_runner (audio_cmd audio_path s_time e_time a_out)
                       ;;; ret true)
                      (fun audio_err =>
                         do_log (LogAudioFailed vid audio_err) ;;; ret false) ;;
        if negb audio_ok then cutting_for (S idx) rest processed
        else
          video_src <- do_find_video video_source_dir vid ;;
          match video_src with
          | Some ((_ :: _) as src) =>
              let v_out := out_file out_vid vid ".mp4" in
              cut_video (video_cmd_copy ffmpeg_threads src duration
                                        enc_name enc_preset v_out) ;;;
              do_log (LogClip idx total vid AudioVideo duration
                              (text_display text)) ;;;
              cutting_for (S idx) rest (S processed)
          | _ =>
              do_log (LogClip idx total vid AudioOnly duration
                              (text_display text)) ;;;
              cutting_for (S idx) rest (S processed)
          end
  end.

End CuttingLoop.

(** def _cutting_loop(matches, audio_path, video_source_dir, out_aud,
      out_vid, enc_name, enc_preset, ffmpeg_threads, ffmpeg_runner,
      log_func, stop_check, gc_func=None) *)
Definition _cutting_loop (matches : list matched)
    (audio_path video_source_dir out_aud out_vid enc_name enc_preset : pystr)
    (ffmpeg_threads : list pystr) : M nat :=
  cutting_for (length matches) audio_path video_source_dir out_aud out_vid
              enc_name enc_preset ffmpeg_threads 1 matches 0.

Section ImageFlowLoop.

Variables (total : nat) (audio_path out_aud out_vid : pystr)
          (files : list pystr) (canvas_w canvas_h : Z)
          (enc_name enc_preset effect_type : pystr).

(** Lines 743-751:
      picked = None ; tries = 0
      while tries < len(files):
          p = files[cursor % len(files)] ; cursor += 1 ; tries += 1
          if _ffprobe_has_video_stream(p): picked = p ; break
    [left] counts the passes still allowed, [len(files) - tries]. *)
Fixpoint pick_visual (left : nat) (cursor : nat) : M (option pystr * nat) :=
  match left with
  | O => ret (None, cursor)
  | S left' =>
      let p := nth (cursor mod length files) files [] in
      readable <- do_probe p ;;
      if readable : bool then ret (Some p, S cursor)
      else pick_visual left' (S cursor)
  end.

Definition clip (picked v_out : pystr) (duration : float)
    (enc pre : pystr) : clip_args :=
  {| c_image := picked; c_out := v_out; c_duration := duration;
     c_canvas_w := canvas_w; c_canvas_h := canvas_h;
     c_enc_name := enc; c_enc_preset := pre; c_effect := effect_type |}.

(** Lines 758-768:
      try: _make_image_clip(..., enc_name, enc_preset, effect_type)
      except Exception:
          _make_image_clip(..., "libx264", "ultrafast", effect_type) *)
Definition render_image (picked v_out : pystr) (duration : float) : M unit :=
  try_except
    (do_make_image_clip (clip picked v_out duration enc_name enc_preset))
    (fun _ => do_make_image_clip
                (clip picked v_out duration (lit "libx264") (lit "ultrafast"))).

(** The [for] loop of [_image_flow_loop], lines 714-777. *)
Fixpoint image_for (idx : nat) (matches : list matched)
    (cursor processed : nat) : M nat :=
  match matches with
  | [] => ret processed
  | (vid, s_time, e_time, text) :: rest =>
      stopped <- do_stop_check ;;
      if stopped : bool then
        do_log LogStopped ;;; ret processed
      else
        (if (idx mod 20 =? 0) && gc_func then do_gc else ret tt) ;;;
        let duration := max_tenth (e_time - s_time) in
        let a_out := out_file out_aud vid ".mp3" in
        audio_ok <- try_except
                      (call_runner (audio_cmd audio_path s_time e_time a_out)
                       ;;; ret true)
                      (fun audio_err =>
                         do_log (LogAudioFailed vid audio_err) ;;; ret false) ;;
        if negb audio_ok then image_for (S idx) rest cursor processed
        else
          pc <- pick_visual (length files) cursor ;;
          match pc with
          | (Some ((_ :: _) as picked), cursor') =>
              let v_out := out_file out_vid vid ".mp4" in
              render_image picked v_out duration ;;;
              do_log (LogClip idx total vid AudioImage duration
                              (text_display text)) ;;;
              image_for (S idx) rest cursor' (S processed)
          | (_, cursor') =>
              do_log (LogNoVisual vid) ;;;
              image_for (S idx) rest cursor' processed
          end
  end.

End ImageFlowLoop.

(** def _image_flow_loop(matches, audio_path, out_aud, out_vid, files,
      start_idx, canvas_w, canvas_h, enc_name, enc_preset, effect_type,
      ffmpeg_runner, log_func, stop_check, gc_func=None) *)
Definition _image_flow_loop (matches : list matched)
    (audio_path out_aud out_vid : pystr) (files : list pystr)
    (start_idx : nat) (canvas_w canvas_h : Z)
    (enc_name enc_preset effect_type : pystr) : M nat :=
  image_for (length matches) audio_path out_aud out_vid files
            canvas_w canvas_h enc_name enc_preset effect_type
            1 matches start_idx 0.

End WithEnvironment.

End Orchestrator.

(** ** [engines/sk3_image_flow.py]: loading the script *)

Module Engine.

(** How the script-loading step can end.  [ScriptFormatError] is the name
    the specification's error taxonomy uses; [core/exceptions.py] declares no
    such class and no code path raises it. *)
Inductive error :=
| RuntimeError (msg : pystr)
| ScriptFormatError.

Inductive loaded :=
| Loaded (script_items : list script_item)
| Failed (e : error).

Definition SCRIPT_PARSE_EMPTY : pystr :=
  lit "Script parse empty. Format: [V1] ... [V2] ...".

Section WithRuntime.

Variable is_space : codepoint -> bool.
Variable digit_value : codepoint -> option N.

(** [process_image_flow], lines 701-709:
      script_items = parse_script(f.read())
      if not script_items:
          raise RuntimeError("Script parse empty. Format: [V1] ... [V2] ...")
    (the surrounding [except] logs and re-raises). *)
Definition load_script (content : pystr) : loaded :=
  let script_items := _parse_script is_space digit_value (Some content) in
  match script_items with
  | [] => Failed (RuntimeError SCRIPT_PARSE_EMPTY)
  | _ :: _ => Loaded script_items
  end.

End WithRuntime.

End Engine.

(** ** Concrete runtimes and environments for the examples *)

Module Samples.

Import Aligner Orchestrator.

(** A similarity that never reaches the threshold. *)
Definition ratio_zero (a b : pystr) : float := 0%float.

(** A similarity that is above the threshold exactly when the first string
    is the second one behind a single space, the buffer of a word run that
    spells the target. *)
Definition ratio_lead_space (a b : pystr) : float :=
  if str_eqb a (SPACE :: b) then 0.9%float else 0%float.

Definition word (s : string) (t0 t1 : float) : word_entry :=
  Dict {| w_word := Some (lit s); w_start := Some t0; w_end := Some t1 |}.


(** The transcript and the script of the specification's example. *)
Definition hello_words : list word_entry :=
  [ word "hello" 0.0 0.5; word "world" 0.5 1.0;
    word "goodbye" 1.2 1.7; word "now" 1.7 2.0 ].
Definition hello_script : list script_item :=
  [ (1%Z, lit "hello world"); (2%Z, lit "goodbye now") ].

(** [os.path.join] and [os.path.dirname] on POSIX, for a relative second
    component and a first one without a trailing separator. *)
Definition SLASH : codepoint := 0x2f%N.
Definition posix_join (a b : pystr) : pystr := a ++ SLASH :: b.
Fixpoint posix_dirname (p : pystr) : pystr :=
  match p with
  | [] => []
  | c :: p' => if existsb (N.eqb SLASH) p' then c :: posix_dirname p' else []
  end.

(** [str(x)] on the floats the examples use. *)
Definition str_float_sample (x : float) : pystr :=
  if eqb x 0 then lit "0.0"
  else if eqb x 0.5 then lit "0.5"
  else if eqb x 1 then lit "1.0"
  else if eqb x 1.5 then lit "1.5"
  else if eqb x 2 then lit "2.0"
  else lit "nan".

(** [s.endswith(suffix)] *)
Definition endswith (suffix s : pystr) : bool :=
  str_eqb (skipn (length s - length suffix) s) suffix.

Definition CRASH : exn := RuntimeError (lit "FFMPEG CRASHED").

(** A transcoder that writes every audio file and fails on every video
    file. *)
Definition runner_video_fails (h : history) (argv : list pystr) : option exn :=
  if endswith (lit ".mp4") (last argv []) then Some CRASH else None.

(** A transcoder that fails on every audio file. *)
Definition runner_audio_fails (h : history) (argv : list pystr) : option exn :=
  if endswith (lit ".mp3") (last argv []) then Some CRASH else None.

(** A transcoder that fails on a direct audio-stream copy only. *)
Definition runner_copy_fails (h : history) (argv : list pystr) : option exn :=
  match list_index (lit "copy") argv with
  | Some _ => Some CRASH
  | None => None
  end.

Definition never_stopped (h : history) : bool := false.
Definition makedirs_ok (h : history) (p : pystr) : option exn := None.
Definition video_present (h : history) (dir : pystr) (vid : Z)
  : result (option pystr) :=
  Ok (Some (posix_join dir (str_int vid ++ lit ".mp4"))).
Definition all_readable (h : history) (p : pystr) : bool := true.
Definition image_clip_fails (h : history) (a : clip_args) : option exn :=
  Some CRASH.
Definition image_clip_ok (h : history) (a : clip_args) : option exn := None.
Definition runner_ok (h : history) (argv : list pystr) : option exn := None.

(** Stop requested once the first segment has been logged. *)
Definition stopped_after_first_clip (h : history) : bool :=
  existsb (fun e => match e with Log (LogClip _ _ _ _ _ _) => true | _ => false end) h.

Definition two_matches : list matched :=
  [ (1%Z, 0%float, 1%float, lit "hello world");
    (2%Z, 1%float, 2%float, lit "goodbye now") ].

(** The output files named by the runner calls of a history, in order. *)
Definition runner_outputs (h : history) : list pystr :=
  flat_map (fun e => match e with
                     | RunnerCall argv _ => [last argv []]
                     | _ => []
                     end) h.

(** The output files named by the [_make_image_clip] calls of a history. *)
Definition clip_outputs (h : history) : list pystr :=
  flat_map (fun e => match e with
                     | MakeImageClip a _ => [c_out a]
                     | _ => []
                     end) h.

Definition cutting_sample (runner : history -> list pystr -> option exn)
    (stop : history -> bool) : result nat * history :=
  _cutting_loop runner stop true makedirs_ok video_present
    str_float_sample posix_join posix_dirname
    two_matches (lit "in.wav") (lit "videos") (lit "out/audios")
    (lit "out/videos") (lit "h264_nvenc") (lit "p1")
    [lit "-threads"; lit "0"] [].

Definition image_sample (clips : history -> clip_args -> option exn)
    (stop : history -> bool) : result nat * history :=
  _image_flow_loop runner_ok stop true all_readable clips
    str_float_sample posix_join
    two_matches (lit "in.wav") (lit "out/audios") (lit "out/videos")
    [lit "img/a.png"; lit "img/b.png"] 0 1080 1920
    (lit "h264_nvenc") (lit "p1") (lit "kenburns") [].

(** A streaming run that reads one diagnostic line, sees the process exit
    with code 0, and finds the stop flag set afterwards. *)
Definition env_stop_after_success : Kernel.environment :=
  {| Kernel.e_stop_before := false; Kernel.e_launch_fails := false;
     Kernel.e_polls :=
       [ {| Kernel.p_stopped := false; Kernel.p_elapsed := false;
            Kernel.p_line := Some (lit "frame=1"); Kernel.p_exit := None |};
         {| Kernel.p_stopped := false; Kernel.p_elapsed := false;
            Kernel.p_line := None; Kernel.p_exit := Some 0%Z |} ];
     Kernel.e_terminate_raises := false; Kernel.e_wait_exits := true;
     Kernel.e_stop_after := true;
     Kernel.e_run := Kernel.RunCompleted {| Kernel.returncode := 0;
                                            Kernel.stderr := [] |} |}.

(** A streaming run whose second pass finds the stop flag set while the
    process is still running and does not exit within the grace period. *)
Definition env_stop_mid_run : Kernel.environment :=
  {| Kernel.e_stop_before := false; Kernel.e_launch_fails := false;
     Kernel.e_polls :=
       [ {| Kernel.p_stopped := false; Kernel.p_elapsed := false;
            Kernel.p_line := None; Kernel.p_exit := None |};
         {| Kernel.p_stopped := true; Kernel.p_elapsed := false;
            Kernel.p_line := None; Kernel.p_exit := None |} ];
     Kernel.e_terminate_raises := false; Kernel.e_wait_exits := false;
     Kernel.e_stop_after := true;
     Kernel.e_run := Kernel.RunTimeoutExpired |}.

Definition cfg_stream : Kernel.config :=
  {| Kernel.has_timeout := false; Kernel.stream := true;
     Kernel.check := true; Kernel.has_log_func := false |}.

End Samples.


(** ** Predicates the properties are stated with *)

Module AlignerSpec.

Import Aligner.

Section WithRuntime.

Variable str_lower : pystr -> pystr.
Variable all_words : list word_entry.

(** The positions recorded for the collected words lie between the cursor
    at the start of the loop and the cursor at its end. *)
Definition idx_within (lo : nat) (st : loop_state) : Prop :=
  forall i, In i (current_idx st) -> lo <= i < word_ptr st.

(** The ghost positions name the collected words: entry [k] of
    [current_words] is the element of [all_words] at position [k] of
    [current_idx]. *)
Definition idx_sound (st : loop_state) : Prop :=
  Forall2 (fun i w => nth_error all_words i = Some w)
          (current_idx st) (current_words st).

(** [used] lists the positions behind each emitted segment: all of them lie
    below the cursor [ptr], and those of an earlier segment lie below those
    of a later one. *)
Definition ordered (used : list (list nat)) (ptr : nat) : Prop :=
  (forall k idxs a, nth_error used k = Some idxs -> In a idxs -> a < ptr)
  /\ (forall i j si sj a b,
         i < j -> nth_error used i = Some si -> nth_error used j = Some sj ->
         In a si -> In b sj -> a < b).

Definition state_ordered (st : aligner_state) : Prop :=
  ordered (a_used st) (a_word_ptr st).

(** Every similarity call of one loop is made on the normalization of a
    raw buffer that is at least half as long as the target and within the
    cap. *)
Definition ratio_call_ok (target : pystr) (e : event) : Prop :=
  match e with
  | IterStart _ => True
  | RatioCall raw a b =>
      a = _clean_text str_lower (Some raw) /\ b = target
      /\ length target <= 2 * length raw
      /\ length raw <= MAX_COLLECTED_LEN
  end.

Definition run_event_ok (script_items : list script_item) (e : event) : Prop :=
  match e with
  | IterStart s => length (collected s) <= MAX_COLLECTED_LEN
  | RatioCall raw a b =>
      a = _clean_text str_lower (Some raw)
      /\ (exists vid text, In (vid, text) script_items
                           /\ b = _clean_text str_lower (Some text))
      /\ length b <= 2 * length raw
      /\ length raw <= MAX_COLLECTED_LEN
  end.

(** A match and the word positions recorded for it: the positions name
    words of [all_words], the first and the last of them dicts, and the
    times of the match are read from these two. *)
Definition built_from (m : matched) (idxs : list nat) : Prop :=
  exists ws f l vid text,
    Forall2 (fun i w => nth_error all_words i = Some w) idxs ws
    /\ hd_error ws = Some (Dict f)
    /\ last ws (Dict f) = Dict l
    /\ m = (vid, float_or (w_start f) 0,
            float_or (w_end l) (float_or (w_start f) 0 + 0.1), text).

(** What of the aligner's state the result depends on. *)
Definition core (st : aligner_state)
  : nat * list matched * list (list nat) * list event :=
  (a_word_ptr st, a_matches st, a_used st, a_events st).

End WithRuntime.

End AlignerSpec.

Module OrchestratorSpec.

Import Aligner Orchestrator.

(** [emits m Q]: from any history, [m] only appends events, and its result
    and the appended events satisfy [Q]. *)
Definition emits {A : Type} (m : M A) (Q : result A -> list event -> Prop)
  : Prop :=
  forall h, exists new, snd (m h) = h ++ new /\ Q (fst (m h)) new.

(** [quiet]: no stop flag was read as set. *)
Definition quiet (n : list event) : Prop := ~ In (StopCheck true) n.

Definition Quiet {A : Type} (r : result A) (n : list event) : Prop := quiet n.

(** The history stops cleanly: a stop flag read as set is followed by the
    "STOPPED" log line and nothing else, and the loop returns its count. *)
Definition stops_cleanly (r : result nat) (n : list event) : Prop :=
  forall pre post,
    n = pre ++ StopCheck true :: post ->
    post = [Log LogStopped] /\ exists k, r = Ok k.

(** An iteration starts with the stop check, and a check that finds the
    flag set ends the loop at once with the count reached so far. *)
Definition starts_with_check (processed : nat) (r : result nat)
    (n : list event) : Prop :=
  exists b tl,
    n = StopCheck b :: tl
    /\ (b = true -> tl = [Log LogStopped] /\ r = Ok processed).

(** A loop honours the stop flag: whatever the history it starts from, a
    flag read as set is followed by the "STOPPED" log line only and the
    loop returns normally; and while segments remain, the first thing an
    iteration does is to read the flag. *)
Definition honours_stop (matches : list matched) (processed : nat)
    (loop : M nat) : Prop :=
  emits loop
    (fun r n => stops_cleanly r n
                /\ (matches <> [] -> starts_with_check processed r n)).

End OrchestratorSpec.

Module KernelSpec.

Import Kernel.

(** A pass of the streaming loop that neither stops, times out nor sees the
    process exit, so that the loop goes round again. *)
Definition passes_on (cfg : config) (p : poll) : Prop :=
  p_stopped p = false
  /\ has_timeout cfg && p_elapsed p = false
  /\ (p_line p = None -> p_exit p = None).

End KernelSpec.


(** ** Further notions about the aligner *)

Module AlignerNotions.

Import Aligner.

(** [sub] is [l] with some elements left out, the order kept. *)
Inductive subseq {A : Type} : list A -> list A -> Prop :=
| subseq_nil : subseq [] []
| subseq_keep (x : A) (sub l : list A) : subseq sub l -> subseq (x :: sub) (x :: l)
| subseq_skip (x : A) (sub l : list A) : subseq sub l -> subseq sub (x :: l).

(** The script item a match was emitted for. *)
Definition item_of (m : matched) : script_item :=
  let '(vid, _, _, text) := m in (vid, text).

Definition start_of (m : matched) : float := let '(_, s, _, _) := m in s.
Definition end_of (m : matched) : float := let '(_, _, e, _) := m in e.

Definition is_iter_start (e : event) : bool :=
  match e with IterStart _ => true | RatioCall _ _ _ => false end.

(** The number of passes of the inner loop recorded in a trace. *)
Definition passes (evs : list event) : nat :=
  length (filter is_iter_start evs).

Section WithWords.

Variable all_words : list word_entry.

Definition is_dict_at (i : nat) : bool :=
  match nth_error all_words i with
  | Some (Dict _) => true
  | _ => false
  end.

(** The positions [lo <= i < hi] of [all_words] that hold a dict, in
    order. *)
Definition dict_positions (lo hi : nat) : list nat :=
  filter is_dict_at (seq lo (hi - lo)).

(** A match and its word positions: the first and the last position hold
    dicts, and the times of the match are read from these two words. *)
Definition times_from (m : matched) (idxs : list nat) : Prop :=
  exists i j f l,
    hd_error idxs = Some i
    /\ last idxs i = j
    /\ nth_error all_words i = Some (Dict f)
    /\ nth_error all_words j = Some (Dict l)
    /\ start_of m = float_or (w_start f) 0
    /\ end_of m = float_or (w_end l) (start_of m + 0.1).

End WithWords.

Definition is_dict (w : word_entry) : Prop :=
  match w with Dict _ => True | NotDict => False end.

Section WithRuntime.

Local Unset Implicit Arguments.

Variable str_lower : pystr -> pystr.
Variable ratio : pystr -> pystr -> float.
Variable all_words : list word_entry.

(** The three ways one script item can end. *)
Inductive item_outcome (item_idx : nat) (vid : Z) (text : pystr)
    (st st' : aligner_state) : Prop :=
| EmptyTarget :
    _clean_text str_lower (Some text) = [] ->
    st' = {| a_word_ptr := a_word_ptr st; a_matches := a_matches st;
             a_used := a_used st;
             a_log := a_log st ++ [SkipEmptyTarget vid];
             a_events := a_events st; a_gc_runs := a_gc_runs st |} ->
    item_outcome item_idx vid text st st'
| NoWords (ls : loop_state) (evs : list event) :
    accumulate str_lower ratio all_words (_clean_text str_lower (Some text))
               (total_words all_words - a_word_ptr st)
               (fresh_loop (a_word_ptr st)) = (ls, evs) ->
    current_idx ls = [] ->
    st' = {| a_word_ptr := word_ptr ls; a_matches := a_matches st;
             a_used := a_used st;
             a_log := a_log st ++ [SkipNoValidWords vid];
             a_events := a_events st ++ evs; a_gc_runs := a_gc_runs st |} ->
    item_outcome item_idx vid text st st'
| Emitted (ls : loop_state) (evs : list event) (f l : word_dict)
    (ws : list word_entry) :
    accumulate str_lower ratio all_words (_clean_text str_lower (Some text))
               (total_words all_words - a_word_ptr st)
               (fresh_loop (a_word_ptr st)) = (ls, evs) ->
    current_words ls = Dict f :: ws ->
    last (Dict f :: ws) (Dict f) = Dict l ->
    current_idx ls <> [] ->
    a_word_ptr st' = word_ptr ls ->
    a_matches st'
    = a_matches st
        ++ [(vid, float_or (w_start f) 0,
             float_or (w_end l) (float_or (w_start f) 0 + 0.1), text)] ->
    a_used st' = a_used st ++ [current_idx ls] ->
    a_log st' = a_log st ->
    a_events st' = a_events st ++ evs ->
    item_outcome item_idx vid text st st'.

End WithRuntime.

End AlignerNotions.


(** ** Further notions about the script parser *)

Module ParserNotions.



Section WithRuntime.

Variable is_space : codepoint -> bool.
Variable digit_value : codepoint -> option N.



(** What the parser promises about every item it returns. *)
Definition clean_item (item : script_item) : Prop :=
  (0 <= fst item)%Z
  /\ ~ In LBRACKET (snd item)
  /\ (forall c, hd_error (snd item) = Some c -> is_space c = false)
  /\ (forall p c, snd item = p ++ [c] -> is_space c = false).




End WithRuntime.

End ParserNotions.


(** ** Further notions about the process execution kernel *)

Module KernelNotions.

Import PyStr Kernel.


Definition is_spawn (a : action) : bool :=
  match a with Spawn => true | _ => false end.

(** How often a process is launched. *)
Definition spawns (acts : list action) : nat :=
  length (filter is_spawn acts).

(** [proc.terminate()], [proc.wait(timeout=2)] and [proc.kill()]. *)
Definition shuts_down (a : action) : bool :=
  match a with Terminate | Wait2 | Kill => true | _ => false end.

(** Actions of the streaming loop while the process is left alone. *)
Definition calm (a : action) : bool :=
  match a with
  | ReadStop false | LogLine _ | Sleep | Exited _ => true
  | _ => false
  end.

(** The failures that leave [last_failed_cmd.txt] behind. *)
Definition writes_cmd (cfg : config) (o : outcome) : Prop :=
  match o with
  | Raised (FFMPEG_CRASHED _) => True
  | Raised CMD_NOT_FOUND => True
  | Raised TIMEOUT => stream cfg = false
  | _ => False
  end.

(** What an outcome of [execute_safe] tells about the call. *)
Definition accounted (cfg : config) (env : environment)
    (o : outcome) (acts : list action) : Prop :=
  match o with
  | Returned cp => check cfg = true -> returncode cp = 0%Z
  | Raised (FFMPEG_CRASHED rc) =>
      check cfg = true /\ rc <> 0%Z /\ e_stop_after env = false
  | Raised TIMEOUT => has_timeout cfg = true
  | Raised CMD_NOT_FOUND =>
      if stream cfg then e_launch_fails env = true
      else e_run env = RunNotFound
  | Raised STOPPED => In (ReadStop true) acts
  | Running =>
      if stream cfg then True
      else has_timeout cfg = false /\ e_run env = RunTimeoutExpired
  end.

Section WithEnvironment.

Local Unset Implicit Arguments.

Variable cfg : config.
Variable env : environment.

(** The result and the side effects of a call, case by case. *)
Inductive run_shape : outcome -> list action -> Prop :=
| StoppedOnEntry :
    e_stop_before env = true ->
    run_shape (Raised STOPPED) [ReadStop true]
| RunTimedOut :
    e_stop_before env = false -> stream cfg = false ->
    e_run env = RunTimeoutExpired -> has_timeout cfg = true ->
    run_shape (Raised TIMEOUT) [ReadStop false; Spawn; WriteLastFailedCmd]
| RunStillGoing :
    e_stop_before env = false -> stream cfg = false ->
    e_run env = RunTimeoutExpired -> has_timeout cfg = false ->
    run_shape Running [ReadStop false; Spawn]
| NotLaunched :
    e_stop_before env = false ->
    (if stream cfg then e_launch_fails env = true
     else e_run env = RunNotFound) ->
    run_shape (Raised CMD_NOT_FOUND)
      [ReadStop false; Spawn; WriteLastFailedCmd]
| StoppedInLoop pre :
    e_stop_before env = false -> stream cfg = true ->
    forallb calm pre = true ->
    run_shape (Raised STOPPED)
      (ReadStop false :: Spawn :: pre ++ ReadStop true :: stop_process env)
| TimedOutInLoop pre :
    e_stop_before env = false -> stream cfg = true ->
    has_timeout cfg = true -> forallb calm pre = true ->
    run_shape (Raised TIMEOUT)
      (ReadStop false :: Spawn :: pre ++ ReadStop false :: timeout_process env)
| StillInLoop pre :
    e_stop_before env = false -> stream cfg = true ->
    forallb calm pre = true ->
    run_shape Running (ReadStop false :: Spawn :: pre)
| StoppedAfterExit pre :
    e_stop_before env = false -> e_stop_after env = true ->
    forallb calm pre = true ->
    run_shape (Raised STOPPED)
      (ReadStop false :: Spawn :: pre ++ [ReadStop true])
| Crashed pre rc :
    e_stop_before env = false -> e_stop_after env = false ->
    check cfg = true -> rc <> 0%Z ->
    forallb calm pre = true ->
    run_shape (Raised (FFMPEG_CRASHED rc))
      (ReadStop false :: Spawn :: pre ++ [ReadStop false; WriteLastFailedCmd])
| Completed pre cp :
    e_stop_before env = false -> e_stop_after env = false ->
    (check cfg = true -> returncode cp = 0%Z) ->
    forallb calm pre = true ->
    run_shape (Returned cp)
      (ReadStop false :: Spawn :: pre ++ [ReadStop false]).

End WithEnvironment.

(** A streaming run with a log function that reads two diagnostic lines
    and sees the process exit with code 0. *)
Definition env_two_lines : environment :=
  {| e_stop_before := false; e_launch_fails := false;
     e_polls :=
       [ {| p_stopped := false; p_elapsed := false;
            p_line := Some (lit "frame=1"); p_exit := None |};
         {| p_stopped := false; p_elapsed := false;
            p_line := None; p_exit := None |};
         {| p_stopped := false; p_elapsed := false;
            p_line := Some (lit "frame=2"); p_exit := Some 0%Z |};
         {| p_stopped := false; p_elapsed := false;
            p_line := None; p_exit := Some 0%Z |} ];
     e_terminate_raises := false; e_wait_exits := true;
     e_stop_after := false;
     e_run := RunCompleted {| returncode := 0; stderr := [] |} |}.

Definition cfg_logging : config :=
  {| has_timeout := true; stream := true; check := true;
     has_log_func := true |}.

(** A streaming run that exceeds its time limit on the second pass, with
    a process that ignores [terminate]. *)
Definition env_times_out : environment :=
  {| e_stop_before := false; e_launch_fails := false;
     e_polls :=
       [ {| p_stopped := false; p_elapsed := false;
            p_line := Some (lit "frame=1"); p_exit := None |};
         {| p_stopped := false; p_elapsed := true;
            p_line := None; p_exit := None |} ];
     e_terminate_raises := false; e_wait_exits := false;
     e_stop_after := false;
     e_run := RunTimeoutExpired |}.

(** A run whose process exits with code 1. *)
Definition env_exit_one : environment :=
  {| e_stop_before := false; e_launch_fails := false;
     e_polls :=
       [ {| p_stopped := false; p_elapsed := false;
            p_line := None; p_exit := Some 1%Z |} ];
     e_terminate_raises := false; e_wait_exits := true;
     e_stop_after := false;
     e_run := RunCompleted {| returncode := 1; stderr := [] |} |}.

(** *** The search path handed to the child process *)

Definition SEMICOLON : codepoint := 0x3B%N.

(** [s.split(sep)] for a separator of one character: one more piece than
    there are separators, empty pieces kept. *)
Fixpoint split (sep : codepoint) (s : pystr) : list pystr :=
  match s with
  | [] => [[]]
  | c :: s' =>
      if N.eqb c sep then [] :: split sep s'
      else match split sep s' with
           | piece :: pieces => (c :: piece) :: pieces
           | [] => [[c]]
           end
  end.

(** [sep.join(pieces)] *)
Fixpoint join (sep : codepoint) (pieces : list pystr) : pystr :=
  match pieces with
  | [] => []
  | [piece] => piece
  | piece :: rest => piece ++ sep :: join sep rest
  end.

Fixpoint starts_with (prefix s : pystr) : bool :=
  match prefix, s with
  | [], _ => true
  | a :: prefix', b :: s' => N.eqb a b && starts_with prefix' s'
  | _ :: _, [] => false
  end.

(** [needle in s] *)
Fixpoint contains (needle s : pystr) : bool :=
  starts_with needle s
  || match s with
     | [] => false
     | _ :: s' => contains needle s'
     end.

Section WithRuntime.

Variable str_lower : pystr -> pystr.

(** ["torch" not in p.lower() and "cuda" not in p.lower()] *)
Definition keeps (p : pystr) : bool :=
  negb (contains (lit "torch") (str_lower p))
  && negb (contains (lit "cuda") (str_lower p)).

(** Lines 124-127 and 173-176: the value written back to
    [clean_env["PATH"]]. *)
Definition clean_path (path : pystr) : pystr :=
  join SEMICOLON (filter keeps (split SEMICOLON path)).

End WithRuntime.

(** *** The diagnostic message of a crash *)

Definition TRUNCATED : pystr :=
  [0x0A%N] ++ lit "...[TRUNCATED]..." ++ [0x0A%N].

(** def clip(s, max_len=8000), local to [_raise_ffmpeg_crash]; [None]
    stands for the argument [None]. *)
Definition clip (s : option pystr) (max_len : nat) : pystr :=
  match s with
  | None => []
  | Some s =>
      if length s <=? max_len then s else firstn max_len s ++ TRUNCATED
  end.

End KernelNotions.


(** ** [process_task.py]: the two loops, apart from their callbacks' section *)

(** [_cutting_loop] and [_image_flow_loop] once more, with every callback
    written out at its call; the statements about counts, order and
    commands are made on these.  They are the functions of [Orchestrator]
    ([OrchestratorMore.loops_agree]).  [if video_src:] and
    [if not picked:] test a string for emptiness, and the code then uses
    the whole string: the name after [as] stands for the whole string. *)
Module Loops.

Import PyStr Aligner Orchestrator.

Section WithEnvironment.

Variable ffmpeg_runner : history -> list pystr -> option exn.
Variable stop_check : history -> bool.
Variable gc_func : bool.
Variable os_makedirs : history -> pystr -> option exn.
Variable find_video_by_vid_any_ext :
  history -> pystr -> Z -> result (option pystr).
Variable ffprobe_has_video_stream : history -> pystr -> bool.
Variable make_image_clip : history -> clip_args -> option exn.
Variable str_float : float -> pystr.
Variable path_join : pystr -> pystr -> pystr.
Variable path_dirname : pystr -> pystr.

Local Open Scope orch_scope.

Section CuttingLoop.

Variables (total : nat) (audio_path video_source_dir out_aud out_vid : pystr)
          (enc_name enc_preset : pystr) (ffmpeg_threads : list pystr).

(** The [for idx, (vid, s_time, e_time, text) in enumerate(matches, 1)]
    loop of [_cutting_loop], lines 597-673. *)
Fixpoint cutting_for (idx : nat) (matches : list matched) (processed : nat)
  : M nat :=
  match matches with
  | [] => ret processed
  | (vid, s_time, e_time, text) :: rest =>
      stopped <- do_stop_check stop_check ;;
      if stopped : bool then
        do_log LogStopped ;;; ret processed
      else
        (if (idx mod 20 =? 0) && gc_func then do_gc else ret tt) ;;;
        let duration := (e_time - s_time)%float in
        let a_out := out_file path_join out_aud vid ".mp3" in
        do_makedirs os_makedirs (path_dirname a_out) ;;;
        audio_ok <- try_except
                      (call_runner ffmpeg_runner
                         (audio_cmd str_float audio_path s_time e_time a_out)
                       ;;; ret true)
                      (fun audio_err =>
                         do_log (LogAudioFailed vid audio_err) ;;; ret false) ;;
        if negb audio_ok then cutting_for (S idx) rest processed
        else
          video_src <- do_find_video find_video_by_vid_any_ext
                         video_source_dir vid ;;
          match video_src with
          | Some ((_ :: _) as src) =>
              let v_out := out_file path_join out_vid vid ".mp4" in
              cut_video ffmpeg_runner
                (video_cmd_copy str_float ffmpeg_threads src duration
                                enc_name enc_preset v_out) ;;;
              do_log (LogClip idx total vid AudioVideo duration
                              (text_display text)) ;;;
              cutting_for (S idx) rest (S processed)
          | _ =>
              do_log (LogClip idx total vid AudioOnly duration
                              (text_display text)) ;;;
              cutting_for (S idx) rest (S processed)
          end
  end.

End CuttingLoop.

(** def _cutting_loop(matches, audio_path, video_source_dir, out_aud,
      out_vid, enc_name, enc_preset, ffmpeg_threads, ffmpeg_runner,
      log_func, stop_check, gc_func=None) *)
Definition _cutting_loop (matches : list matched)
    (audio_path video_source_dir out_aud out_vid enc_name enc_preset : pystr)
    (ffmpeg_threads : list pystr) : M nat :=
  cutting_for (length matches) audio_path video_source_dir out_aud out_vid
              enc_name enc_preset ffmpeg_threads 1 matches 0.

Section ImageFlowLoop.

Variables (total : nat) (audio_path out_aud out_vid : pystr)
          (files : list pystr) (canvas_w canvas_h : Z)
          (enc_name enc_preset effect_type : pystr).

(** The [for] loop of [_image_flow_loop], lines 714-777. *)
Fixpoint image_for (idx : nat) (matches : list matched)
    (cursor processed : nat) : M nat :=
  match matches with
  | [] => ret processed
  | (vid, s_time, e_time, text) :: rest =>
      stopped <- do_stop_check stop_check ;;
      if stopped : bool then
        do_log LogStopped ;;; ret processed
      else
        (if (idx mod 20 =? 0) && gc_func then do_gc else ret tt) ;;;
        let duration := max_tenth (e_time - s_time) in
        let a_out := out_file path_join out_aud vid ".mp3" in
        audio_ok <- try_except
                      (call_runner ffmpeg_runner
                         (audio_cmd str_float audio_path s_time e_time a_out)
                       ;;; ret true)
                      (fun audio_err =>
                         do_log (LogAudioFailed vid audio_err) ;;; ret false) ;;
        if negb audio_ok then image_for (S idx) rest cursor processed
        else
          pc <- pick_visual ffprobe_has_video_stream files
                  (length files) cursor ;;
          match pc with
          | (Some ((_ :: _) as picked), cursor') =>
              let v_out := out_file path_join out_vid vid ".mp4" in
              render_image make_image_clip canvas_w canvas_h
                enc_name enc_preset effect_type picked v_out duration ;;;
              do_log (LogClip idx total vid AudioImage duration
                              (text_display text)) ;;;
              image_for (S idx) rest cursor' (S processed)
          | (_, cursor') =>
              do_log (LogNoVisual vid) ;;;
              image_for (S idx) rest cursor' processed
          end
  end.

End ImageFlowLoop.

(** def _image_flow_loop(matches, audio_path, out_aud, out_vid, files,
      start_idx, canvas_w, canvas_h, enc_name, enc_preset, effect_type,
      ffmpeg_runner, log_func, stop_check, gc_func=None) *)
Definition _image_flow_loop (matches : list matched)
    (audio_path out_aud out_vid : pystr) (files : list pystr)
    (start_idx : nat) (canvas_w canvas_h : Z)
    (enc_name enc_preset effect_type : pystr) : M nat :=
  image_for (length matches) audio_path out_aud out_vid files
            canvas_w canvas_h enc_name enc_preset effect_type
            1 matches start_idx 0.

End WithEnvironment.

End Loops.

(** ** Further notions about the clip synthesis loops *)

Module OrchestratorNotions.

Import PyStr Aligner Orchestrator.

Definition count (f : event -> bool) (n : list event) : nat :=
  length (filter f n).

(** The log line of a segment that was cut. *)
Definition is_clip (e : event) : bool :=
  match e with Log (LogClip _ _ _ _ _ _) => true | _ => false end.

(** The log line of a segment that was given up: the audio cut failed, or
    no visual file could be read. *)
Definition is_skip (e : event) : bool :=
  match e with
  | Log (LogAudioFailed _ _) | Log (LogNoVisual _) => true
  | _ => false
  end.

Definition is_stop (e : event) : bool :=
  match e with StopCheck true => true | _ => false end.

Definition clips : list event -> nat := count is_clip.
Definition skips : list event -> nat := count is_skip.
Definition stops : list event -> nat := count is_stop.

(** Events that settle no segment and see no stop request. *)
Definition still (n : list event) : Prop :=
  clips n = 0 /\ skips n = 0 /\ stops n = 0.

Definition Still {A : Type} (r : result A) (n : list event) : Prop := still n.

(** The count a loop returns, against what it logged: every segment is
    logged at most once, as cut or as given up; the count returned is the
    count on entry and the segments cut; and a loop that returns without
    having seen a stop request has settled all [len] segments. *)
Definition tallied (len processed : nat) (r : result nat) (n : list event)
  : Prop :=
  clips n + skips n <= len
  /\ forall k, r = Ok k ->
               k = processed + clips n
               /\ (stops n = 0 -> clips n + skips n = len).

(** The probes of the files from position [cursor] on, in round-robin
    order, with the given answers. *)
Fixpoint probe_events (files : list pystr) (cursor : nat) (rs : list bool)
  : list event :=
  match rs with
  | [] => []
  | b :: rs' =>
      Probe (nth (cursor mod length files) files []) b
      :: probe_events files (S cursor) rs'
  end.

(** What the search for a readable file does: [misses] unreadable files
    are probed, then either a readable one is found or, after [left]
    probes, the search gives up; the cursor has moved past every file
    probed. *)
Definition picks (files : list pystr) (left cursor : nat)
    (r : result (option pystr * nat)) (n : list event) : Prop :=
  exists (misses : nat) (hit : bool),
    n = probe_events files cursor
          (repeat false misses ++ (if hit then [true] else []))
    /\ r = Ok (if hit
               then Some (nth ((cursor + misses) mod length files) files [])
               else None,
               cursor + misses + (if hit then 1 else 0))
    /\ (if hit then misses < left else misses = left).

(** The segments logged as cut: position, total and id. *)
Definition clip_entry (e : event) : list (nat * nat * Z) :=
  match e with
  | Log (LogClip idx total vid _ _ _) => [(idx, total, vid)]
  | _ => []
  end.

Definition clip_log (n : list event) : list (nat * nat * Z) :=
  flat_map clip_entry n.

(** [enumerate(matches, idx)] with the total, as the log shows it. *)
Fixpoint numbered (idx total : nat) (matches : list matched)
  : list (nat * nat * Z) :=
  match matches with
  | [] => []
  | (vid, _, _, _) :: rest => (idx, total, vid) :: numbered (S idx) total rest
  end.

(** The commands handed to the transcoder. *)
Definition runner_entry (e : event) : list (list pystr) :=
  match e with
  | RunnerCall argv _ => [argv]
  | _ => []
  end.

Definition commands (n : list event) : list (list pystr) :=
  flat_map runner_entry n.

(** The commands of one segment when nothing fails: the audio cut and,
    when [lookup] knows a video for the segment's id, the video cut with
    the audio stream copied. *)
Definition segment_commands (str_float : float -> pystr)
    (path_join : pystr -> pystr -> pystr) (lookup : Z -> option pystr)
    (audio_path out_aud out_vid enc_name enc_preset : pystr)
    (ffmpeg_threads : list pystr) (m : matched) : list (list pystr) :=
  let '(vid, s_time, e_time, _) := m in
  audio_cmd str_float audio_path s_time e_time
    (out_file path_join out_aud vid ".mp3")
  :: match lookup vid with
     | Some ((_ :: _) as src) =>
         [video_cmd_copy str_float ffmpeg_threads src
            (e_time - s_time)%float enc_name enc_preset
            (out_file path_join out_vid vid ".mp4")]
     | _ => []
     end.

(** The images handed to [_make_image_clip]. *)
Definition image_entry (e : event) : list pystr :=
  match e with
  | MakeImageClip a _ => [c_image a]
  | _ => []
  end.

Definition images (n : list event) : list pystr :=
  flat_map image_entry n.

(** A computation ends normally, with the value [a], and the entries
    [f] reads off its events are [l]. *)
Definition returns {A X : Type} (f : event -> list X) (a : A) (l : list X)
    (r : result A) (n : list event) : Prop :=
  r = Ok a /\ flat_map f n = l.

(** The same with a value that depends on the environment. *)
Definition succeeds {A X : Type} (f : event -> list X) (l : list X)
    (r : result A) (n : list event) : Prop :=
  (exists a, r = Ok a) /\ flat_map f n = l.

(** [count] files taken in turn from position [start] on, starting over
    at the end of the list. *)
Definition round_robin (files : list pystr) (start count : nat)
  : list pystr :=
  map (fun i => nth ((start + i) mod length files) files []) (seq 0 count).

End OrchestratorNotions.


(** ** [engines/sk1_cutting.py], [engines/sk3_image_flow.py]: the transcoder
       callback *)

Module Runner.

Import PyStr Kernel KernelNotions Orchestrator.

(** How a call of [run_ffmpeg_fast] ends; [Pending]: the observed prefix
    of the environment ended while the process was still being waited
    for. *)
Inductive ran :=
| Done
| Failed (e : exn)
| Pending.

Definition NEWLINE : codepoint := 0x0A%N.
Definition HYPHEN : codepoint := 0x2D%N.

(** The part of [str.upper] that concerns ASCII. *)
Definition ascii_upper_char (c : codepoint) : codepoint :=
  if ((97 <=? c) && (c <=? 122))%N then (c - 32)%N else c.
Definition ascii_upper (s : pystr) : pystr := map ascii_upper_char s.

(** [execute_safe(cmd_list, cwd=app_root)]: every other argument has its
    default. *)
Definition cfg_default : config :=
  {| has_timeout := false; stream := true; check := true;
     has_log_func := false |}.

(** def _cmd_to_str(cmd), for a list of strings *)
Definition _cmd_to_str (cmd : list pystr) : pystr := join Aligner.SPACE cmd.

Section WithRuntime.

Variable str_lower : pystr -> pystr.
Variable str_upper : pystr -> pystr.
Variable path_dirname : pystr -> pystr.
(** [_get_ffmpeg_path()] *)
Variable ffmpeg_path : pystr.
(** [os.makedirs(output_dir, exist_ok=True)] *)
Variable os_makedirs : pystr -> option exn.
(** The path [_write_last_failed_cmd] returns. *)
Variable last_failed : pystr.

(** [str(e)] for the [RuntimeError]s of [execute_safe] in streaming mode
    ([safe_kernel.py], lines 62-67, 85-92, 219 and 230); [stderr] is the
    diagnostic output of the process, its standard output is discarded. *)
Definition message (args : list pystr) (stderr : pystr) (f : failure)
  : pystr :=
  match f with
  | STOPPED => lit "STOPPED"
  | TIMEOUT => lit "TIMEOUT"
  | CMD_NOT_FOUND =>
      lit "CMD NOT FOUND:" ++ [NEWLINE]
      ++ lit "CMD: " ++ hd [] args ++ [NEWLINE]
      ++ lit "=> Ki" ++ [0x1EC3%N] ++ lit "m tra ffmpeg/ffprobe trong PATH."
      ++ [NEWLINE]
      ++ lit "(Updated to: " ++ last_failed ++ lit ")"
  | FFMPEG_CRASHED rc =>
      lit "FFMPEG CRASHED:" ++ [NEWLINE]
      ++ lit "CMD: " ++ KernelNotions.clip (Some (_cmd_to_str args)) 4000
      ++ [NEWLINE; NEWLINE]
      ++ lit "STDERR:" ++ [NEWLINE] ++ KernelNotions.clip (Some stderr) 8000
      ++ [NEWLINE; NEWLINE]
      ++ lit "STDOUT:" ++ [NEWLINE] ++ KernelNotions.clip (Some []) 8000
      ++ [NEWLINE; NEWLINE]
      ++ lit "returncode=" ++ str_int rc ++ [NEWLINE]
      ++ lit "(Updated to: " ++ last_failed ++ lit ")"
  end.

(** Lines 480-483:
      if cmd_list and cmd_list[0].lower() in ("ffmpeg", "ffmpeg.exe"):
          cmd_list = list(cmd_list) ; cmd_list[0] = _get_ffmpeg_path() *)
Definition resolve (cmd_list : list pystr) : list pystr :=
  match cmd_list with
  | c :: rest =>
      if str_eqb (str_lower c) (lit "ffmpeg")
         || str_eqb (str_lower c) (lit "ffmpeg.exe")
      then ffmpeg_path :: rest
      else cmd_list
  | [] => []
  end.

(** Lines 485-490: the directory of the output file is created. *)
Definition prepare_output (cmd_list : list pystr) : option exn :=
  if 1 <? length cmd_list then
    let output_path := last cmd_list [] in
    if negb (starts_with [HYPHEN] output_path) then
      match path_dirname output_path with
      | [] => None
      | output_dir => os_makedirs output_dir
      end
    else None
  else None.

(** ["STOPPED" in str(e).upper()] *)
Definition says_stopped (msg : pystr) : bool :=
  contains (lit "STOPPED") (str_upper msg).

(** def run_ffmpeg_fast(cmd_list); [stop_flag] is the module's
    [STOP_FLAG], [env] what [execute_safe] meets and [stderr] what the
    process wrote before a crash. *)
Definition run_ffmpeg_fast (stop_flag : bool) (env : environment)
    (stderr : pystr) (cmd_list : list pystr) : ran :=
  if stop_flag then Failed StopRequested
  else
    let cmd_list := resolve cmd_list in
    match prepare_output cmd_list with
    | Some e => Failed e
    | None =>
        match fst (execute_safe cfg_default env) with
        | Returned _ => Done
        | Raised f =>
            let msg := message cmd_list stderr f in
            if says_stopped msg then Failed StopRequested
            else Failed (RuntimeError msg)
        | Running => Pending
        end
    end.

End WithRuntime.

(** A runtime for the examples: output files without a directory part. *)
Definition dirname_none (p : pystr) : pystr := [].
Definition makedirs_fine (p : pystr) : option exn := None.

End Runner.


(** ** [process_task.py]: the video of a segment *)

Module Finder.

Import PyStr Parser KernelNotions Orchestrator.

(** [a < b] on strings: lexicographic in the code points, a proper prefix
    first. *)
Fixpoint str_ltb (a b : pystr) : bool :=
  match a, b with
  | _, [] => false
  | [], _ :: _ => true
  | x :: a', y :: b' =>
      if (x <? y)%N then true
      else if (y <? x)%N then false
      else str_ltb a' b'
  end.

(** [list.sort()] on strings. *)
Fixpoint insert (x : pystr) (l : list pystr) : list pystr :=
  match l with
  | [] => [x]
  | y :: l' => if str_ltb x y then x :: l else y :: insert x l'
  end.

Definition sort (l : list pystr) : list pystr := fold_right insert [] l.

(** The head of a list is below all its elements. *)
Definition head_least (l : list pystr) : Prop :=
  match l with
  | [] => True
  | p :: _ => forall q, In q l -> str_ltb q p = false
  end.

Section WithRuntime.

Variable is_space : codepoint -> bool.
Variable str_lower : pystr -> pystr.
Variable os_path_isdir : pystr -> bool.
(** [os.listdir]; it can raise. *)
Variable os_listdir : pystr -> result (list pystr).
Variable os_path_isfile : pystr -> bool.
Variable path_join : pystr -> pystr -> pystr.
(** [os.path.splitext(name)[0]] *)
Variable splitext_stem : pystr -> pystr.
(** [int(s)]; [None] stands for ValueError. *)
Variable py_int : pystr -> option Z.

(** Lines 115-122: the number a file name stands for, "1" or "V1". *)
Definition stem_number (name : pystr) : option Z :=
  let s := strip is_space (splitext_stem name) in
  let s := if starts_with [LOWER_V] (str_lower s) then tl s else s in
  py_int s.

(** Lines 112-124: what one entry of the directory adds to [candidates]. *)
Definition candidate (video_dir : pystr) (target : Z) (name : pystr)
  : list pystr :=
  let path := path_join video_dir name in
  if os_path_isfile path then
    match stem_number name with
    | Some n => if Z.eqb n target then [path] else []
    | None => []
    end
  else [].

(** def _find_video_by_vid_any_ext(video_dir, vid) *)
Definition _find_video_by_vid_any_ext (video_dir : pystr) (vid : Z)
  : result (option pystr) :=
  match video_dir with
  | [] => Ok None
  | _ :: _ =>
      if negb (os_path_isdir video_dir) then Ok None
      else
        match os_listdir video_dir with
        | Raise e => Raise e
        | Ok names =>
            Ok (hd_error (sort (flat_map (candidate video_dir vid) names)))
        end
  end.

End WithRuntime.

(** A runtime for the examples: the stem ends at the first dot, numbers
    are runs of ASCII digits, every entry is a file. *)
Fixpoint stem_to_dot (name : pystr) : pystr :=
  match name with
  | [] => []
  | c :: rest => if N.eqb c 0x2E%N then [] else c :: stem_to_dot rest
  end.

Definition int_of_ascii (s : pystr) : option Z :=
  match s with
  | [] => None
  | _ :: _ =>
      if forallb (fun c => match ascii_digit c with
                           | Some _ => true
                           | None => false
                           end) s
      then Some (int_of_digits ascii_digit s)
      else None
  end.

Definition sample_listing (dir : pystr) : result (list pystr) :=
  Ok (map lit [ "notes.txt"; "v1.mp4"; "2.mp4"; "V1.mov"; " 1 .avi" ]%string).

End Finder.


(** ** [process_task.py]: the words of a transcription *)

Module Extractor.

Import PyStr Aligner.

(** An element of [result_segments]: a dict, or anything else.  [words]
    is [None] when the key is missing or its value is not a list; the
    elements of the list are dicts, as the alignment produces them.
    [text], [seg_start] and [seg_end] are the values under "text", "start"
    and "end", [None] for a missing key. *)
Inductive segment :=
| Segment (words : option (list word_dict)) (text : option pystr)
          (seg_start seg_end : option float)
| NotSegment.

(** ["start" in w] *)
Definition has_start (w : word_dict) : bool :=
  match w_start w with Some _ => true | None => false end.

(** Lines 287-298, the body of the loop: the words of the segment that
    carry a start time when the segment has words, otherwise the segment
    itself as one word; a segment without "start" or "end", or one that
    is no dict, raises inside the [try] and is passed over. *)
Definition extract_segment (seg : segment) : list word_entry :=
  match seg with
  | Segment (Some (w :: ws)) _ _ _ => map Dict (filter has_start (w :: ws))
  | Segment _ text (Some s) (Some e) =>
      [Dict {| w_word := Some (or_empty text);
               w_start := Some s; w_end := Some e |}]
  | _ => []
  end.

(** def _extract_words_with_fallback(result_segments, log_func=None);
    [None] stands for a falsy [result_segments]. *)
Definition _extract_words_with_fallback
    (result_segments : option (list segment)) : list word_entry :=
  flat_map extract_segment
    (match result_segments with Some segs => segs | None => [] end).

(** Lines 299-300: the warning is logged. *)
Definition warns_nothing_extracted (has_log_func : bool)
    (result_segments : option (list segment)) : bool :=
  has_log_func
  && match _extract_words_with_fallback result_segments with
     | [] => true
     | _ :: _ => false
     end.

(** An entry is a dict with a start time. *)
Definition timed (w : word_entry) : Prop :=
  exists d s, w = Dict d /\ w_start d = Some s.

End Extractor.


(** ** Notions about cancellation *)

Module CancellationSpec.

Import PyStr Kernel Aligner Orchestrator OrchestratorSpec.

(** *** When the stop flag is set, against what [execute_safe] does *)

(** The flag is set once and stays set for the rest of the call.
    [SetWhileWaiting k]: during pass [k] of the streaming loop (counted
    from 0), after that pass has read the flag, while its [readline] waits
    for the running process. *)
Inductive stop_instant :=
| SetBeforeCall
| SetWhileWaiting (k : nat)
| SetAfterExit
| NeverSet.

(** What the reads of the flag return for a given instant: the read on
    entry, the read at the head of pass [j], the read after the loop. *)
Definition flag_on_entry (i : stop_instant) : bool :=
  match i with SetBeforeCall => true | _ => false end.

Definition flag_at_pass (i : stop_instant) (j : nat) : bool :=
  match i with
  | SetBeforeCall => true
  | SetWhileWaiting k => k <? j
  | SetAfterExit | NeverSet => false
  end.

Definition flag_after_loop (i : stop_instant) : bool :=
  match i with NeverSet => false | _ => true end.

(** The environment's reads of the flag are those of a flag set at
    instant [i]. *)
Definition observed (i : stop_instant) (env : environment) : Prop :=
  e_stop_before env = flag_on_entry i
  /\ (forall j p, nth_error (e_polls env) j = Some p ->
                  p_stopped p = flag_at_pass i j)
  /\ e_stop_after env = flag_after_loop i.

(** The process runs through passes [0 .. k-1] and is seen to have exited,
    with code [rc], in pass [k], whose [readline] returns only with the end
    of the output; no time limit strikes. *)
Definition exits_in_pass (cfg : config) (env : environment) (k : nat)
    (rc : Z) : Prop :=
  exists before p rest,
    e_polls env = before ++ p :: rest
    /\ length before = k
    /\ Forall (fun q => has_timeout cfg && p_elapsed q = false
                        /\ (p_line q = None -> p_exit q = None)) before
    /\ has_timeout cfg && p_elapsed p = false
    /\ p_line p = None
    /\ p_exit p = Some rc.

(** A transcoder that writes nothing (every command carries
    [-loglevel error]) and exits with code 0; the stop flag is set while
    the only pass of the loop waits in [readline]. *)
Definition env_silent_child : environment :=
  {| e_stop_before := false; e_launch_fails := false;
     e_polls :=
       [ {| p_stopped := false; p_elapsed := false;
            p_line := None; p_exit := Some 0%Z |} ];
     e_terminate_raises := false; e_wait_exits := true;
     e_stop_after := true;
     e_run := RunCompleted {| returncode := 0; stderr := [] |} |}.

(** *** The loops and their stop check *)

(** Every stop check recorded in [n], the events added to the history [h],
    shows what [stop_check] returned on the history of that moment. *)
Fixpoint real_checks (stop_check : history -> bool) (h : history)
    (n : list event) : Prop :=
  match n with
  | [] => True
  | e :: n' =>
      match e with
      | StopCheck b => b = stop_check h
      | _ => True
      end
      /\ real_checks stop_check (h ++ [e]) n'
  end.

Definition reads_flag (stop_check : history -> bool) {A : Type} (m : M A)
  : Prop :=
  forall h, exists n, snd (m h) = h ++ n /\ real_checks stop_check h n.

(** A loop obeys the stop flag: from every history, each of its stop
    checks reads the flag as it is then; a check that finds it set is
    followed by the "STOPPED" log line only and the loop returns; and
    while segments remain the first thing the loop does is to read the
    flag, and if it is set the loop returns the count reached without
    starting the segment. *)
Definition obeys_stop (stop_check : history -> bool) (matches : list matched)
    (processed : nat) (loop : M nat) : Prop :=
  forall h, exists n,
    snd (loop h) = h ++ n
    /\ real_checks stop_check h n
    /\ stops_cleanly (fst (loop h)) n
    /\ (matches <> [] ->
        exists tl,
          n = StopCheck (stop_check h) :: tl
          /\ (stop_check h = true ->
              tl = [Log LogStopped] /\ fst (loop h) = Ok processed)).

End CancellationSpec.


(** * Properties *)

(** ** Text normalizer *)

Module NormalizerFacts.

Lemma re_sub_class_idempotent (s : pystr) :
  re_sub_class (re_sub_class s) = re_sub_class s.
Proof.
  unfold re_sub_class.
  induction s as [|c s IH]; simpl; [reflexivity|].
  destruct (in_class c) eqn:E; simpl; [exact IH|].
  rewrite E; simpl. now rewrite IH.
Qed.

Lemma re_sub_class_keeps (P : codepoint -> Prop) (s : pystr) :
  Forall P s -> Forall P (re_sub_class s).
Proof.
  unfold re_sub_class. intros H. apply Forall_forall. intros c Hc.
  apply filter_In in Hc. destruct Hc as [Hc _].
  rewrite Forall_forall in H. now apply H.
Qed.

Lemma re_sub_class_free (s : pystr) (c : codepoint) :
  In c (re_sub_class s) -> in_class c = false.
Proof.
  unfold re_sub_class. intros H. apply filter_In in H.
  destruct H as [_ H]. now apply negb_true_iff in H.
Qed.

Section Lowercase.

(** What is used of [str.lower]: its results consist of characters that
    lowercasing leaves alone, and a string of such characters is returned
    as it is. *)
Variable str_lower : pystr -> pystr.
Variable stable : codepoint -> bool.
Hypothesis lower_gives_stable :
  forall s, Forall (fun c => stable c = true) (str_lower s).
Hypothesis lower_fixes_stable :
  forall s, Forall (fun c => stable c = true) s -> str_lower s = s.

(** C8. The text normalizer is idempotent: normalizing a normalized string
    returns it unchanged, [_clean_text(_clean_text(s)) == _clean_text(s)]. *)
Theorem clean_text_idempotent (s : option pystr) :
  _clean_text str_lower (Some (_clean_text str_lower s))
  = _clean_text str_lower s.
Proof.
  unfold _clean_text. cbn [or_empty].
  rewrite lower_fixes_stable.
  - apply re_sub_class_idempotent.
  - apply re_sub_class_keeps, lower_gives_stable.
Qed.

End Lowercase.

Lemma ascii_lower_gives_stable (s : pystr) :
  Forall (fun c => ascii_lower_stable c = true) (ascii_lower s).
Proof.
  unfold ascii_lower. apply Forall_forall. intros c Hc.
  apply in_map_iff in Hc. destruct Hc as [x [<- _]].
  unfold ascii_lower_stable, ascii_lower_char.
  destruct ((65 <=? x) && (x <=? 90))%N eqn:E.
  - apply andb_true_iff in E. destruct E as [E1 E2].
    apply N.leb_le in E1. apply negb_true_iff, andb_false_iff. right.
    apply N.leb_gt. lia.
  - now rewrite E.
Qed.

Lemma ascii_lower_fixes_stable (s : pystr) :
  Forall (fun c => ascii_lower_stable c = true) s -> ascii_lower s = s.
Proof.
  unfold ascii_lower. induction 1 as [|c s Hc _ IH]; simpl; [reflexivity|].
  rewrite IH. f_equal. unfold ascii_lower_char.
  unfold ascii_lower_stable in Hc. apply negb_true_iff in Hc. now rewrite Hc.
Qed.

Lemma clean_text_idempotent_witness :
  _clean_text ascii_lower
    (Some (_clean_text ascii_lower (Some (lit "Hello, World... (OK)!"))))
  = lit "hello world ok".
Proof.
  rewrite (clean_text_idempotent ascii_lower ascii_lower_stable
             ascii_lower_gives_stable ascii_lower_fixes_stable).
  reflexivity.
Defined.

End NormalizerFacts.

(** ** Script parser *)

Module ParserFacts.

Import Engine.

Section WithRuntime.

Variable is_space : codepoint -> bool.
Variable digit_value : codepoint -> option N.

(** Without an opening bracket there is nothing to find. *)
Lemma findall_no_bracket (s : pystr) (skip : nat) :
  ~ In LBRACKET s -> findall is_space digit_value skip s = [].
Proof.
  revert skip. induction s as [|c s IH]; intros skip Hn; [reflexivity|].
  assert (Hs : ~ In LBRACKET s) by (intros H; apply Hn; now right).
  cbn [findall]. destruct skip as [|k]; [|now apply IH].
  assert (Hm : match_here is_space digit_value (c :: s) = None).
  { unfold match_here. destruct s as [|v [|d s']]; try reflexivity.
    destruct (N.eqb_spec c LBRACKET) as [->|_]; [|reflexivity].
    exfalso. apply Hn. now left. }
  rewrite Hm. now apply IH.
Qed.

Lemma parse_no_bracket (content : pystr) :
  ~ In LBRACKET content ->
  _parse_script is_space digit_value (Some content) = [].
Proof.
  intros H. unfold _parse_script. cbn [or_empty].
  now rewrite findall_no_bracket.
Qed.

(** C5, as the code has it.  When the parser finds no item, [_parse_script]
    itself returns the empty list; it is the script-loading step of the
    image-flow engine that then fails, and it fails with
    RuntimeError("Script parse empty. ..."), for empty and for non-empty
    input alike. *)
Theorem empty_parse_is_runtime_error (content : pystr) :
  _parse_script is_space digit_value (Some content) = [] ->
  load_script is_space digit_value content
  = Failed (RuntimeError SCRIPT_PARSE_EMPTY).
Proof.
  intros H. unfold load_script. now rewrite H.
Qed.

Lemma nonempty_parse_is_loaded (content : pystr) :
  _parse_script is_space digit_value (Some content) <> [] ->
  load_script is_space digit_value content
  = Loaded (_parse_script is_space digit_value (Some content)).
Proof.
  intros H. unfold load_script.
  destruct (_parse_script is_space digit_value (Some content)); congruence.
Qed.

End WithRuntime.

Lemma empty_parse_is_runtime_error_witness :
  load_script ascii_space ascii_digit (lit "[V1][V2]")
  = Failed (RuntimeError SCRIPT_PARSE_EMPTY).
Proof.
  apply (empty_parse_is_runtime_error ascii_space ascii_digit (lit "[V1][V2]")).
  reflexivity.
Defined.

(** C5 as stated fails: on the non-empty text "hello" the parser returns an
    empty list rather than raising, and the error the engine then raises is
    not a ScriptFormatError. *)
Lemma parse_hello_counterexample :
  lit "hello" <> []
  /\ _parse_script ascii_space ascii_digit (Some (lit "hello")) = []
  /\ load_script ascii_space ascii_digit (lit "hello")
     = Failed (RuntimeError SCRIPT_PARSE_EMPTY)
  /\ load_script ascii_space ascii_digit (lit "hello")
     <> Failed ScriptFormatError.
Proof.
  repeat split; try reflexivity; discriminate.
Qed.

(** The examples of the specification. *)
Example parse_two_items :
  _parse_script ascii_space ascii_digit
    (Some (lit "[V1] hello world [V2] goodbye now"))
  = [(1%Z, lit "hello world"); (2%Z, lit "goodbye now")].
Proof. reflexivity. Qed.

Example parse_blank_item :
  _parse_script ascii_space ascii_digit (Some (lit "[V3]   "))
  = [(3%Z, [])].
Proof. reflexivity. Qed.

End ParserFacts.

(** ** Sequence aligner *)

Module AlignerFacts.

Import Aligner AlignerSpec.

Section WithRuntime.

Variable str_lower : pystr -> pystr.
Variable ratio : pystr -> pystr -> float.
Variable all_words : list word_entry.

Abbreviation accumulate := (accumulate str_lower ratio all_words).
Abbreviation process_item := (process_item str_lower ratio all_words).
Abbreviation for_items := (for_items str_lower ratio all_words).
Abbreviation run := (run str_lower ratio all_words).
Abbreviation clean := (fun s => _clean_text str_lower (Some s)).
Abbreviation idx_sound := (AlignerSpec.idx_sound all_words).
Abbreviation ratio_call_ok := (AlignerSpec.ratio_call_ok str_lower).
Abbreviation run_event_ok := (AlignerSpec.run_event_ok str_lower).

(** Induction along the passes of the [while] loop: one case for each way
    a pass can end. *)
Lemma accumulate_passes (target : pystr)
    (P : loop_state -> loop_state -> list event -> Prop) :
  (forall st, P st st []) ->
  (forall st w,
      nth_error all_words (word_ptr st) = Some w ->
      MAX_COLLECTED_LEN < length (collected (take_word w st)) ->
      P st (take_word w st) [IterStart st]) ->
  (forall st w r tr,
      nth_error all_words (word_ptr st) = Some w ->
      length (collected (take_word w st)) <= MAX_COLLECTED_LEN ->
      2 * length (collected (take_word w st)) < length target ->
      P (take_word w st) r tr ->
      P st r (IterStart st :: tr)) ->
  (forall st w,
      nth_error all_words (word_ptr st) = Some w ->
      length (collected (take_word w st)) <= MAX_COLLECTED_LEN ->
      length target <= 2 * length (collected (take_word w st)) ->
      satisfied str_lower ratio target (take_word w st) = true ->
      P st (take_word w st)
        [IterStart st;
         RatioCall (collected (take_word w st))
                   (clean (collected (take_word w st))) target]) ->
  (forall st w r tr,
      nth_error all_words (word_ptr st) = Some w ->
      length (collected (take_word w st)) <= MAX_COLLECTED_LEN ->
      length target <= 2 * length (collected (take_word w st)) ->
      satisfied str_lower ratio target (take_word w st) = false ->
      P (take_word w st) r tr ->
      P st r (IterStart st ::
              RatioCall (collected (take_word w st))
                        (clean (collected (take_word w st))) target :: tr)) ->
  forall fuel st r tr, accumulate target fuel st = (r, tr) -> P st r tr.
Proof.
  intros Hexit Hcap Hshort Hsat Hmore.
  induction fuel as [|fuel IH]; intros st r tr H; cbn [Aligner.accumulate] in H.
  - inversion H; subst. apply Hexit.
  - destruct (nth_error all_words (word_ptr st)) as [w|] eqn:Hw.
    2:{ inversion H; subst. apply Hexit. }
    destruct (MAX_COLLECTED_LEN <? length (collected (take_word w st))) eqn:C.
    { apply Nat.ltb_lt in C. inversion H; subst. now apply Hcap. }
    apply Nat.ltb_ge in C.
    destruct (2 * length (collected (take_word w st)) <? length target) eqn:S.
    { apply Nat.ltb_lt in S.
      destruct (accumulate target fuel (take_word w st)) as [r' tr'] eqn:E.
      inversion H; subst. eapply Hshort; eauto. }
    apply Nat.ltb_ge in S.
    destruct (satisfied str_lower ratio target (take_word w st)) eqn:T.
    { inversion H; subst. now apply Hsat. }
    destruct (accumulate target fuel (take_word w st)) as [r' tr'] eqn:E.
    inversion H; subst. eapply Hmore; eauto.
Qed.

(** *** The cursor and the ghost positions *)

Lemma take_word_ptr (w : word_entry) (st : loop_state) :
  word_ptr (take_word w st) = S (word_ptr st).
Proof. now destruct w. Qed.

Lemma accumulate_ptr_le (target : pystr) (fuel : nat) (st r : loop_state)
    (tr : list event) :
  accumulate target fuel st = (r, tr) -> word_ptr st <= word_ptr r.
Proof.
  revert fuel st r tr.
  apply (accumulate_passes target (fun st r _ => word_ptr st <= word_ptr r));
    intros; rewrite ?take_word_ptr in *; lia.
Qed.

Lemma take_word_idx_within (lo : nat) (w : word_entry) (st : loop_state) :
  lo <= word_ptr st -> idx_within lo st -> idx_within lo (take_word w st).
Proof.
  intros Hlo H i Hi. destruct w as [d|]; cbn in *.
  - apply in_app_or in Hi. destruct Hi as [Hi|[<-|[]]].
    + specialize (H i Hi). lia.
    + lia.
  - specialize (H i Hi). lia.
Qed.

Lemma accumulate_idx_within (target : pystr) (lo fuel : nat)
    (st r : loop_state) (tr : list event) :
  accumulate target fuel st = (r, tr) ->
  lo <= word_ptr st -> idx_within lo st -> idx_within lo r.
Proof.
  revert fuel st r tr.
  apply (accumulate_passes target
           (fun st r _ => lo <= word_ptr st -> idx_within lo st ->
                          idx_within lo r)).
  - auto.
  - auto using take_word_idx_within.
  - intros st w r tr _ _ _ IH Hlo H.
    apply IH; [rewrite take_word_ptr; lia|auto using take_word_idx_within].
  - auto using take_word_idx_within.
  - intros st w r tr _ _ _ _ IH Hlo H.
    apply IH; [rewrite take_word_ptr; lia|auto using take_word_idx_within].
Qed.

Lemma take_word_idx_sound (w : word_entry) (st : loop_state) :
  nth_error all_words (word_ptr st) = Some w ->
  idx_sound st -> idx_sound (take_word w st).
Proof.
  unfold idx_sound. intros Hw H. destruct w as [d|]; cbn; [|exact H].
  apply Forall2_app; [exact H|]. constructor; [exact Hw|constructor].
Qed.

Lemma accumulate_idx_sound (target : pystr) (fuel : nat)
    (st r : loop_state) (tr : list event) :
  accumulate target fuel st = (r, tr) -> idx_sound st -> idx_sound r.
Proof.
  revert fuel st r tr.
  apply (accumulate_passes target (fun st r _ => idx_sound st -> idx_sound r));
    intros; auto using take_word_idx_sound.
Qed.

(** The loop stops because a pass breaks or because the words are used up,
    never because [fuel] ran out: the variant [total_words - word_ptr] is
    enough, and more changes nothing. *)
Lemma accumulate_fuel (target : pystr) (fuel : nat) (st : loop_state) :
  total_words all_words - word_ptr st <= fuel ->
  accumulate target fuel st
  = accumulate target (total_words all_words - word_ptr st) st.
Proof.
  unfold total_words. revert st.
  induction fuel as [|fuel IH]; intros st Hf.
  - now replace (length all_words - word_ptr st) with 0 by lia.
  - cbn [Aligner.accumulate].
    destruct (nth_error all_words (word_ptr st)) as [w|] eqn:Hw.
    + assert (Hlt : word_ptr st < length all_words)
        by (apply nth_error_Some; congruence).
      replace (length all_words - word_ptr st)
        with (S (length all_words - S (word_ptr st))) by lia.
      cbn [Aligner.accumulate]. rewrite Hw.
      rewrite IH by (rewrite take_word_ptr; lia).
      now rewrite take_word_ptr.
    + apply nth_error_None in Hw.
      now replace (length all_words - word_ptr st) with 0 by lia.
Qed.

(** *** Word positions of the emitted segments *)

Lemma ordered_advance (used : list (list nat)) (p p' : nat) :
  p <= p' -> ordered used p -> ordered used p'.
Proof.
  intros Hp [H1 H2]. split; [|exact H2].
  intros k idxs a Hk Ha. specialize (H1 k idxs a Hk Ha). lia.
Qed.

Lemma ordered_snoc (used : list (list nat)) (idxs : list nat) (p p' : nat) :
  ordered used p -> p <= p' ->
  (forall a, In a idxs -> p <= a < p') ->
  ordered (used ++ [idxs]) p'.
Proof.
  intros [H1 H2] Hp Hnew.
  assert (Hlast : forall k x, nth_error (used ++ [idxs]) k = Some x ->
                   length used <= k -> k = length used /\ x = idxs).
  { intros k x Hk Hge. rewrite nth_error_app2 in Hk by exact Hge.
    destruct (k - length used) as [|m] eqn:E; cbn in Hk.
    - inversion Hk. split; [lia|reflexivity].
    - destruct m; discriminate. }
  split.
  - intros k x a Hk Ha.
    destruct (Nat.lt_ge_cases k (length used)) as [Hlt|Hge].
    + rewrite nth_error_app1 in Hk by exact Hlt.
      specialize (H1 k x a Hk Ha). lia.
    + destruct (Hlast k x Hk Hge) as [_ ->]. apply Hnew, Ha.
  - intros i j si sj a b Hij Hi Hj Ha Hb.
    destruct (Nat.lt_ge_cases j (length used)) as [Hlt|Hge].
    + rewrite nth_error_app1 in Hi by lia.
      rewrite nth_error_app1 in Hj by exact Hlt.
      exact (H2 i j si sj a b Hij Hi Hj Ha Hb).
    + destruct (Hlast j sj Hj Hge) as [-> ->].
      rewrite nth_error_app1 in Hi by exact Hij.
      specialize (H1 i si a Hi Ha). specialize (Hnew b Hb). lia.
Qed.

Lemma process_item_ordered (item_idx : nat) (item : script_item)
    (st : aligner_state) :
  state_ordered st -> state_ordered (process_item item_idx item st).
Proof.
  unfold state_ordered. intros H. destruct item as [vid text].
  unfold Aligner.process_item.
  destruct (_clean_text str_lower (Some text)) as [|c target]; [exact H|].
  destruct (accumulate (c :: target) (total_words all_words - a_word_ptr st)
              (fresh_loop (a_word_ptr st))) as [ls evs] eqn:E.
  pose proof (accumulate_ptr_le _ _ _ E) as Hle. cbn in Hle.
  assert (Hin : idx_within (a_word_ptr st) ls).
  { eapply accumulate_idx_within; [exact E|cbn; lia|].
    intros i []. }
  destruct (current_words ls) as [|first_word ws].
  { cbn. eapply ordered_advance; eauto. }
  destruct first_word as [f|];
    [destruct (last (Dict f :: ws) (Dict f)) as [l|]|]; cbn.
  - apply ordered_snoc with (p := a_word_ptr st); auto.
  - eapply ordered_advance; eauto.
  - eapply ordered_advance; eauto.
Qed.

Lemma for_items_ordered (items : list script_item) (item_idx : nat)
    (st : aligner_state) :
  state_ordered st -> state_ordered (for_items item_idx items st).
Proof.
  revert item_idx st.
  induction items as [|item items IH]; intros item_idx st H; cbn; [exact H|].
  apply IH, process_item_ordered, H.
Qed.

(** C2. The word cursor is monotonic across emitted segments: every word
    position collected for a later segment (in particular for segment i+1)
    is greater than every position collected for an earlier one (segment
    i), so it is never less, no word is used twice and there is no
    look-back. *)
Theorem cursor_monotonic (script_items : list script_item) (i j : nat)
    (si sj : list nat) (a b : nat) :
  i < j ->
  nth_error (a_used (run script_items)) i = Some si ->
  nth_error (a_used (run script_items)) j = Some sj ->
  In a si -> In b sj ->
  a < b.
Proof.
  assert (H : state_ordered (run script_items)).
  { apply for_items_ordered. split; cbn.
    - intros [|k] idxs x Hk; discriminate Hk.
    - intros [|k] j' x y u v _ Hk; discriminate Hk. }
  destruct H as [_ H]. intros Hij Hi Hj Ha Hb.
  exact (H i j si sj a b Hij Hi Hj Ha Hb).
Qed.

(** *** The safety cap and the similarity calls *)

Lemma accumulate_iter_within_cap (target : pystr) (fuel : nat)
    (st r : loop_state) (tr : list event) :
  accumulate target fuel st = (r, tr) ->
  length (collected st) <= MAX_COLLECTED_LEN ->
  forall s, In (IterStart s) tr -> length (collected s) <= MAX_COLLECTED_LEN.
Proof.
  revert fuel st r tr.
  apply (accumulate_passes target
           (fun st r tr =>
              length (collected st) <= MAX_COLLECTED_LEN ->
              forall s, In (IterStart s) tr ->
                        length (collected s) <= MAX_COLLECTED_LEN)).
  - intros st _ s [].
  - intros st w _ _ Hst s [E|[]]. now inversion E; subst.
  - intros st w r tr _ Hc _ IH Hst s [E|Hs].
    + now inversion E; subst.
    + now apply IH.
  - intros st w _ _ _ _ Hst s [E|[E|[]]]; [|discriminate E].
    now inversion E; subst.
  - intros st w r tr _ Hc _ _ IH Hst s [E|[E|Hs]]; [|discriminate E|].
    + now inversion E; subst.
    + now apply IH.
Qed.


Lemma accumulate_ratio_calls (target : pystr) (fuel : nat)
    (st r : loop_state) (tr : list event) :
  accumulate target fuel st = (r, tr) -> Forall (ratio_call_ok target) tr.
Proof.
  revert fuel st r tr.
  apply (accumulate_passes target
           (fun _ _ tr => Forall (ratio_call_ok target) tr)).
  - constructor.
  - intros. constructor; [exact I|constructor].
  - intros st w r tr _ _ _ IH. constructor; [exact I|exact IH].
  - intros st w _ Hc Hh _.
    constructor; [exact I|constructor; [cbn; auto|constructor]].
  - intros st w r tr _ Hc Hh _ IH.
    constructor; [exact I|constructor; [cbn; auto|exact IH]].
Qed.

(** *** The events of a whole run *)

(** The events recorded by [process_item] are those of its loop. *)
Lemma process_item_events (item_idx : nat) (vid : Z) (text : pystr)
    (st : aligner_state) :
  exists evs,
    a_events (process_item item_idx (vid, text) st) = a_events st ++ evs
    /\ (evs = []
        \/ _clean_text str_lower (Some text) <> []
           /\ exists ls,
               accumulate (_clean_text str_lower (Some text))
                 (total_words all_words - a_word_ptr st)
                 (fresh_loop (a_word_ptr st)) = (ls, evs)).
Proof.
  unfold Aligner.process_item.
  destruct (_clean_text str_lower (Some text)) as [|c target] eqn:T.
  { exists []. cbn. rewrite app_nil_r. auto. }
  destruct (accumulate (c :: target) (total_words all_words - a_word_ptr st)
              (fresh_loop (a_word_ptr st))) as [ls evs] eqn:E.
  exists evs. split.
  - destruct (current_words ls) as [|first_word ws]; [reflexivity|].
    destruct first_word as [f|];
      [destruct (last (Dict f :: ws) (Dict f)) as [l|]|]; reflexivity.
  - right. split; [discriminate|]. now exists ls.
Qed.

Lemma for_items_events_ok (all_items items : list script_item)
    (item_idx : nat) (st : aligner_state) :
  incl items all_items ->
  Forall (run_event_ok all_items) (a_events st) ->
  Forall (run_event_ok all_items) (a_events (for_items item_idx items st)).
Proof.
  revert item_idx st.
  induction items as [|[vid text] items IH]; intros item_idx st Hin H;
    cbn [Aligner.for_items]; [exact H|].
  apply IH; [intros x Hx; apply Hin; now right|].
  destruct (process_item_events item_idx vid text st)
    as (evs & -> & [->|(_ & ls & E)]).
  { now rewrite app_nil_r. }
  apply Forall_app. split; [exact H|].
  apply Forall_forall. intros [s|raw a b] He; cbn.
  - eapply accumulate_iter_within_cap; eauto. cbn. lia.
  - pose proof (accumulate_ratio_calls _ _ _ E) as Hr.
    rewrite Forall_forall in Hr. destruct (Hr _ He) as (-> & -> & ? & ?).
    repeat split; auto. exists vid, text. split; [|reflexivity].
    apply Hin. now left.
Qed.

Lemma run_events_ok (script_items : list script_item) :
  Forall (run_event_ok script_items) (a_events (run script_items)).
Proof.
  apply for_items_events_ok; [apply incl_refl|constructor].
Qed.


(** C3, as the code has it.  A similarity ratio is computed only on the
    normalization of a raw (not yet normalized) buffer whose length has
    reached at least half the length of the normalized target, and which is
    within the safety cap; the normalized buffer itself may be shorter. *)
Theorem ratio_only_after_raw_half (script_items : list script_item)
    (raw a b : pystr) :
  In (RatioCall raw a b) (a_events (run script_items)) ->
  a = _clean_text str_lower (Some raw)
  /\ (exists vid text, In (vid, text) script_items
                       /\ b = _clean_text str_lower (Some text))
  /\ length b <= 2 * length raw
  /\ length raw <= MAX_COLLECTED_LEN.
Proof.
  intros H. pose proof (run_events_ok script_items) as Hok.
  rewrite Forall_forall in Hok. exact (Hok _ H).
Qed.

(** *** The recorded positions are those of the words used *)

Lemma process_item_built_from (item_idx : nat) (item : script_item)
    (st : aligner_state) :
  Forall2 (built_from all_words) (a_matches st) (a_used st) ->
  Forall2 (built_from all_words)
          (a_matches (process_item item_idx item st))
          (a_used (process_item item_idx item st)).
Proof.
  intros H. destruct item as [vid text]. unfold Aligner.process_item.
  destruct (_clean_text str_lower (Some text)) as [|c target]; [exact H|].
  destruct (accumulate (c :: target) (total_words all_words - a_word_ptr st)
              (fresh_loop (a_word_ptr st))) as [ls evs] eqn:E.
  assert (Hs : idx_sound ls).
  { eapply accumulate_idx_sound; [exact E|constructor]. }
  unfold AlignerSpec.idx_sound in Hs.
  destruct (current_words ls) as [|first_word ws] eqn:W; [exact H|].
  destruct first_word as [f|]; [|exact H].
  destruct (last (Dict f :: ws) (Dict f)) as [l|] eqn:L; [|exact H].
  cbn [a_matches a_used]. apply Forall2_app; [exact H|].
  constructor; [|constructor].
  exists (Dict f :: ws), f, l, vid, text. repeat split; auto.
Qed.

Lemma run_built_from (script_items : list script_item) :
  Forall2 (built_from all_words)
          (a_matches (run script_items)) (a_used (run script_items)).
Proof.
  unfold Aligner.run.
  assert (H : Forall2 (built_from all_words)
                (a_matches initial) (a_used initial)) by constructor.
  revert H. generalize initial, 0.
  induction script_items as [|item items IH]; intros st n H; cbn; [exact H|].
  apply IH, process_item_built_from, H.
Qed.

(** *** The result does not depend on the item counter *)

Lemma process_item_core (i j : nat) (item : script_item)
    (st st' : aligner_state) :
  core st = core st' ->
  core (process_item i item st) = core (process_item j item st').
Proof.
  unfold core. intros H. injection H as Hp Hm Hu He.
  destruct item as [vid text]. unfold Aligner.process_item.
  destruct (_clean_text str_lower (Some text)) as [|c target]; cbn.
  { congruence. }
  rewrite <- Hp.
  destruct (accumulate (c :: target) (total_words all_words - a_word_ptr st)
              (fresh_loop (a_word_ptr st))) as [ls evs].
  destruct (current_words ls) as [|first_word ws]; [cbn; congruence|].
  destruct first_word as [f|];
    [destruct (last (Dict f :: ws) (Dict f)) as [l|]|]; cbn; congruence.
Qed.

Lemma for_items_core (items : list script_item) :
  forall i j st st',
    core st = core st' ->
    core (for_items i items st) = core (for_items j items st').
Proof.
  induction items as [|item items IH]; intros i j st st' H; cbn; [exact H|].
  apply IH, process_item_core, H.
Qed.

Lemma for_items_app (pre post : list script_item) :
  forall i st,
    for_items i (pre ++ post) st
    = for_items (i + length pre) post (for_items i pre st).
Proof.
  induction pre as [|item pre IH]; intros i st; cbn.
  - now rewrite Nat.add_0_r.
  - rewrite IH. f_equal. lia.
Qed.

(** *** Items with an empty target *)

Lemma process_item_empty_target (item_idx : nat) (vid : Z) (text : pystr)
    (st : aligner_state) :
  _clean_text str_lower (Some text) = [] ->
  process_item item_idx (vid, text) st
  = {| a_word_ptr := a_word_ptr st;
       a_matches := a_matches st;
       a_used := a_used st;
       a_log := a_log st ++ [SkipEmptyTarget vid];
       a_events := a_events st;
       a_gc_runs := a_gc_runs st |}.
Proof.
  intros H. unfold Aligner.process_item. now rewrite H.
Qed.

(** Over a whole run: an item with an empty target can be left out of the
    script without changing the matches, the cursor, the word positions or
    the loop events. *)
Lemma empty_item_is_transparent (pre post : list script_item) (vid : Z)
    (text : pystr) :
  _clean_text str_lower (Some text) = [] ->
  core (run (pre ++ (vid, text) :: post)) = core (run (pre ++ post)).
Proof.
  intros H. unfold Aligner.run. rewrite !for_items_app. cbn [Aligner.for_items].
  rewrite (process_item_empty_target _ vid text _ H).
  apply for_items_core. reflexivity.
Qed.

(** C9. A script item whose normalized text is empty emits no segment and
    leaves the word cursor where it was; the matches emitted so far, their
    word positions, the loop events and the collector count are untouched
    as well (the word list is never written), only the skip is logged.
    Over a whole run the item could as well be absent: matches, cursor,
    word positions and loop events come out the same. *)
Theorem empty_target_is_skipped (item_idx : nat) (vid : Z) (text : pystr)
    (st : aligner_state) (pre post : list script_item) :
  _clean_text str_lower (Some text) = [] ->
  process_item item_idx (vid, text) st
  = {| a_word_ptr := a_word_ptr st;
       a_matches := a_matches st;
       a_used := a_used st;
       a_log := a_log st ++ [SkipEmptyTarget vid];
       a_events := a_events st;
       a_gc_runs := a_gc_runs st |}
  /\ core (run (pre ++ (vid, text) :: post)) = core (run (pre ++ post)).
Proof.
  intros H. split.
  - apply process_item_empty_target, H.
  - apply empty_item_is_transparent, H.
Qed.

End WithRuntime.

Import Samples.

(** The example of the specification: two script lines, four words. *)
Example hello_world_matches :
  _match_words_to_script ascii_lower ratio_lead_space hello_words hello_script
  = [ (1%Z, 0.0%float, 1.0%float, lit "hello world");
      (2%Z, 1.2%float, 2.0%float, lit "goodbye now") ].
Proof. vm_compute. reflexivity. Qed.

Example hello_world_positions :
  a_used (run ascii_lower ratio_lead_space hello_words hello_script)
  = [[0; 1]; [2; 3]].
Proof. vm_compute. reflexivity. Qed.

Lemma cursor_monotonic_witness :
  nth_error (a_used (run ascii_lower ratio_lead_space hello_words hello_script)) 0
  = Some [0; 1]
  /\ nth_error (a_used (run ascii_lower ratio_lead_space hello_words hello_script)) 1
     = Some [2; 3]
  /\ 1 < 2.
Proof.
  split; [reflexivity|]. split; [reflexivity|].
  apply (@cursor_monotonic ascii_lower ratio_lead_space hello_words
           hello_script 0 1 [0; 1] [2; 3] 1 2).
  - lia.
  - reflexivity.
  - reflexivity.
  - simpl. auto.
  - simpl. auto.
Defined.


Lemma ratio_only_after_raw_half_witness :
  lit " hello world" = _clean_text ascii_lower (Some (lit " hello world"))
  /\ (exists vid text, In (vid, text) hello_script
                       /\ lit "hello world" = _clean_text ascii_lower (Some text))
  /\ length (lit "hello world") <= 2 * length (lit " hello world")
  /\ length (lit " hello world") <= MAX_COLLECTED_LEN.
Proof.
  apply (@ratio_only_after_raw_half ascii_lower ratio_lead_space hello_words
           hello_script).
  vm_compute. auto.
Defined.

(** C3 as stated fails: for the target "abcdefgh" and the single word
    "....", the raw buffer " ...." has five characters, at least half of
    eight, so the similarity is computed, on the normalized buffer " " of
    one character, shorter than half the target. *)
Lemma ratio_on_short_normalized_buffer :
  In (RatioCall (lit " ....") (lit " ") (lit "abcdefgh"))
     (a_events (run ascii_lower ratio_zero [word "...." 0 1]
                    [(1%Z, lit "abcdefgh")]))
  /\ _clean_text ascii_lower (Some (lit " ....")) = lit " "
  /\ _clean_text ascii_lower (Some (lit "abcdefgh")) = lit "abcdefgh"
  /\ 2 * length (lit " ") < length (lit "abcdefgh").
Proof.
  split; [vm_compute; auto|].
  split; [reflexivity|]. split; [reflexivity|].
  apply Nat.ltb_lt. reflexivity.
Qed.

Lemma empty_target_is_skipped_witness :
  process_item ascii_lower ratio_lead_space hello_words 1 (3%Z, lit "...!")
               initial
  = {| a_word_ptr := 0; a_matches := []; a_used := [];
       a_log := [SkipEmptyTarget 3]; a_events := []; a_gc_runs := 0 |}
  /\ core (run ascii_lower ratio_lead_space hello_words
               ([(1%Z, lit "hello world")] ++ (3%Z, lit "...!")
                  :: [(2%Z, lit "goodbye now")]))
     = core (run ascii_lower ratio_lead_space hello_words
                 ([(1%Z, lit "hello world")] ++ [(2%Z, lit "goodbye now")])).
Proof.
  apply (@empty_target_is_skipped ascii_lower ratio_lead_space hello_words 1 3
           (lit "...!") initial
           [(1%Z, lit "hello world")] [(2%Z, lit "goodbye now")]).
  reflexivity.
Defined.

End AlignerFacts.

(** ** Process execution kernel *)

Module KernelFacts.

Unset Implicit Arguments.

Import Kernel Samples.

(** [H : pre ++ x :: post = a :: rest]: either [pre] is empty and [x] is
    [a], or [pre] starts with [a]. *)
(** An equation [pre ++ x :: post = a :: rest] in the context: either
    [pre] is empty and [x] is [a], or [pre] starts with [a]. *)
Ltac peel :=
  match goal with
  | H : _ :: _ = ?pre ++ _ :: _ |- _ => is_var pre; symmetry in H
  | H : [] = ?pre ++ _ :: _ |- _ => destruct pre; discriminate H
  | H : ?pre ++ _ :: _ = [] |- _ => destruct pre; discriminate H
  | H : ?pre ++ _ :: _ = _ :: _ |- _ =>
      is_var pre; destruct pre as [|? ?]; cbn [app] in H;
      injection H; clear H; intros; subst; try congruence
  end.

Ltac split_eq Hn :=
  match goal with
  | H : _ ++ _ :: _ = _ |- _ => rename H into Hn
  | H : _ = _ ++ _ :: _ |- _ => rename H into Hn
  end.

Section WithEnvironment.

Variable cfg : config.
Variable env : environment.

Lemma stop_process_no_read (pre post : list action) (b : bool) :
  pre ++ ReadStop b :: post <> stop_process env.
Proof.
  unfold stop_process. intros H.
  destruct (e_wait_exits env); repeat peel.
Qed.

Lemma timeout_process_no_read (pre post : list action) (b : bool) :
  pre ++ ReadStop b :: post <> timeout_process env.
Proof.
  unfold timeout_process. intros H.
  destruct (e_terminate_raises env), (e_wait_exits env); repeat peel.
Qed.

(** Inside the streaming loop, a stop flag read as set is followed by the
    shutdown of the process and by nothing else, and the loop raises
    STOPPED; nothing before it has touched the process or seen it exit. *)
Lemma stream_loop_stop (ps : list poll) :
  forall (acc : list pystr) r acts pre post,
    stream_loop cfg env ps acc = (r, acts) ->
    acts = pre ++ ReadStop true :: post ->
    post = stop_process env /\ r = inl STOPPED
    /\ (forall rc, ~ In (Exited rc) pre).
Proof.
  induction ps as [|p ps IH]; intros acc r acts pre post E H;
    cbn [stream_loop] in E.
  - inversion E; subst. peel.
  - destruct (p_stopped p).
    { inversion E; subst. peel; peel.
      - repeat split; auto.
      - exfalso. eapply stop_process_no_read. eassumption. }
    destruct (has_timeout cfg && p_elapsed p).
    { inversion E; subst. peel; peel.
      exfalso. eapply timeout_process_no_read. eassumption. }
    destruct (p_line p) as [line|].
    { destruct (stream_loop cfg env ps (acc ++ [line])) as [r' acts'] eqn:E'.
      inversion E; subst. clear E.
      destruct (has_log_func cfg); cbn [app] in *.
      - do 3 peel. destruct (IH _ _ _ _ _ E' eq_refl) as (? & ? & Hn).
        repeat split; auto.
        intros rc [Hx|[Hx|Hx]]; try discriminate. exact (Hn rc Hx).
      - do 2 peel. destruct (IH _ _ _ _ _ E' eq_refl) as (? & ? & Hn).
        repeat split; auto.
        intros rc [Hx|Hx]; try discriminate. exact (Hn rc Hx). }
    destruct (p_exit p) as [rc|].
    { inversion E; subst. repeat peel. }
    destruct (stream_loop cfg env ps acc) as [r' acts'] eqn:E'.
    inversion E; subst. clear E. do 3 peel.
    destruct (IH _ _ _ _ _ E' eq_refl) as (? & ? & Hn).
    repeat split; auto.
    intros rc [Hx|[Hx|Hx]]; try discriminate. exact (Hn rc Hx).
Qed.

Lemma stream_loop_exit (ps : list poll) :
  forall (acc : list pystr) cp acts,
    stream_loop cfg env ps acc = (inr (Some cp), acts) ->
    exists acts', acts = acts' ++ [Exited (returncode cp)]
                  /\ ~ In (ReadStop true) acts'.
Proof.
  induction ps as [|p ps IH]; intros acc cp acts E; cbn [stream_loop] in E.
  - discriminate.
  - destruct (p_stopped p); [discriminate|].
    destruct (has_timeout cfg && p_elapsed p); [discriminate|].
    destruct (p_line p) as [line|].
    { destruct (stream_loop cfg env ps (acc ++ [line])) as [r' acts'] eqn:E'.
      inversion E; subst. destruct (IH _ _ _ E') as (a & -> & Hn).
      exists (ReadStop false ::
              (if has_log_func cfg then [LogLine line] else []) ++ a).
      split; [cbn [app]; now rewrite <- app_assoc|].
      intros [Hx|Hx]; [discriminate|]. apply in_app_or in Hx.
      destruct Hx as [Hx|Hx]; [|auto].
      destruct (has_log_func cfg); [destruct Hx as [Hx|[]]; discriminate|].
      destruct Hx. }
    destruct (p_exit p) as [rc|].
    { inversion E; subst. exists [ReadStop false]. split; [reflexivity|].
      intros [Hx|[]]. discriminate. }
    destruct (stream_loop cfg env ps acc) as [r' acts'] eqn:E'.
    inversion E; subst. destruct (IH _ _ _ E') as (a & -> & Hn).
    exists (ReadStop false :: Sleep :: a). split; [reflexivity|].
    intros [Hx|[Hx|Hx]]; try discriminate. auto.
Qed.

Lemma finish_stop (cp : completed) r acts :
  finish cfg env cp = (r, acts) ->
  In (ReadStop true) acts -> r = Raised STOPPED /\ e_stop_after env = true.
Proof.
  unfold finish. intros E H.
  destruct (e_stop_after env); [inversion E; auto|].
  destruct (check cfg && negb (returncode cp =? 0)%Z); inversion E; subst;
    cbn in H; intuition discriminate.
Qed.


Lemma in_split_read (acts : list action) :
  In (ReadStop true) acts ->
  exists pre post, acts = pre ++ ReadStop true :: post.
Proof. apply in_split. Qed.

(** Whenever any of its reads of the stop flag finds it set,
    [execute_safe] raises STOPPED. *)
Lemma read_stop_raises :
  In (ReadStop true) (snd (execute_safe cfg env)) ->
  fst (execute_safe cfg env) = Raised STOPPED.
Proof.
  unfold execute_safe.
  destruct (e_stop_before env); [reflexivity|].
  destruct (negb (stream cfg)).
  { destruct (e_run env) as [cp| |].
    - destruct (finish cfg env cp) as [r acts] eqn:F. cbn.
      intros [H|[H|[H|H]]]; try discriminate.
      now destruct (finish_stop _ _ _ F H).
    - destruct (has_timeout cfg); cbn; intuition discriminate.
    - cbn; intuition discriminate. }
  destruct (e_launch_fails env); [cbn; intuition discriminate|].
  destruct (stream_loop cfg env (e_polls env) []) as [[f|[cp|]] acts] eqn:L.
  - cbn. intros [H|[H|H]]; try discriminate.
    destruct (in_split_read _ H) as (pre & post & Hs).
    destruct (stream_loop_stop _ _ _ _ _ _ L Hs) as (_ & Hr & _). congruence.
  - destruct (finish cfg env cp) as [r acts'] eqn:F. cbn.
    intros [H|[H|H]]; try discriminate.
    apply in_app_or in H. destruct H as [H|H].
    + destruct (in_split_read _ H) as (pre & post & Hs).
      destruct (stream_loop_stop _ _ _ _ _ _ L Hs) as (_ & Hr & _). discriminate.
    + now destruct (finish_stop _ _ _ F H).
  - cbn. intros [H|[H|H]]; try discriminate.
    destruct (in_split_read _ H) as (pre & post & Hs).
    destruct (stream_loop_stop _ _ _ _ _ _ L Hs) as (_ & Hr & _). discriminate.
Qed.



(** The flag found set while the process runs: the process is shut down,
    [terminate], then the wait of two seconds, then [kill] when the wait
    ran out, and STOPPED is raised. *)
Lemma stop_mid_run (pre post : list action) :
  snd (execute_safe cfg env) = pre ++ ReadStop true :: post ->
  In Spawn pre ->
  (forall rc, ~ In (Exited rc) pre) ->
  post = Terminate :: Wait2 :: (if e_wait_exits env then [] else [Kill])
  /\ fst (execute_safe cfg env) = Raised STOPPED.
Proof.
  unfold execute_safe.
  destruct (e_stop_before env).
  { cbn. intros H Hs _. peel; peel; [destruct Hs|peel]. }
  destruct (negb (stream cfg)).
  { destruct (e_run env) as [cp| |].
    - destruct (finish cfg env cp) as [r acts] eqn:F. cbn.
      intros H _ Hx. do 4 peel. exfalso. apply (Hx (returncode cp)).
      cbn. auto.
    - destruct (has_timeout cfg); cbn; intros H Hs Hx; repeat peel.
    - cbn. intros H Hs Hx. repeat peel. }
  destruct (e_launch_fails env); [cbn; intros H Hs Hx; repeat peel|].
  destruct (stream_loop cfg env (e_polls env) []) as [[f|[cp|]] acts] eqn:L.
  - cbn. intros H _ _. do 3 peel.
    destruct (stream_loop_stop _ _ _ _ _ _ L eq_refl) as (-> & Hr & _).
    split; [reflexivity|congruence].
  - destruct (finish cfg env cp) as [r acts'] eqn:F. cbn.
    intros H _ Hx. do 3 peel. split_eq H.
    destruct (stream_loop_exit _ _ _ _ L) as (a & -> & Hn).
    rewrite <- app_assoc in H. cbn [app] in H.
    exfalso. apply app_eq_app in H.
    destruct H as [l [[H1 H2]|[H1 H2]]].
    + destruct l as [|x l]; cbn in H2.
      * injection H2 as H2 _. discriminate.
      * injection H2 as <- H2. apply (Hx (returncode cp)).
        rewrite H1. do 2 right. apply in_or_app. right. now left.
    + destruct l as [|x l]; cbn in H2.
      * rewrite app_nil_r in H1. subst. injection H2 as H2 _. discriminate.
      * injection H2 as <- H2. apply Hn. rewrite H1.
        apply in_or_app. right. now left.
  - cbn. intros H _ _. do 3 peel.
    destruct (stream_loop_stop _ _ _ _ _ _ L eq_refl) as (_ & Hr & _). discriminate.
Qed.

(** The flag set at some pass of the streaming loop is honoured at that
    pass: if the passes before it let the loop go round, the process is
    shut down there and STOPPED is raised. *)
Lemma stream_loop_stop_at_pass (before : list poll) (p : poll)
    (rest : list poll) :
  Forall (KernelSpec.passes_on cfg) before ->
  p_stopped p = true ->
  forall acc, exists acts,
    stream_loop cfg env (before ++ p :: rest) acc
    = (inl STOPPED, acts ++ ReadStop true :: stop_process env)
    /\ ~ In (ReadStop true) acts.
Proof.
  intros Hb Hp. induction Hb as [|q before (Hq1 & Hq2 & Hq3) _ IH];
    intros acc; cbn [app stream_loop].
  - rewrite Hp. exists []. split; [reflexivity|intros []].
  - rewrite Hq1, Hq2. destruct (p_line q) as [line|].
    + destruct (IH (acc ++ [line])) as (acts & -> & Hn).
      exists (ReadStop false ::
              (if has_log_func cfg then [LogLine line] else []) ++ acts).
      split; [cbn [app]; now rewrite <- app_assoc|].
      intros [Hx|Hx]; [discriminate|]. apply in_app_or in Hx.
      destruct Hx as [Hx|Hx]; [|auto].
      destruct (has_log_func cfg); [destruct Hx as [Hx|[]]; discriminate|].
      destruct Hx.
    + rewrite (Hq3 eq_refl). destruct (IH acc) as (acts & -> & Hn).
      exists (ReadStop false :: Sleep :: acts). split; [reflexivity|].
      intros [Hx|[Hx|Hx]]; try discriminate. auto.
Qed.

Lemma execute_safe_stop_at_pass (before : list poll) (p : poll)
    (rest : list poll) :
  stream cfg = true ->
  e_stop_before env = false ->
  e_launch_fails env = false ->
  e_polls env = before ++ p :: rest ->
  Forall (KernelSpec.passes_on cfg) before ->
  p_stopped p = true ->
  exists acts,
    execute_safe cfg env
    = (Raised STOPPED,
       ReadStop false :: Spawn :: acts ++ ReadStop true :: stop_process env)
    /\ ~ In (ReadStop true) acts.
Proof.
  intros Hs Hb Hl He Hq Hp. unfold execute_safe.
  rewrite Hb, Hs, Hl, He. cbn [negb].
  destruct (stream_loop_stop_at_pass before p rest Hq Hp []) as (acts & -> & Hn).
  now exists acts.
Qed.

End WithEnvironment.


End KernelFacts.

(** ** Clip synthesis orchestrator *)

Module OrchestratorFacts.

Unset Implicit Arguments.

Import Aligner Orchestrator OrchestratorSpec Samples.

(** *** Rebuilding the command for the audio re-encode *)

Lemma str_eqb_eq (a b : pystr) : str_eqb a b = true <-> a = b.
Proof.
  revert b. induction a as [|x a IH]; intros [|y b]; cbn;
    try (split; [discriminate|discriminate]); [tauto|].
  rewrite andb_true_iff, N.eqb_eq, IH. split.
  - now intros [-> ->].
  - intros E. now inversion E.
Qed.

Lemma list_index_split (x : pystr) (l : list pystr) (i : nat) :
  list_index x l = Some i ->
  exists pre post, l = pre ++ x :: post /\ length pre = i /\ ~ In x pre.
Proof.
  revert i. induction l as [|y l IH]; intros i H; cbn in H; [discriminate|].
  destruct (str_eqb y x) eqn:E.
  - apply str_eqb_eq in E. subst y. inversion H; subst.
    exists [], l. repeat split; auto.
  - destruct (list_index x l) as [k|]; [|discriminate].
    inversion H; subst. destruct (IH k eq_refl) as (pre & post & -> & <- & Hn).
    exists (y :: pre), post. repeat split; auto.
    intros [->|Hin]; [|auto].
    assert (str_eqb x x = true) by now apply str_eqb_eq. congruence.
Qed.

Lemma list_index_first (x : pystr) (pre post : list pystr) :
  ~ In x pre -> list_index x (pre ++ x :: post) = Some (length pre).
Proof.
  induction pre as [|y pre IH]; intros Hn; cbn.
  - assert (E : str_eqb x x = true) by now apply str_eqb_eq. now rewrite E.
  - destruct (str_eqb y x) eqn:E.
    + apply str_eqb_eq in E. subst. exfalso. apply Hn. now left.
    + rewrite IH; [reflexivity|]. intros H. apply Hn. now right.
Qed.

Lemma list_insert_at (x : pystr) (pre post : list pystr) :
  list_insert (length pre) x (pre ++ post) = pre ++ x :: post.
Proof.
  unfold list_insert. induction pre as [|y pre IH]; cbn; [reflexivity|].
  now rewrite IH.
Qed.

(** Whatever the command, the two insertions put "192k" in front of
    "-b:a": both go in front of the first "-shortest", the flag after its
    value. *)
Lemma rebuild_aac_shape (cmd cmd_aac : list pystr) :
  rebuild_aac cmd = Ok cmd_aac ->
  exists pre post,
    cmd_aac = pre ++ lit "192k" :: lit "-b:a" :: lit "-shortest" :: post
    /\ ~ In (lit "-shortest") pre.
Proof.
  unfold rebuild_aac. intros H.
  destruct (list_index (lit "-c:a") cmd) as [i|]; [|discriminate].
  destruct (list_set (i + 1) (lit "aac") cmd) as [cmd1|]; [|discriminate].
  destruct (list_index (lit "-shortest") cmd1) as [j|] eqn:J; [|discriminate].
  destruct (list_index_split _ _ _ J) as (pre & post & -> & <- & Hn).
  rewrite list_insert_at in H.
  assert (Hn' : ~ In (lit "-shortest") (pre ++ [lit "192k"])).
  { intros Hin. apply in_app_or in Hin. destruct Hin as [Hin|[Hin|[]]]; auto.
    discriminate Hin. }
  replace (pre ++ lit "192k" :: lit "-shortest" :: post)
    with ((pre ++ [lit "192k"]) ++ lit "-shortest" :: post) in H
    by now rewrite <- app_assoc.
  rewrite (list_index_first _ _ _ Hn'), list_insert_at in H.
  inversion H; subst. exists pre, post. split; [|exact Hn].
  now rewrite <- app_assoc.
Qed.

Lemma list_index_bound (x : pystr) (pre post : list pystr) :
  exists i, list_index x (pre ++ x :: post) = Some i /\ i <= length pre.
Proof.
  induction pre as [|y pre IH]; cbn.
  - assert (E : str_eqb x x = true) by now apply str_eqb_eq.
    rewrite E. now exists 0.
  - destruct (str_eqb y x); [exists 0; split; [reflexivity|lia]|].
    destruct IH as (i & -> & Hi). exists (S i). split; [reflexivity|lia].
Qed.

Lemma list_set_other (v : pystr) (l : list pystr) :
  forall i, i < length l ->
    exists l', list_set i v l = Some l'
               /\ forall k, k <> i -> nth_error l' k = nth_error l k.
Proof.
  induction l as [|y l IH]; intros i Hi; cbn in Hi; [lia|].
  destruct i as [|i]; cbn.
  - exists (v :: l). split; [reflexivity|]. intros [|k] Hk; [lia|reflexivity].
  - destruct (IH i ltac:(lia)) as (l' & -> & Hl').
    exists (y :: l'). split; [reflexivity|].
    intros [|k] Hk; cbn; [reflexivity|]. apply Hl'. lia.
Qed.

Lemma list_insert_keeps (x z : pystr) (i : nat) (l : list pystr) :
  In x l -> In x (list_insert i z l).
Proof.
  intros H. unfold list_insert.
  rewrite <- (firstn_skipn i l) in H. apply in_app_or in H.
  apply in_or_app. destruct H as [H|H]; [left; exact H|right; right; exact H].
Qed.

(** For every segment and every configuration the rebuild succeeds, and
    what it yields has that order. *)
Lemma rebuild_aac_video_cmd (str_float : float -> pystr)
    (ffmpeg_threads : list pystr) (video_src : pystr) (duration : float)
    (enc_name enc_preset v_out : pystr) :
  exists pre post,
    rebuild_aac (video_cmd_copy str_float ffmpeg_threads video_src duration
                                enc_name enc_preset v_out)
    = Ok (pre ++ lit "192k" :: lit "-b:a" :: lit "-shortest" :: post)
    /\ ~ In (lit "-shortest") pre.
Proof.
  set (cmd := video_cmd_copy str_float ffmpeg_threads video_src duration
                             enc_name enc_preset v_out).
  assert (Hc : exists A B,
             cmd = A ++ lit "-c:a" :: lit "copy" :: lit "-shortest" :: B).
  { unfold cmd, video_cmd_copy.
    exists ([lit "ffmpeg"; lit "-y"] ++ ffmpeg_threads ++
            [lit "-ss"; lit "0"; lit "-i"; video_src;
             lit "-t"; str_float duration;
             lit "-vf"; lit "scale=trunc(iw/2)*2:trunc(ih/2)*2,fps=30";
             lit "-map"; lit "0:v:0"; lit "-map"; lit "0:a?";
             lit "-c:v"; enc_name; lit "-preset"; enc_preset;
             lit "-pix_fmt"; lit "yuv420p"]),
           [lit "-map_metadata"; lit "-1"; lit "-loglevel"; lit "error"; v_out].
    rewrite <- !app_assoc. reflexivity. }
  destruct Hc as (A & B & Hc).
  assert (Hok : exists r, rebuild_aac cmd = Ok r).
  { unfold rebuild_aac. rewrite Hc.
    destruct (list_index_bound (lit "-c:a") A
                (lit "copy" :: lit "-shortest" :: B)) as (i & -> & Hi).
    destruct (list_set_other (lit "aac")
                (A ++ lit "-c:a" :: lit "copy" :: lit "-shortest" :: B) (i + 1))
      as (cmd1 & -> & Hsame).
    { rewrite length_app. cbn. lia. }
    assert (Hin : In (lit "-shortest") cmd1).
    { apply nth_error_In with (n := length A + 2).
      rewrite Hsame by lia.
      rewrite nth_error_app2 by lia.
      replace (length A + 2 - length A) with 2 by lia. reflexivity. }
    apply in_split in Hin. destruct Hin as (p1 & p2 & ->).
    destruct (list_index_bound (lit "-shortest") p1 p2) as (j & -> & _).
    match goal with
    | |- context [list_index ?x ?l] =>
        destruct (list_index x l) as [k|] eqn:K
    end.
    - eexists. reflexivity.
    - exfalso.
      destruct (in_split (lit "-shortest")
                  (list_insert j (lit "192k") (p1 ++ lit "-shortest" :: p2)))
        as (q1 & q2 & Hq).
      { apply list_insert_keeps, in_elt. }
      rewrite Hq in K.
      destruct (list_index_bound (lit "-shortest") q1 q2) as (k & Hk & _).
      congruence. }
  destruct Hok as (r & Hr). rewrite Hr.
  destruct (rebuild_aac_shape _ _ Hr) as (pre & post & -> & Hn).
  now exists pre, post.
Qed.

(** C7, on the code.  The command rebuilt after a failed stream copy does
    replace "copy" by "aac", but it carries the bitrate as
    [... "-c:a" "aac" "192k" "-b:a" "-shortest" ...]: the value comes first
    and "-b:a" is followed by "-shortest", not by "192k". *)
Theorem rebuild_aac_puts_value_before_flag :
  rebuild_aac
    (video_cmd_copy str_float_sample [lit "-threads"; lit "0"]
       (lit "videos/1.mp4") 1 (lit "h264_nvenc") (lit "p1")
       (lit "out/videos/001.mp4"))
  = Ok (map lit
          [ "ffmpeg"; "-y"; "-threads"; "0"; "-ss"; "0";
            "-i"; "videos/1.mp4"; "-t"; "1.0";
            "-vf"; "scale=trunc(iw/2)*2:trunc(ih/2)*2,fps=30";
            "-map"; "0:v:0"; "-map"; "0:a?";
            "-c:v"; "h264_nvenc"; "-preset"; "p1";
            "-pix_fmt"; "yuv420p";
            "-c:a"; "aac"; "192k"; "-b:a"; "-shortest";
            "-map_metadata"; "-1"; "-loglevel"; "error";
            "out/videos/001.mp4" ]%string).
Proof. vm_compute. reflexivity. Qed.

(** *** A segment whose video cannot be rendered *)

(** When the stream copy and the re-encode both fail, [cut_video] ends with
    the second exception: the retry is not guarded. *)
Lemma cut_video_double_failure
    (ffmpeg_runner : history -> list pystr -> option exn)
    (h : history) (cmd cmd_aac : list pystr) (e1 e2 : exn) :
  ffmpeg_runner h cmd = Some e1 ->
  rebuild_aac cmd = Ok cmd_aac ->
  ffmpeg_runner (h ++ [RunnerCall cmd (Some e1)]) cmd_aac = Some e2 ->
  cut_video ffmpeg_runner cmd h
  = (Raise e2,
     (h ++ [RunnerCall cmd (Some e1)]) ++ [RunnerCall cmd_aac (Some e2)]).
Proof.
  intros H1 H2 H3. unfold cut_video, try_except, call_runner.
  rewrite H1. cbn. rewrite H2, H3. reflexivity.
Qed.

(** An exception raised in front of the rest of a computation ends it. *)
Lemma bind_raise {A B : Type} (m : M A) (k : A -> M B) (h h' : history)
    (e : exn) :
  m h = (Raise e, h') -> bind m k h = (Raise e, h').
Proof. intros H. unfold bind. now rewrite H. Qed.

(** C1, on the code.  Two segments, every audio cut succeeds, every video
    command fails.  In both loops the failure of the retry for segment 1
    leaves the loop as an exception: nothing is returned and segment 2 is
    never attempted. *)
Theorem double_failure_aborts_batch :
  fst (cutting_sample runner_video_fails never_stopped) = Raise CRASH
  /\ runner_outputs (snd (cutting_sample runner_video_fails never_stopped))
     = map lit [ "out/audios/001.mp3"; "out/videos/001.mp4";
                 "out/videos/001.mp4" ]%string
  /\ fst (image_sample image_clip_fails never_stopped) = Raise CRASH
  /\ runner_outputs (snd (image_sample image_clip_fails never_stopped))
     = [ lit "out/audios/001.mp3" ]
  /\ clip_outputs (snd (image_sample image_clip_fails never_stopped))
     = map lit [ "out/videos/001.mp4"; "out/videos/001.mp4" ]%string.
Proof. repeat split; vm_compute; reflexivity. Qed.

(** The sibling paths: a failed audio cut is logged and the loop goes on; a
    failed stream copy whose retry succeeds lets the segment count. *)
Example audio_failure_continues :
  fst (cutting_sample runner_audio_fails never_stopped) = Ok 0
  /\ runner_outputs (snd (cutting_sample runner_audio_fails never_stopped))
     = map lit [ "out/audios/001.mp3"; "out/audios/002.mp3" ]%string.
Proof. split; vm_compute; reflexivity. Qed.

Example copy_failure_is_retried :
  fst (cutting_sample runner_copy_fails never_stopped) = Ok 2
  /\ runner_outputs (snd (cutting_sample runner_copy_fails never_stopped))
     = map lit [ "out/audios/001.mp3"; "out/videos/001.mp4";
                 "out/videos/001.mp4";
                 "out/audios/002.mp3"; "out/videos/002.mp4";
                 "out/videos/002.mp4" ]%string.
Proof. split; vm_compute; reflexivity. Qed.

(** *** What a computation adds to the history *)

Lemma emits_ret {A : Type} (a : A) (Q : result A -> list event -> Prop) :
  Q (Ok a) [] -> emits (ret a) Q.
Proof. intros H h. exists []. cbn. now rewrite app_nil_r. Qed.

Lemma emits_raise {A : Type} (e : exn) (Q : result A -> list event -> Prop) :
  Q (Raise e) [] -> emits (raise e) Q.
Proof. intros H h. exists []. cbn. now rewrite app_nil_r. Qed.

Lemma emits_bind {A B : Type} (m : M A) (k : A -> M B)
    (Q1 : result A -> list event -> Prop)
    (Q2 : A -> result B -> list event -> Prop)
    (Q : result B -> list event -> Prop) :
  emits m Q1 ->
  (forall a, emits (k a) (Q2 a)) ->
  (forall e n, Q1 (Raise e) n -> Q (Raise e) n) ->
  (forall a n1 r n2, Q1 (Ok a) n1 -> Q2 a r n2 -> Q r (n1 ++ n2)) ->
  emits (bind m k) Q.
Proof.
  intros Hm Hk Hr Ho h. unfold bind.
  destruct (Hm h) as (n1 & E1 & P1).
  destruct (m h) as [[a|e] h1]; cbn in E1, P1; subst h1.
  - destruct (Hk a (h ++ n1)) as (n2 & E2 & P2).
    exists (n1 ++ n2). rewrite E2, app_assoc. split; [reflexivity|].
    now apply Ho with (a := a).
  - exists n1. cbn. auto.
Qed.

Lemma emits_try {A : Type} (m : M A) (handler : exn -> M A)
    (Q1 : result A -> list event -> Prop)
    (Q2 : exn -> result A -> list event -> Prop)
    (Q : result A -> list event -> Prop) :
  emits m Q1 ->
  (forall e, emits (handler e) (Q2 e)) ->
  (forall a n, Q1 (Ok a) n -> Q (Ok a) n) ->
  (forall e n1 r n2, Q1 (Raise e) n1 -> Q2 e r n2 -> Q r (n1 ++ n2)) ->
  emits (try_except m handler) Q.
Proof.
  intros Hm Hh Ho Hr h. unfold try_except.
  destruct (Hm h) as (n1 & E1 & P1).
  destruct (m h) as [[a|e] h1]; cbn in E1, P1; subst h1.
  - exists n1. cbn. auto.
  - destruct (Hh e (h ++ n1)) as (n2 & E2 & P2).
    exists (n1 ++ n2). rewrite E2, app_assoc. split; [reflexivity|].
    now apply Hr with (e := e).
Qed.

Lemma quiet_nil : quiet [].
Proof. intros []. Qed.

Lemma quiet_app (n1 n2 : list event) : quiet n1 -> quiet n2 -> quiet (n1 ++ n2).
Proof.
  intros H1 H2 H. apply in_app_or in H.
  destruct H as [H|H]; [exact (H1 H)|exact (H2 H)].
Qed.

Lemma quiet_one (e : event) : e <> StopCheck true -> quiet [e].
Proof. intros H [E|[]]. congruence. Qed.

Lemma quiet_ret {A : Type} (a : A) : emits (ret a) Quiet.
Proof. apply emits_ret, quiet_nil. Qed.

Lemma quiet_raise {A : Type} (e : exn) : emits (@raise A e) Quiet.
Proof. apply emits_raise, quiet_nil. Qed.

Lemma quiet_bind {A B : Type} (m : M A) (k : A -> M B) :
  emits m Quiet -> (forall a, emits (k a) Quiet) -> emits (bind m k) Quiet.
Proof.
  intros Hm Hk.
  apply emits_bind with (Q1 := Quiet) (Q2 := fun _ => Quiet); auto.
  intros a n1 r n2. apply quiet_app.
Qed.

Lemma quiet_try {A : Type} (m : M A) (handler : exn -> M A) :
  emits m Quiet -> (forall e, emits (handler e) Quiet) ->
  emits (try_except m handler) Quiet.
Proof.
  intros Hm Hh.
  apply emits_try with (Q1 := Quiet) (Q2 := fun _ => Quiet); auto.
  intros e n1 r n2. apply quiet_app.
Qed.

Lemma quiet_stops_cleanly (r : result nat) (n : list event) :
  quiet n -> stops_cleanly r n.
Proof.
  intros H pre post ->. exfalso. apply H, in_or_app. right. now left.
Qed.

Lemma stops_cleanly_after_quiet (r : result nat) (n1 n2 : list event) :
  quiet n1 -> stops_cleanly r n2 -> stops_cleanly r (n1 ++ n2).
Proof.
  intros H1 H2 pre post E. apply app_eq_app in E.
  destruct E as [l [[E1 E2]|[E1 E2]]].
  - destruct l as [|x l]; cbn in E2.
    + apply (H2 []). now rewrite <- E2.
    + exfalso. apply H1. rewrite E1. apply in_or_app. right.
      injection E2 as <- _. now left.
  - apply (H2 l). exact E2.
Qed.

Lemma loop_bind {A : Type} (m : M A) (k : A -> M nat) :
  emits m Quiet -> (forall a, emits (k a) stops_cleanly) ->
  emits (bind m k) stops_cleanly.
Proof.
  intros Hm Hk.
  apply emits_bind with (Q1 := Quiet) (Q2 := fun _ => stops_cleanly); auto.
  - intros e n. apply quiet_stops_cleanly.
  - intros a n1 r n2. apply stops_cleanly_after_quiet.
Qed.

Section WithEnvironment.

Variable ffmpeg_runner : history -> list pystr -> option exn.
Variable stop_check : history -> bool.
Variable gc_func : bool.
Variable os_makedirs : history -> pystr -> option exn.
Variable find_video_by_vid_any_ext :
  history -> pystr -> Z -> result (option pystr).
Variable ffprobe_has_video_stream : history -> pystr -> bool.
Variable make_image_clip : history -> clip_args -> option exn.
Variable str_float : float -> pystr.
Variable path_join : pystr -> pystr -> pystr.
Variable path_dirname : pystr -> pystr.

Ltac one_event e :=
  let h := fresh "h" in
  intros h; exists [e h]; split; [reflexivity|apply quiet_one; discriminate].

Lemma quiet_log (m : log_msg) : emits (do_log m) Quiet.
Proof. one_event (fun _ : history => Log m). Qed.

Lemma quiet_gc : emits do_gc Quiet.
Proof. one_event (fun _ : history => Gc). Qed.

Lemma quiet_makedirs (path : pystr) :
  emits (do_makedirs os_makedirs path) Quiet.
Proof. one_event (fun h => Makedirs path (os_makedirs h path)). Qed.

Lemma quiet_runner (argv : list pystr) :
  emits (call_runner ffmpeg_runner argv) Quiet.
Proof. one_event (fun h => RunnerCall argv (ffmpeg_runner h argv)). Qed.

Lemma quiet_find_video (dir : pystr) (vid : Z) :
  emits (do_find_video find_video_by_vid_any_ext dir vid) Quiet.
Proof.
  one_event (fun h => FindVideo dir vid (find_video_by_vid_any_ext h dir vid)).
Qed.

Lemma quiet_probe (path : pystr) :
  emits (do_probe ffprobe_has_video_stream path) Quiet.
Proof. one_event (fun h => Probe path (ffprobe_has_video_stream h path)). Qed.

Lemma quiet_make_image_clip (args : clip_args) :
  emits (do_make_image_clip make_image_clip args) Quiet.
Proof. one_event (fun h => MakeImageClip args (make_image_clip h args)). Qed.

Lemma quiet_cut_video (cmd : list pystr) :
  emits (cut_video ffmpeg_runner cmd) Quiet.
Proof.
  unfold cut_video. apply quiet_try; [apply quiet_runner|].
  intros _. destruct (rebuild_aac cmd); [apply quiet_runner|apply quiet_raise].
Qed.

Lemma quiet_render_image (canvas_w canvas_h : Z)
    (enc_name enc_preset effect_type picked v_out : pystr) (duration : float) :
  emits (render_image make_image_clip canvas_w canvas_h enc_name enc_preset
                      effect_type picked v_out duration) Quiet.
Proof.
  unfold render_image.
  apply quiet_try; [|intros _]; apply quiet_make_image_clip.
Qed.

Lemma quiet_pick_visual (files : list pystr) (left : nat) :
  forall cursor,
    emits (pick_visual ffprobe_has_video_stream files left cursor) Quiet.
Proof.
  induction left as [|left IH]; intros cursor; cbn [pick_visual].
  - apply quiet_ret.
  - apply quiet_bind; [apply quiet_probe|].
    intros [|]; [apply quiet_ret|apply IH].
Qed.

Lemma quiet_audio_cut (argv : list pystr) (vid : Z) :
  emits (try_except
           (bind (call_runner ffmpeg_runner argv) (fun _ => ret true))
           (fun audio_err =>
              bind (do_log (LogAudioFailed vid audio_err))
                   (fun _ => ret false))) Quiet.
Proof.
  apply quiet_try.
  - apply quiet_bind; [apply quiet_runner|intros _; apply quiet_ret].
  - intros e. apply quiet_bind; [apply quiet_log|intros _; apply quiet_ret].
Qed.

Lemma quiet_periodic_gc (c : bool) :
  emits (if c then do_gc else ret tt) Quiet.
Proof. destruct c; [apply quiet_gc|apply quiet_ret]. Qed.

(** The head of every iteration of both loops. *)
Lemma stop_check_first (processed : nat) (body : M nat) :
  emits body stops_cleanly ->
  emits (bind (do_stop_check stop_check)
              (fun stopped : bool =>
                 if stopped
                 then bind (do_log LogStopped) (fun _ => ret processed)
                 else body))
        (fun r n => stops_cleanly r n /\ starts_with_check processed r n).
Proof.
  intros Hbody h. unfold bind at 1. unfold do_stop_check. cbn.
  destruct (stop_check h).
  - exists [StopCheck true; Log LogStopped]. cbn.
    rewrite <- app_assoc. split; [reflexivity|]. split.
    + intros pre post E. destruct pre as [|x [|y pre]]; cbn in E.
      * injection E as <-. split; [reflexivity|now exists processed].
      * injection E as _ E. discriminate.
      * injection E as _ _ E. destruct pre; discriminate.
    + exists true, [Log LogStopped]. auto.
  - destruct (Hbody (h ++ [StopCheck false])) as (n & E & P).
    exists (StopCheck false :: n). rewrite E, <- app_assoc.
    split; [reflexivity|]. split.
    + apply (stops_cleanly_after_quiet _ [StopCheck false] n);
        [apply quiet_one; discriminate|exact P].
    + exists false, n. split; [reflexivity|discriminate].
Qed.

Lemma emits_weaken {A : Type} (m : M A)
    (Q Q' : result A -> list event -> Prop) :
  emits m Q -> (forall r n, Q r n -> Q' r n) -> emits m Q'.
Proof.
  intros H HQ h. destruct (H h) as (n & E & P). exists n. auto.
Qed.

Section CuttingLoop.

Variables (total : nat) (audio_path video_source_dir out_aud out_vid : pystr)
          (enc_name enc_preset : pystr) (ffmpeg_threads : list pystr).

Abbreviation cutting_for' :=
  (cutting_for ffmpeg_runner stop_check gc_func os_makedirs
     find_video_by_vid_any_ext str_float path_join path_dirname
     total audio_path video_source_dir out_aud out_vid
     enc_name enc_preset ffmpeg_threads).

Lemma cutting_for_honours_stop (matches : list matched) :
  forall idx processed,
    emits (cutting_for' idx matches processed)
          (fun r n => stops_cleanly r n
                      /\ (matches <> [] -> starts_with_check processed r n)).
Proof.
  induction matches as [|[[[vid s_time] e_time] text] rest IH];
    intros idx processed.
  - apply emits_ret. split; [apply quiet_stops_cleanly, quiet_nil|congruence].
  - assert (IH' : forall idx processed,
               emits (cutting_for' idx rest processed) stops_cleanly).
    { intros i p. eapply emits_weaken; [apply IH|]. now intros r n [H _]. }
    cbn [cutting_for].
    eapply emits_weaken; [apply stop_check_first|now intros r n [H1 H2]].
    apply loop_bind; [apply quiet_periodic_gc|intros _].
    apply loop_bind; [apply quiet_makedirs|intros _].
    apply loop_bind; [apply quiet_audio_cut|intros audio_ok].
    destruct audio_ok; cbn [negb]; [|apply IH'].
    apply loop_bind; [apply quiet_find_video|intros video_src].
    destruct video_src as [[|c src]|].
    + apply loop_bind; [apply quiet_log|intros _; apply IH'].
    + apply loop_bind; [apply quiet_cut_video|intros _].
      apply loop_bind; [apply quiet_log|intros _; apply IH'].
    + apply loop_bind; [apply quiet_log|intros _; apply IH'].
Qed.

End CuttingLoop.

Section ImageFlowLoop.

Variables (total : nat) (audio_path out_aud out_vid : pystr)
          (files : list pystr) (canvas_w canvas_h : Z)
          (enc_name enc_preset effect_type : pystr).

Abbreviation image_for' :=
  (image_for ffmpeg_runner stop_check gc_func ffprobe_has_video_stream
     make_image_clip str_float path_join
     total audio_path out_aud out_vid files canvas_w canvas_h
     enc_name enc_preset effect_type).

Lemma image_for_honours_stop (matches : list matched) :
  forall idx cursor processed,
    emits (image_for' idx matches cursor processed)
          (fun r n => stops_cleanly r n
                      /\ (matches <> [] -> starts_with_check processed r n)).
Proof.
  induction matches as [|[[[vid s_time] e_time] text] rest IH];
    intros idx cursor processed.
  - apply emits_ret. split; [apply quiet_stops_cleanly, quiet_nil|congruence].
  - assert (IH' : forall idx cursor processed,
               emits (image_for' idx rest cursor processed) stops_cleanly).
    { intros i c p. eapply emits_weaken; [apply IH|]. now intros r n [H _]. }
    cbn [image_for].
    eapply emits_weaken; [apply stop_check_first|now intros r n [H1 H2]].
    apply loop_bind; [apply quiet_periodic_gc|intros _].
    apply loop_bind; [apply quiet_audio_cut|intros audio_ok].
    destruct audio_ok; cbn [negb]; [|apply IH'].
    apply loop_bind; [apply quiet_pick_visual|intros [picked cursor']].
    destruct picked as [[|c picked]|].
    + apply loop_bind; [apply quiet_log|intros _; apply IH'].
    + apply loop_bind; [apply quiet_render_image|intros _].
      apply loop_bind; [apply quiet_log|intros _; apply IH'].
    + apply loop_bind; [apply quiet_log|intros _; apply IH'].
Qed.

End ImageFlowLoop.

End WithEnvironment.

End OrchestratorFacts.

(** ** Cancellation *)

Module CancellationFacts.

Unset Implicit Arguments.

Import Aligner Kernel Orchestrator OrchestratorSpec KernelSpec KernelNotions
       CancellationSpec Samples OrchestratorFacts.

(** *** The loops: every check reads the flag, and a set flag ends the loop *)

Lemma real_checks_app (stop_check : history -> bool) (n1 n2 : list event) :
  forall h,
    real_checks stop_check h n1 ->
    real_checks stop_check (h ++ n1) n2 ->
    real_checks stop_check h (n1 ++ n2).
Proof.
  induction n1 as [|e n1 IH]; intros h H1 H2; cbn [app real_checks] in *.
  - now rewrite app_nil_r in H2.
  - destruct H1 as [He H1]. split; [exact He|].
    apply IH; [exact H1|]. now rewrite <- app_assoc.
Qed.

Section WithStopCheck.

Variable stop_check : history -> bool.

Lemma reads_flag_ret {A : Type} (a : A) : reads_flag stop_check (ret a).
Proof. intros h. exists []. cbn. now rewrite app_nil_r. Qed.

Lemma reads_flag_raise {A : Type} (e : exn) :
  reads_flag stop_check (@raise A e).
Proof. intros h. exists []. cbn. now rewrite app_nil_r. Qed.

Lemma reads_flag_bind {A B : Type} (m : M A) (k : A -> M B) :
  reads_flag stop_check m -> (forall a, reads_flag stop_check (k a)) ->
  reads_flag stop_check (bind m k).
Proof.
  intros Hm Hk h. unfold bind. destruct (Hm h) as (n1 & E1 & R1).
  destruct (m h) as [[a|e] h1]; cbn in E1; subst h1.
  - destruct (Hk a (h ++ n1)) as (n2 & E2 & R2).
    exists (n1 ++ n2). rewrite E2, app_assoc. split; [reflexivity|].
    now apply real_checks_app.
  - now exists n1.
Qed.

Lemma reads_flag_try {A : Type} (m : M A) (handler : exn -> M A) :
  reads_flag stop_check m -> (forall e, reads_flag stop_check (handler e)) ->
  reads_flag stop_check (try_except m handler).
Proof.
  intros Hm Hh h. unfold try_except. destruct (Hm h) as (n1 & E1 & R1).
  destruct (m h) as [[a|e] h1]; cbn in E1; subst h1.
  - now exists n1.
  - destruct (Hh e (h ++ n1)) as (n2 & E2 & R2).
    exists (n1 ++ n2). rewrite E2, app_assoc. split; [reflexivity|].
    now apply real_checks_app.
Qed.

(** The stop check records what [stop_check] returns. *)
Lemma reads_flag_stop_check : reads_flag stop_check (do_stop_check stop_check).
Proof.
  intros h. exists [StopCheck (stop_check h)]. unfold do_stop_check.
  cbn. auto.
Qed.

Ltac other_event e :=
  let h := fresh "h" in
  intros h; exists [e h]; split; [reflexivity|cbn; auto].

Lemma reads_flag_log (m : log_msg) : reads_flag stop_check (do_log m).
Proof. other_event (fun _ : history => Log m). Qed.

Lemma reads_flag_gc : reads_flag stop_check do_gc.
Proof. other_event (fun _ : history => Gc). Qed.

Section WithEnvironment.

Variable ffmpeg_runner : history -> list pystr -> option exn.
Variable gc_func : bool.
Variable os_makedirs : history -> pystr -> option exn.
Variable find_video_by_vid_any_ext :
  history -> pystr -> Z -> result (option pystr).
Variable ffprobe_has_video_stream : history -> pystr -> bool.
Variable make_image_clip : history -> clip_args -> option exn.
Variable str_float : float -> pystr.
Variable path_join : pystr -> pystr -> pystr.
Variable path_dirname : pystr -> pystr.

Lemma reads_flag_makedirs (path : pystr) :
  reads_flag stop_check (do_makedirs os_makedirs path).
Proof. other_event (fun h => Makedirs path (os_makedirs h path)). Qed.

Lemma reads_flag_runner (argv : list pystr) :
  reads_flag stop_check (call_runner ffmpeg_runner argv).
Proof. other_event (fun h => RunnerCall argv (ffmpeg_runner h argv)). Qed.

Lemma reads_flag_find_video (dir : pystr) (vid : Z) :
  reads_flag stop_check (do_find_video find_video_by_vid_any_ext dir vid).
Proof.
  other_event (fun h => FindVideo dir vid (find_video_by_vid_any_ext h dir vid)).
Qed.

Lemma reads_flag_probe (path : pystr) :
  reads_flag stop_check (do_probe ffprobe_has_video_stream path).
Proof. other_event (fun h => Probe path (ffprobe_has_video_stream h path)). Qed.

Lemma reads_flag_make_image_clip (args : clip_args) :
  reads_flag stop_check (do_make_image_clip make_image_clip args).
Proof. other_event (fun h => MakeImageClip args (make_image_clip h args)). Qed.

Lemma reads_flag_cut_video (cmd : list pystr) :
  reads_flag stop_check (cut_video ffmpeg_runner cmd).
Proof.
  unfold cut_video. apply reads_flag_try; [apply reads_flag_runner|].
  intros _. destruct (rebuild_aac cmd);
    [apply reads_flag_runner|apply reads_flag_raise].
Qed.

Lemma reads_flag_pick_visual (files : list pystr) (left : nat) :
  forall cursor,
    reads_flag stop_check
      (pick_visual ffprobe_has_video_stream files left cursor).
Proof.
  induction left as [|left IH]; intros cursor; cbn [pick_visual].
  - apply reads_flag_ret.
  - apply reads_flag_bind; [apply reads_flag_probe|].
    intros [|]; [apply reads_flag_ret|apply IH].
Qed.

Lemma reads_flag_audio_cut (argv : list pystr) (vid : Z) :
  reads_flag stop_check
    (try_except
       (bind (call_runner ffmpeg_runner argv) (fun _ => ret true))
       (fun audio_err =>
          bind (do_log (LogAudioFailed vid audio_err)) (fun _ => ret false))).
Proof.
  apply reads_flag_try.
  - apply reads_flag_bind; [apply reads_flag_runner|].
    intros _. apply reads_flag_ret.
  - intros e. apply reads_flag_bind; [apply reads_flag_log|].
    intros _. apply reads_flag_ret.
Qed.

Lemma cutting_for_reads_flag
    (total : nat) (audio_path video_source_dir out_aud out_vid : pystr)
    (enc_name enc_preset : pystr) (ffmpeg_threads : list pystr)
    (matches : list matched) :
  forall idx processed,
    reads_flag stop_check
      (cutting_for ffmpeg_runner stop_check gc_func os_makedirs
         find_video_by_vid_any_ext str_float path_join path_dirname
         total audio_path video_source_dir out_aud out_vid
         enc_name enc_preset ffmpeg_threads idx matches processed).
Proof.
  induction matches as [|[[[vid s_time] e_time] text] rest IH];
    intros idx processed; cbn [cutting_for].
  - apply reads_flag_ret.
  - apply reads_flag_bind; [apply reads_flag_stop_check|intros [|]].
    { apply reads_flag_bind; [apply reads_flag_log|].
      intros _. apply reads_flag_ret. }
    apply reads_flag_bind.
    { destruct ((idx mod 20 =? 0) && gc_func);
        [apply reads_flag_gc|apply reads_flag_ret]. }
    intros _. apply reads_flag_bind; [apply reads_flag_makedirs|intros _].
    apply reads_flag_bind; [apply reads_flag_audio_cut|intros audio_ok].
    destruct audio_ok; cbn [negb]; [|apply IH].
    apply reads_flag_bind; [apply reads_flag_find_video|intros video_src].
    destruct video_src as [[|c src]|].
    + apply reads_flag_bind; [apply reads_flag_log|intros _; apply IH].
    + apply reads_flag_bind; [apply reads_flag_cut_video|intros _].
      apply reads_flag_bind; [apply reads_flag_log|intros _; apply IH].
    + apply reads_flag_bind; [apply reads_flag_log|intros _; apply IH].
Qed.

Lemma image_for_reads_flag
    (total : nat) (audio_path out_aud out_vid : pystr)
    (files : list pystr) (canvas_w canvas_h : Z)
    (enc_name enc_preset effect_type : pystr) (matches : list matched) :
  forall idx cursor processed,
    reads_flag stop_check
      (image_for ffmpeg_runner stop_check gc_func ffprobe_has_video_stream
         make_image_clip str_float path_join
         total audio_path out_aud out_vid files canvas_w canvas_h
         enc_name enc_preset effect_type idx matches cursor processed).
Proof.
  induction matches as [|[[[vid s_time] e_time] text] rest IH];
    intros idx cursor processed; cbn [image_for].
  - apply reads_flag_ret.
  - apply reads_flag_bind; [apply reads_flag_stop_check|intros [|]].
    { apply reads_flag_bind; [apply reads_flag_log|].
      intros _. apply reads_flag_ret. }
    apply reads_flag_bind.
    { destruct ((idx mod 20 =? 0) && gc_func);
        [apply reads_flag_gc|apply reads_flag_ret]. }
    intros _. apply reads_flag_bind; [apply reads_flag_audio_cut|].
    intros audio_ok. destruct audio_ok; cbn [negb]; [|apply IH].
    apply reads_flag_bind; [apply reads_flag_pick_visual|].
    intros [picked cursor']. destruct picked as [[|c picked]|].
    + apply reads_flag_bind; [apply reads_flag_log|intros _; apply IH].
    + apply reads_flag_bind.
      { unfold render_image. apply reads_flag_try;
          [apply reads_flag_make_image_clip|].
        intros _. apply reads_flag_make_image_clip. }
      intros _.
      apply reads_flag_bind; [apply reads_flag_log|intros _; apply IH].
    + apply reads_flag_bind; [apply reads_flag_log|intros _; apply IH].
Qed.

(** What the reading of the flag and the clean stop give together. *)
Lemma obeys_stop_intro (matches : list matched) (processed : nat)
    (loop : M nat) :
  reads_flag stop_check loop ->
  honours_stop matches processed loop ->
  obeys_stop stop_check matches processed loop.
Proof.
  intros Hr Hh h. destruct (Hr h) as (n & E & R).
  destruct (Hh h) as (n' & E' & Hc & Hs).
  assert (n' = n) by (apply (app_inv_head h); congruence). subst n'.
  exists n. split; [exact E|]. split; [exact R|]. split; [exact Hc|].
  intros Hm. destruct (Hs Hm) as (b & tl & -> & Hb).
  cbn [real_checks] in R. destruct R as [-> _].
  exists tl. auto.
Qed.

(** In [_cutting_loop], from its start and from every later iteration:
    each stop check reads the flag as it then is, the iteration begins
    with it, and a flag found set ends the loop before any work on the
    segment. *)
Lemma cutting_loop_obeys_stop
    (total : nat) (audio_path video_source_dir out_aud out_vid : pystr)
    (enc_name enc_preset : pystr) (ffmpeg_threads : list pystr)
    (matches : list matched) (idx processed : nat) :
  obeys_stop stop_check matches processed
    (cutting_for ffmpeg_runner stop_check gc_func os_makedirs
       find_video_by_vid_any_ext str_float path_join path_dirname
       total audio_path video_source_dir out_aud out_vid
       enc_name enc_preset ffmpeg_threads idx matches processed).
Proof.
  apply obeys_stop_intro;
    [apply cutting_for_reads_flag|apply cutting_for_honours_stop].
Qed.

Lemma image_flow_loop_obeys_stop
    (total : nat) (audio_path out_aud out_vid : pystr)
    (files : list pystr) (canvas_w canvas_h : Z)
    (enc_name enc_preset effect_type : pystr)
    (matches : list matched) (idx cursor processed : nat) :
  obeys_stop stop_check matches processed
    (image_for ffmpeg_runner stop_check gc_func ffprobe_has_video_stream
       make_image_clip str_float path_join
       total audio_path out_aud out_vid files canvas_w canvas_h
       enc_name enc_preset effect_type idx matches cursor processed).
Proof.
  apply obeys_stop_intro;
    [apply image_for_reads_flag|apply image_for_honours_stop].
Qed.

End WithEnvironment.

End WithStopCheck.

(** A stop requested while the first clip is cut: the second segment is
    never started, in either loop. *)
Example stop_after_first_clip :
  fst (cutting_sample runner_ok stopped_after_first_clip) = Ok 1
  /\ runner_outputs (snd (cutting_sample runner_ok stopped_after_first_clip))
     = map lit [ "out/audios/001.mp3"; "out/videos/001.mp4" ]%string
  /\ fst (image_sample image_clip_ok stopped_after_first_clip) = Ok 1
  /\ runner_outputs (snd (image_sample image_clip_ok stopped_after_first_clip))
     = [ lit "out/audios/001.mp3" ].
Proof. repeat split; vm_compute; reflexivity. Qed.

(** *** The process: a stop that the streaming loop does not see *)

(** Passes that read the flag as clear and neither time out nor see the
    exit, then a pass that reads nothing more and sees the exit: the loop
    leaves the process alone and ends with its exit code. *)
Lemma stream_loop_runs_to_exit (cfg : config) (env : environment)
    (before : list poll) (p : poll) (rest : list poll) (rc : Z) :
  Forall (passes_on cfg) before ->
  p_stopped p = false ->
  has_timeout cfg && p_elapsed p = false ->
  p_line p = None ->
  p_exit p = Some rc ->
  forall acc, exists acts cp,
    stream_loop cfg env (before ++ p :: rest) acc
    = (inr (Some cp), acts ++ [ReadStop false; Exited rc])
    /\ returncode cp = rc
    /\ forallb calm acts = true.
Proof.
  intros Hb Hs Ht Hl He.
  induction Hb as [|q before (Hq1 & Hq2 & Hq3) _ IH]; intros acc;
    cbn [app stream_loop].
  - rewrite Hs, Ht, Hl, He. exists [], {| returncode := rc; stderr := acc |}.
    auto.
  - rewrite Hq1, Hq2. destruct (p_line q) as [line|].
    + destruct (IH (acc ++ [line])) as (acts & cp & -> & Hrc & Hc).
      exists (ReadStop false ::
              (if has_log_func cfg then [LogLine line] else []) ++ acts), cp.
      split; [cbn [app]; now rewrite <- app_assoc|]. split; [exact Hrc|].
      cbn [forallb calm andb]. rewrite forallb_app, Hc.
      now destruct (has_log_func cfg).
    + rewrite (Hq3 eq_refl). destruct (IH acc) as (acts & cp & -> & Hrc & Hc).
      exists (ReadStop false :: Sleep :: acts), cp. auto.
Qed.

(** C6. The flag set while the streaming loop waits in [readline] for a
    process that writes nothing more: the loop reads the flag only at the
    head of a pass, so it does not see it; the process is neither
    terminated nor killed and runs to its exit, whatever its exit code;
    only the read made after the exit finds the flag, and STOPPED is
    raised then. *)
Theorem silent_process_is_not_terminated (cfg : config) (env : environment)
    (k : nat) (rc : Z) :
  stream cfg = true ->
  e_launch_fails env = false ->
  observed (SetWhileWaiting k) env ->
  exits_in_pass cfg env k rc ->
  fst (execute_safe cfg env) = Raised STOPPED
  /\ (forall a, In a (snd (execute_safe cfg env)) -> shuts_down a = false)
  /\ exists acts,
       snd (execute_safe cfg env)
       = ReadStop false :: Spawn :: acts
           ++ [ReadStop false; Exited rc; ReadStop true]
       /\ forallb calm acts = true.
Proof.
  intros Hs Hl (Hb & Hp & Ha) (before & p & rest & Epolls & Hk & Hgo & Ht & Hline & Hexit).
  cbn [flag_on_entry flag_after_loop] in Hb, Ha.
  assert (Hbefore : Forall (passes_on cfg) before).
  { rewrite Forall_forall in Hgo |- *. intros q Hq.
    destruct (In_nth_error _ _ Hq) as [j Hj].
    assert (Hjk : j < k).
    { rewrite <- Hk. apply nth_error_Some. congruence. }
    destruct (Hgo q Hq) as [Hq1 Hq2]. repeat split; auto.
    rewrite (Hp j q).
    - cbn [flag_at_pass]. apply Nat.ltb_ge. lia.
    - rewrite Epolls, nth_error_app1; [exact Hj|lia]. }
  assert (Hstop : p_stopped p = false).
  { rewrite (Hp k p).
    - cbn [flag_at_pass]. apply Nat.ltb_irrefl.
    - rewrite Epolls, nth_error_app2, Hk, Nat.sub_diag; [reflexivity|lia]. }
  destruct (stream_loop_runs_to_exit cfg env before p rest rc
              Hbefore Hstop Ht Hline Hexit []) as (acts & cp & L & Hrc & Hc).
  unfold execute_safe. rewrite Hb, Hs, Hl, Epolls, L. cbn [negb].
  unfold finish. rewrite Ha. cbn [fst snd].
  split; [reflexivity|]. split.
  - intros a [<-|[<-|Hin]]; try reflexivity.
    apply in_app_or in Hin. destruct Hin as [Hin|Hin].
    + apply in_app_or in Hin. destruct Hin as [Hin|[<-|[<-|[]]]];
        try reflexivity.
      rewrite forallb_forall in Hc. specialize (Hc a Hin).
      destruct a as [[]| | | | | | | |]; cbn in Hc |- *; congruence.
    + destruct Hin as [<-|[]]. reflexivity.
  - exists acts. split; [|exact Hc]. now rewrite <- app_assoc.
Qed.

Lemma silent_process_is_not_terminated_witness :
  fst (execute_safe cfg_stream env_silent_child) = Raised STOPPED
  /\ (forall a, In a (snd (execute_safe cfg_stream env_silent_child)) ->
                shuts_down a = false)
  /\ exists acts,
       snd (execute_safe cfg_stream env_silent_child)
       = ReadStop false :: Spawn :: acts
           ++ [ReadStop false; Exited 0; ReadStop true]
       /\ forallb calm acts = true.
Proof.
  apply (silent_process_is_not_terminated cfg_stream env_silent_child 0 0%Z).
  - reflexivity.
  - reflexivity.
  - split; [reflexivity|]. split; [|reflexivity].
    intros [|j] p H; cbn in H.
    + injection H as <-. reflexivity.
    + destruct j; discriminate H.
  - exists [], {| p_stopped := false; p_elapsed := false;
                  p_line := None; p_exit := Some 0%Z |}, [].
    repeat split. constructor.
Defined.

End CancellationFacts.

(** ** More about the sequence aligner *)

Module AlignerMore.

Unset Implicit Arguments.

Import Aligner AlignerSpec AlignerNotions Samples.

Section WithRuntime.

Variable str_lower : pystr -> pystr.
Variable ratio : pystr -> pystr -> float.
Variable all_words : list word_entry.

Abbreviation accumulate := (accumulate str_lower ratio all_words).
Abbreviation process_item := (process_item str_lower ratio all_words).
Abbreviation for_items := (for_items str_lower ratio all_words).
Abbreviation run := (run str_lower ratio all_words).
Abbreviation by_passes :=
  (@AlignerFacts.accumulate_passes str_lower ratio all_words).
Abbreviation item_outcome := (item_outcome str_lower ratio all_words).

Lemma take_word_dicts (w : word_entry) (st : loop_state) :
  Forall is_dict (current_words st) ->
  Forall is_dict (current_words (take_word w st)).
Proof.
  intros H. destruct w as [d|]; cbn; [|exact H].
  apply Forall_app. split; [exact H|]. constructor; [exact I|constructor].
Qed.

Lemma accumulate_dicts (target : pystr) (fuel : nat) (st r : loop_state)
    (tr : list event) :
  accumulate target fuel st = (r, tr) ->
  Forall is_dict (current_words st) -> Forall is_dict (current_words r).
Proof.
  revert fuel st r tr.
  apply (by_passes target
           (fun st r _ => Forall is_dict (current_words st) ->
                          Forall is_dict (current_words r)));
    auto using take_word_dicts.
Qed.

Lemma take_word_ptr_bound (w : word_entry) (st : loop_state) :
  nth_error all_words (word_ptr st) = Some w ->
  word_ptr (take_word w st) <= length all_words.
Proof.
  intros H. rewrite AlignerFacts.take_word_ptr.
  apply Nat.le_succ_l, nth_error_Some. congruence.
Qed.

Lemma accumulate_ptr_bound (target : pystr) (fuel : nat) (st r : loop_state)
    (tr : list event) :
  accumulate target fuel st = (r, tr) ->
  word_ptr st <= length all_words -> word_ptr r <= length all_words.
Proof.
  revert fuel st r tr.
  apply (by_passes target
           (fun st r _ => word_ptr st <= length all_words ->
                          word_ptr r <= length all_words));
    auto using take_word_ptr_bound.
Qed.

Lemma dict_positions_empty (p : nat) : dict_positions all_words p p = [].
Proof. unfold dict_positions. now rewrite Nat.sub_diag. Qed.

Lemma dict_positions_split (lo mid hi : nat) :
  lo <= mid -> mid <= hi ->
  dict_positions all_words lo hi
  = dict_positions all_words lo mid ++ dict_positions all_words mid hi.
Proof.
  intros H1 H2. unfold dict_positions.
  replace (hi - lo) with ((mid - lo) + (hi - mid)) by lia.
  rewrite seq_app, filter_app.
  now replace (lo + (mid - lo)) with mid by lia.
Qed.

Lemma dict_positions_one (w : word_entry) (st : loop_state) :
  nth_error all_words (word_ptr st) = Some w ->
  current_idx (take_word w st)
  = current_idx st
      ++ dict_positions all_words (word_ptr st) (word_ptr (take_word w st)).
Proof.
  intros H. rewrite AlignerFacts.take_word_ptr. unfold dict_positions.
  replace (S (word_ptr st) - word_ptr st) with 1 by lia. cbn.
  unfold is_dict_at. rewrite H. destruct w as [d|]; cbn; [reflexivity|].
  now rewrite app_nil_r.
Qed.

(** The positions a loop collects are the dict positions between the
    cursor it starts from and the cursor it ends at. *)
Lemma accumulate_positions (target : pystr) (fuel : nat) (st r : loop_state)
    (tr : list event) :
  accumulate target fuel st = (r, tr) ->
  word_ptr st <= word_ptr r
  /\ current_idx r
     = current_idx st ++ dict_positions all_words (word_ptr st) (word_ptr r).
Proof.
  revert fuel st r tr.
  apply (by_passes target
           (fun st r _ =>
              word_ptr st <= word_ptr r
              /\ current_idx r
                 = current_idx st
                     ++ dict_positions all_words (word_ptr st) (word_ptr r))).
  - intros st. split; [lia|]. now rewrite dict_positions_empty, app_nil_r.
  - intros st w Hw _. split; [rewrite AlignerFacts.take_word_ptr; lia|].
    now apply dict_positions_one.
  - intros st w r tr Hw _ _ [Hle ->].
    rewrite AlignerFacts.take_word_ptr in Hle. split; [lia|].
    rewrite (dict_positions_one w st Hw), <- app_assoc. f_equal.
    rewrite AlignerFacts.take_word_ptr.
    symmetry. apply dict_positions_split; lia.
  - intros st w Hw _ _ _. split; [rewrite AlignerFacts.take_word_ptr; lia|].
    now apply dict_positions_one.
  - intros st w r tr Hw _ _ _ [Hle ->].
    rewrite AlignerFacts.take_word_ptr in Hle. split; [lia|].
    rewrite (dict_positions_one w st Hw), <- app_assoc. f_equal.
    rewrite AlignerFacts.take_word_ptr.
    symmetry. apply dict_positions_split; lia.
Qed.

(** Each pass moves the cursor by one. *)
Lemma accumulate_passes_count (target : pystr) (fuel : nat)
    (st r : loop_state) (tr : list event) :
  accumulate target fuel st = (r, tr) ->
  word_ptr r = word_ptr st + passes tr.
Proof.
  revert fuel st r tr.
  apply (by_passes target
           (fun st r tr => word_ptr r = word_ptr st + passes tr));
    unfold passes; cbn; intros;
    rewrite ?AlignerFacts.take_word_ptr in *; lia.
Qed.

Lemma last_is_dict (ws : list word_entry) (d : word_entry) :
  Forall is_dict ws -> is_dict d -> is_dict (last ws d).
Proof.
  induction 1 as [|w ws Hw _ IH]; intros Hd; cbn; [exact Hd|].
  destruct ws; [exact Hw|]. now apply IH.
Qed.

Lemma process_item_outcome (item_idx : nat) (vid : Z) (text : pystr)
    (st : aligner_state) :
  item_outcome item_idx vid text st (process_item item_idx (vid, text) st).
Proof.
  unfold Aligner.process_item.
  destruct (_clean_text str_lower (Some text)) as [|c target] eqn:T.
  { now apply EmptyTarget. }
  destruct (accumulate (c :: target) (total_words all_words - a_word_ptr st)
              (fresh_loop (a_word_ptr st))) as [ls evs] eqn:E.
  assert (Hs : AlignerSpec.idx_sound all_words ls).
  { eapply AlignerFacts.accumulate_idx_sound; [exact E|constructor]. }
  assert (Hd : Forall is_dict (current_words ls)).
  { eapply accumulate_dicts; [exact E|constructor]. }
  unfold AlignerSpec.idx_sound in Hs.
  destruct (current_words ls) as [|first_word ws] eqn:W.
  { apply NoWords with (ls := ls) (evs := evs);
      [rewrite T; exact E|now inversion Hs|reflexivity]. }
  assert (Hl : is_dict (last (first_word :: ws) first_word)).
  { apply last_is_dict; [exact Hd|]. now inversion Hd. }
  destruct first_word as [f|]; [|now inversion Hd].
  destruct (last (Dict f :: ws) (Dict f)) as [l|] eqn:L; [|destruct Hl].
  apply Emitted with (ls := ls) (evs := evs) (f := f) (l := l) (ws := ws);
    try reflexivity; try assumption; [rewrite T; exact E|].
  intros Hi. rewrite Hi in Hs. inversion Hs.
Qed.

(** What every item keeps, the whole run keeps. *)
Lemma for_items_invariant (Inv : aligner_state -> Prop) :
  (forall i vid text st st',
      Inv st -> item_outcome i vid text st st' -> Inv st') ->
  forall items i st, Inv st -> Inv (for_items i items st).
Proof.
  intros Hstep. induction items as [|[vid text] items IH]; intros i st H;
    cbn [Aligner.for_items]; [exact H|].
  apply IH. eapply Hstep; [exact H|apply process_item_outcome].
Qed.

Lemma fresh_positions (ls : loop_state) (evs : list event) (target : pystr)
    (fuel ptr : nat) :
  accumulate target fuel (fresh_loop ptr) = (ls, evs) ->
  ptr <= word_ptr ls
  /\ current_idx ls = dict_positions all_words ptr (word_ptr ls).
Proof.
  intros E. destruct (accumulate_positions _ _ _ _ _ E) as [H1 H2].
  cbn in H1, H2. auto.
Qed.

Lemma run_cursor_bound (script_items : list script_item) :
  a_word_ptr (run script_items) <= length all_words.
Proof.
  unfold Aligner.run.
  apply (for_items_invariant (fun st => a_word_ptr st <= length all_words));
    [|cbn; lia].
  intros i vid text st st' Hp
    [T ->|ls evs E Hi ->|ls evs f l ws E W L Hi Ep Em Eu El Ee].
  - exact Hp.
  - cbn [a_word_ptr]. eapply accumulate_ptr_bound; [exact E|exact Hp].
  - rewrite Ep. eapply accumulate_ptr_bound; [exact E|exact Hp].
Qed.

(** X1. Taken in order, the word positions behind the emitted segments are
    exactly the dict entries of [all_words] below the final cursor: every
    such word belongs to one segment, none is skipped, none is used twice;
    and the cursor never passes the end of the list. *)
Theorem words_used_once_in_order (script_items : list script_item) :
  concat (a_used (run script_items))
  = dict_positions all_words 0 (a_word_ptr (run script_items))
  /\ a_word_ptr (run script_items) <= length all_words.
Proof.
  split; [|apply run_cursor_bound].
  unfold Aligner.run.
  apply (for_items_invariant
           (fun st => concat (a_used st)
                      = dict_positions all_words 0 (a_word_ptr st)));
    [|reflexivity].
  intros i vid text st st' Hu
    [T ->|ls evs E Hi ->|ls evs f l ws E W L Hi Ep Em Eu El Ee].
  - exact Hu.
  - destruct (fresh_positions _ _ _ _ _ E) as [Hle Hpos].
    cbn [a_used a_word_ptr].
    rewrite Hu, (dict_positions_split 0 (a_word_ptr st) (word_ptr ls))
      by lia.
    now rewrite <- Hpos, Hi, app_nil_r.
  - destruct (fresh_positions _ _ _ _ _ E) as [Hle Hpos].
    rewrite Eu, Ep, concat_app. cbn. rewrite app_nil_r.
    rewrite Hu, (dict_positions_split 0 (a_word_ptr st) (word_ptr ls))
      by lia.
    now rewrite <- Hpos.
Qed.

(** X2. The inner loop makes one pass per word over a whole run: the number
    of passes equals the final cursor, so it is at most [len(all_words)],
    however many script items there are. *)
Theorem passes_bounded_by_words (script_items : list script_item) :
  passes (a_events (run script_items)) = a_word_ptr (run script_items)
  /\ passes (a_events (run script_items)) <= length all_words.
Proof.
  assert (H : passes (a_events (run script_items))
              = a_word_ptr (run script_items)).
  { unfold Aligner.run.
    apply (for_items_invariant
             (fun st => passes (a_events st) = a_word_ptr st)); [|reflexivity].
    intros i vid text st st' Hp
      [T ->|ls evs E Hi ->|ls evs f l ws E W L Hi Ep Em Eu El Ee].
    - exact Hp.
    - cbn [a_events a_word_ptr].
      pose proof (accumulate_passes_count _ _ _ _ _ E) as Hc.
      cbn [word_ptr fresh_loop] in Hc.
      unfold passes in *. rewrite filter_app, length_app. lia.
    - rewrite Ee, Ep.
      pose proof (accumulate_passes_count _ _ _ _ _ E) as Hc.
      cbn [word_ptr fresh_loop] in Hc.
      unfold passes in *. rewrite filter_app, length_app. lia. }
  split; [exact H|]. rewrite H.
  apply run_cursor_bound.
Qed.

Lemma subseq_refl_skip {A : Type} (l : list A) : subseq [] l.
Proof. induction l; constructor; auto. Qed.

Lemma subseq_length {A : Type} (sub l : list A) :
  subseq sub l -> length sub <= length l.
Proof. induction 1; cbn; lia. Qed.

Lemma for_items_matches (items : list script_item) :
  forall i st, exists new,
    a_matches (for_items i items st) = a_matches st ++ new
    /\ subseq (map item_of new) items.
Proof.
  induction items as [|[vid text] items IH]; intros i st;
    cbn [Aligner.for_items].
  - exists []. split; [now rewrite app_nil_r|constructor].
  - destruct (IH (S i) (process_item i (vid, text) st)) as (new & -> & Hs).
    destruct (process_item_outcome i vid text st)
      as [T ->|ls evs E Hi ->|ls evs f l ws E W L Hi Ep Em Eu El Ee].
    + exists new. split; [reflexivity|now constructor].
    + exists new. split; [reflexivity|now constructor].
    + rewrite Em, <- app_assoc. eexists. split; [reflexivity|].
      cbn. now constructor.
Qed.

(** X3. The matches follow the script: the (id, text) pairs of the
    emitted matches are the script items with some left out, in the
    script's order and with the text unchanged; so there are never more
    matches than script items. *)
Theorem matches_follow_script (script_items : list script_item) :
  subseq (map item_of
              (_match_words_to_script str_lower ratio all_words script_items))
         script_items
  /\ length (_match_words_to_script str_lower ratio all_words script_items)
     <= length script_items.
Proof.
  unfold _match_words_to_script, Aligner.run.
  destruct (for_items_matches script_items 0 initial) as (new & E & Hs).
  rewrite E. cbn [a_matches initial app]. split; [exact Hs|].
  apply subseq_length in Hs. now rewrite length_map in Hs.
Qed.

Lemma accumulate_no_words_left (target : pystr) (fuel : nat)
    (st : loop_state) :
  length all_words <= word_ptr st ->
  accumulate target fuel st = (st, []).
Proof.
  intros H. destruct fuel as [|fuel]; cbn [Aligner.accumulate]; [reflexivity|].
  apply nth_error_None in H. now rewrite H.
Qed.

(** X4. Once the cursor has reached the end of the word list no further
    item is matched and the cursor stays; in particular an empty word list
    gives no match at all. *)
Theorem no_match_after_last_word (items : list script_item) (i : nat)
    (st : aligner_state) :
  length all_words <= a_word_ptr st ->
  a_matches (for_items i items st) = a_matches st
  /\ a_word_ptr (for_items i items st) = a_word_ptr st.
Proof.
  intros H.
  apply (for_items_invariant
           (fun st' => a_matches st' = a_matches st
                       /\ a_word_ptr st' = a_word_ptr st)); [|auto].
  clear i. intros i vid text s s' [Hm Hp]
    [T ->|ls evs E Hi ->|ls evs f l ws E W L Hi Ep Em Eu El Ee].
  - auto.
  - rewrite accumulate_no_words_left in E by (cbn; lia).
    inversion E; subst. cbn. auto.
  - rewrite accumulate_no_words_left in E by (cbn; lia).
    inversion E; subst. now destruct Hi.
Qed.

Lemma Forall2_last {A B : Type} (R : A -> B -> Prop) (l1 : list A)
    (l2 : list B) (d1 : A) (d2 : B) :
  Forall2 R l1 l2 -> R d1 d2 -> R (last l1 d1) (last l2 d2).
Proof.
  induction 1 as [|x y l1 l2 Hxy Hl IH]; intros Hd; cbn; [exact Hd|].
  destruct Hl; [exact Hxy|]. now apply IH.
Qed.

Lemma run_times_from (script_items : list script_item) :
  Forall2 (times_from all_words)
          (a_matches (run script_items)) (a_used (run script_items)).
Proof.
  unfold Aligner.run.
  apply (for_items_invariant
           (fun st => Forall2 (times_from all_words)
                              (a_matches st) (a_used st)));
    [|constructor].
  intros i vid text st st' H
    [T ->|ls evs E Hi ->|ls evs f l ws E W L Hi Ep Em Eu El Ee];
    [exact H|exact H|].
  rewrite Em, Eu. apply Forall2_app; [exact H|].
  constructor; [|constructor].
  assert (Hs : AlignerSpec.idx_sound all_words ls).
  { eapply AlignerFacts.accumulate_idx_sound; [exact E|constructor]. }
  unfold AlignerSpec.idx_sound in Hs. rewrite W in Hs.
  destruct (current_idx ls) as [|p idxs] eqn:Ei; [now destruct Hi|].
  pose proof (Forall2_last _ _ _ p (Dict f) Hs) as Hlast.
  inversion Hs as [|? ? ? ? Hf Hrest]; subst.
  specialize (Hlast Hf). rewrite L in Hlast.
  exists p, (last (p :: idxs) p), f, l. cbn. auto 7.
Qed.

(** X5. Every match takes its times from the words it was built from: its
    start is the "start" of the first collected word (0 when that key is
    missing) and its end is the "end" of the last collected word (the start
    plus 0.1 when that key is missing). *)
Theorem match_times_from_words (script_items : list script_item) :
  Forall2 (times_from all_words)
          (a_matches (run script_items)) (a_used (run script_items)).
Proof. exact (run_times_from script_items). Qed.

(** X6. Every script item ends in exactly one of three ways, a match, an
    "empty target" skip or a "no valid words" skip; the "invalid word
    type" skip of lines 107-110 never happens. *)
Theorem every_item_matched_or_skipped (script_items : list script_item) :
  length (a_matches (run script_items)) + length (a_log (run script_items))
  = length script_items
  /\ forall vid, ~ In (SkipInvalidWordType vid) (a_log (run script_items)).
Proof.
  unfold Aligner.run.
  assert (H : forall items i st,
             length (a_matches (for_items i items st))
             + length (a_log (for_items i items st))
             = length (a_matches st) + length (a_log st) + length items
             /\ ((forall vid, ~ In (SkipInvalidWordType vid) (a_log st)) ->
                 forall vid, ~ In (SkipInvalidWordType vid)
                                  (a_log (for_items i items st)))).
  { induction items as [|[vid text] items IH]; intros i st;
      cbn [Aligner.for_items]; [cbn; split; [lia|auto]|].
    pose proof (process_item_outcome i vid text st) as O.
    destruct (IH (S i) (process_item i (vid, text) st)) as [-> Hn].
    revert O Hn. generalize (process_item i (vid, text) st). intros st' O Hn.
    assert (Hlog : (forall v, ~ In (SkipInvalidWordType v) (a_log st)) ->
                   forall v, ~ In (SkipInvalidWordType v) (a_log st')).
    { intros Hst v Hv.
      destruct O as [T ->|ls evs E Hi ->|ls evs f l ws E W L Hi Ep Em Eu El Ee];
        cbn [a_log] in Hv.
      - apply in_app_or in Hv. destruct Hv as [Hv|[Hv|[]]];
          [exact (Hst v Hv)|discriminate Hv].
      - apply in_app_or in Hv. destruct Hv as [Hv|[Hv|[]]];
          [exact (Hst v Hv)|discriminate Hv].
      - rewrite El in Hv. exact (Hst v Hv). }
    split; [|auto].
    destruct O as [T ->|ls evs E Hi ->|ls evs f l ws E W L Hi Ep Em Eu El Ee].
    - cbn [a_matches a_log]. rewrite length_app. cbn. lia.
    - cbn [a_matches a_log]. rewrite length_app. cbn. lia.
    - rewrite Em, El, length_app. cbn. lia. }
  destruct (H script_items 0 initial) as [-> Hn]. cbn. split; [lia|].
  apply Hn. intros vid [].
Qed.

End WithRuntime.

Lemma no_match_after_last_word_witness :
  a_matches (for_items ascii_lower ratio_lead_space [] 0 hello_script initial)
  = []
  /\ a_word_ptr (for_items ascii_lower ratio_lead_space [] 0 hello_script
                           initial) = 0.
Proof.
  apply (no_match_after_last_word ascii_lower ratio_lead_space []
           hello_script 0 initial).
  cbn. lia.
Defined.

End AlignerMore.

(** ** More about the script parser *)

Module ParserMore.

Unset Implicit Arguments.

Import Parser ParserNotions.

Section WithRuntime.

Variable is_space : codepoint -> bool.
Variable digit_value : codepoint -> option N.

Abbreviation is_digit := (is_digit digit_value).
Abbreviation lstrip := (lstrip is_space).
Abbreviation strip := (strip is_space).
Abbreviation match_ws_body := (match_ws_body is_space).
Abbreviation match_digits_tail := (match_digits_tail is_space digit_value).
Abbreviation match_here := (match_here is_space digit_value).
Abbreviation findall := (findall is_space digit_value).

(** *** What [strip] returns *)

Lemma lstrip_suffix (s : pystr) : exists ws, s = ws ++ lstrip s.
Proof.
  induction s as [|c s [ws IH]]; cbn; [now exists []|].
  destruct (is_space c); [|now exists []].
  exists (c :: ws). cbn. now rewrite <- IH.
Qed.

Lemma lstrip_head (s : pystr) (c : codepoint) :
  hd_error (lstrip s) = Some c -> is_space c = false.
Proof.
  induction s as [|x s IH]; cbn; [discriminate|].
  destruct (is_space x) eqn:E; [exact IH|].
  cbn. intros H. now inversion H; subst.
Qed.


Lemma hd_error_rev_last {A : Type} (l : list A) (x : A) :
  hd_error (rev (l ++ [x])) = Some x.
Proof. now rewrite rev_app_distr. Qed.

Lemma strip_in (s : pystr) (c : codepoint) : In c (strip s) -> In c s.
Proof.
  unfold Parser.strip. intros H. apply in_rev in H.
  destruct (lstrip_suffix (rev (lstrip s))) as [ws E].
  assert (H1 : In c (rev (lstrip s)))
    by (rewrite E; apply in_or_app; now right).
  apply in_rev in H1. destruct (lstrip_suffix s) as [ws' E'].
  rewrite E'. apply in_or_app. now right.
Qed.

Lemma strip_last (s p : pystr) (c : codepoint) :
  strip s = p ++ [c] -> is_space c = false.
Proof.
  unfold Parser.strip. intros H.
  apply (lstrip_head (rev (lstrip s))).
  rewrite <- (rev_involutive (lstrip (rev (lstrip s)))), H.
  apply hd_error_rev_last.
Qed.

Lemma strip_head (s : pystr) (c : codepoint) :
  hd_error (strip s) = Some c -> is_space c = false.
Proof.
  unfold Parser.strip. intros H.
  destruct (lstrip_suffix (rev (lstrip s))) as [ws E].
  apply (f_equal (@rev codepoint)) in E.
  rewrite rev_involutive, rev_app_distr in E.
  apply (lstrip_head s). rewrite E.
  destruct (rev (lstrip (rev (lstrip s)))) as [|x t]; [discriminate|].
  exact H.
Qed.


(** *** What a match captures *)

Lemma span_no_bracket_free (s : pystr) : ~ In LBRACKET (span_no_bracket s).
Proof.
  induction s as [|c s IH]; cbn; [auto|].
  destruct (N.eqb_spec c LBRACKET); cbn; [auto|]. intros [H|H]; auto.
Qed.

Lemma match_body_free (s b : pystr) :
  match_body s = Some b -> ~ In LBRACKET b.
Proof.
  unfold match_body. pose proof (span_no_bracket_free s) as H.
  destruct (span_no_bracket s); [discriminate|]. now intros [= <-].
Qed.

Lemma match_ws_body_free (s b : pystr) (n : nat) :
  match_ws_body s = Some (b, n) -> ~ In LBRACKET b.
Proof.
  revert n. induction s as [|c s IH]; intros n; cbn [Parser.match_ws_body].
  - destruct (match_body []) eqn:E; [|discriminate].
    intros [= <- _]. now apply (match_body_free []).
  - assert (Hhere : match (match match_body (c :: s) with
                           | Some b0 => Some (b0, length b0)
                           | None => None
                           end) with
                    | Some (b0, _) => ~ In LBRACKET b0
                    | None => True
                    end).
    { destruct (match_body (c :: s)) eqn:E; [|exact I].
      now apply (match_body_free (c :: s)). }
    destruct (is_space c).
    + destruct (match_ws_body s) as [[b' n']|] eqn:E.
      * intros [= <- _]. now apply (IH n').
      * intros H. rewrite H in Hhere. exact Hhere.
    + intros H. rewrite H in Hhere. exact Hhere.
Qed.

Lemma match_digits_tail_free (s acc ds b : pystr) (n : nat) :
  match_digits_tail acc s = Some (ds, b, n) -> ~ In LBRACKET b.
Proof.
  revert acc n. induction s as [|c s IH]; intros acc n;
    cbn [Parser.match_digits_tail]; [discriminate|].
  assert (Hhere : (if N.eqb c RBRACKET
                   then match match_ws_body s with
                        | Some (b0, n0) => Some (acc, b0, S n0)
                        | None => None
                        end
                   else None) = Some (ds, b, n) -> ~ In LBRACKET b).
  { destruct (N.eqb c RBRACKET); [|discriminate].
    destruct (match_ws_body s) as [[b0 n0]|] eqn:E; [|discriminate].
    intros [= _ <- _]. now apply (match_ws_body_free s b0 n0). }
  destruct (Parser.is_digit digit_value c); [|exact Hhere].
  destruct (match_digits_tail (acc ++ [c]) s) as [[[ds' b'] n']|] eqn:E;
    [|exact Hhere].
  intros [= -> -> _]. exact (IH (acc ++ [c]) n' E).
Qed.

Lemma findall_free (s : pystr) :
  forall skip, Forall (fun m => ~ In LBRACKET (snd m)) (findall skip s).
Proof.
  induction s as [|c s IH]; intros skip; cbn [Parser.findall];
    [constructor|].
  destruct skip as [|k]; [|apply IH].
  destruct (match_here (c :: s)) as [[[ds body] n]|] eqn:E; [|apply IH].
  constructor; [|apply IH]. cbn [snd].
  unfold Parser.match_here in E.
  destruct s as [|v [|d s']]; try discriminate.
  destruct (N.eqb c LBRACKET && (N.eqb v UPPER_V || N.eqb v LOWER_V)
            && Parser.is_digit digit_value d); [|discriminate].
  destruct (match_digits_tail [d] s') as [[[ds' b'] n']|] eqn:E';
    [|discriminate].
  injection E as _ <- _. now apply (match_digits_tail_free s' [d] ds' b' n').
Qed.

(** X7. Every item the parser returns has a non-negative id and a text
    without an opening bracket and without whitespace at its start or its
    end. *)
Theorem parsed_items_are_clean (content : option pystr) :
  Forall (clean_item is_space)
         (_parse_script is_space digit_value content).
Proof.
  unfold _parse_script. apply Forall_map.
  pose proof (findall_free (or_empty content) 0) as H.
  induction H as [|m ms Hm _ IH]; constructor; [|exact IH].
  unfold clean_item. cbn [fst snd]. repeat split.
  - unfold int_of_digits. apply N2Z.is_nonneg.
  - intros Hin. apply Hm. now apply strip_in in Hin.
  - apply strip_head.
  - apply strip_last.
Qed.

(** *** Reading back a written script *)



Section RoundTrip.

Hypothesis space_is_space : is_space Aligner.SPACE = true.
Hypothesis bracket_is_no_digit : Parser.is_digit digit_value RBRACKET = false.









End RoundTrip.

Section BlankItem.

Hypothesis bracket_is_no_digit : Parser.is_digit digit_value RBRACKET = false.
Hypothesis bracket_is_no_space : is_space LBRACKET = false.






End BlankItem.

End WithRuntime.



End ParserMore.

(** ** Process execution kernel: outcomes and side effects *)

Module KernelMore.

Unset Implicit Arguments.

Import PyStr Kernel KernelNotions.

Lemma calm_no_shutdown (a : action) : calm a = true -> shuts_down a = false.
Proof. destruct a as [[]| | | | | | | |]; cbn; congruence. Qed.

Lemma calm_no_spawn (l : list action) :
  forallb calm l = true -> filter is_spawn l = [].
Proof.
  induction l as [|a l IH]; [reflexivity|]. cbn [forallb filter].
  intros H. apply andb_prop in H. destruct H as [Ha Hl].
  destruct a as [[]| | | | | | | |]; cbn in Ha |- *; try discriminate;
    auto.
Qed.

Lemma calm_in (l : list action) (a : action) :
  forallb calm l = true -> In a l -> calm a = true.
Proof. intros H. rewrite forallb_forall in H. apply H. Qed.


Section WithEnvironment.

Variable cfg : config.
Variable env : environment.

Abbreviation run_shape := (run_shape cfg env).

(** The actions of the streaming loop: passes that leave the process
    alone, closed by the shutdown when the loop raises. *)
Lemma stream_loop_shape (ps : list poll) :
  forall acc r acts,
    stream_loop cfg env ps acc = (r, acts) ->
    exists pre,
      forallb calm pre = true
      /\ match r with
         | inl STOPPED => acts = pre ++ ReadStop true :: stop_process env
         | inl TIMEOUT =>
             has_timeout cfg = true
             /\ acts = pre ++ ReadStop false :: timeout_process env
         | inl _ => False
         | inr _ => acts = pre
         end.
Proof.
  induction ps as [|p ps IH]; intros acc r acts E; cbn [stream_loop] in E.
  - inversion E; subst. now exists [].
  - destruct (p_stopped p).
    { inversion E; subst. now exists []. }
    destruct (has_timeout cfg && p_elapsed p) eqn:Ht.
    { inversion E; subst. exists []. apply andb_prop in Ht. tauto. }
    destruct (p_line p) as [line|].
    { destruct (stream_loop cfg env ps (acc ++ [line])) as [r' acts'] eqn:E'.
      inversion E; subst. clear E.
      destruct (IH _ _ _ E') as (pre & Hc & Hr).
      exists (ReadStop false ::
              (if has_log_func cfg then [LogLine line] else []) ++ pre).
      split.
      { cbn [forallb calm andb]. rewrite forallb_app, Hc.
        now destruct (has_log_func cfg). }
      destruct r as [[| | |rc]|o]; [| |exact Hr|exact Hr|].
      - subst. cbn [app]. now rewrite <- app_assoc.
      - destruct Hr as [H1 H2]. subst. cbn [app]. now rewrite <- app_assoc.
      - now subst. }
    destruct (p_exit p) as [rc|].
    { inversion E; subst. now exists [ReadStop false; Exited rc]. }
    destruct (stream_loop cfg env ps acc) as [r' acts'] eqn:E'.
    inversion E; subst. clear E.
    destruct (IH _ _ _ E') as (pre & Hc & Hr).
    exists (ReadStop false :: Sleep :: pre).
    split; [cbn [forallb calm andb]; exact Hc|].
    destruct r as [[| | |rc]|o]; [| |exact Hr|exact Hr|].
    + now subst.
    + destruct Hr as [H1 H2]. now subst.
    + now subst.
Qed.


Lemma stop_process_shuts_down : forallb shuts_down (stop_process env) = true.
Proof. unfold stop_process. now destruct (e_wait_exits env). Qed.

Lemma timeout_process_shuts_down :
  forallb shuts_down (timeout_process env) = true.
Proof.
  unfold timeout_process.
  now destruct (e_terminate_raises env), (e_wait_exits env).
Qed.

Lemma finish_cases (cp : completed) :
  (e_stop_after env = true
   /\ finish cfg env cp = (Raised STOPPED, [ReadStop true]))
  \/ (e_stop_after env = false /\ check cfg = true /\ returncode cp <> 0%Z
      /\ finish cfg env cp
         = (Raised (FFMPEG_CRASHED (returncode cp)),
            [ReadStop false; WriteLastFailedCmd]))
  \/ (e_stop_after env = false
      /\ (check cfg = true -> returncode cp = 0%Z)
      /\ finish cfg env cp = (Returned cp, [ReadStop false])).
Proof.
  unfold finish. destruct (e_stop_after env); [now left|right].
  destruct (check cfg); cbn [andb].
  - destruct (Z.eqb_spec (returncode cp) 0); cbn [negb]; [right|left]; auto.
  - right. repeat split. discriminate.
Qed.

Lemma execute_safe_shape :
  run_shape (fst (execute_safe cfg env)) (snd (execute_safe cfg env)).
Proof.
  unfold execute_safe.
  destruct (e_stop_before env) eqn:Hb; [now constructor|].
  destruct (stream cfg) eqn:Hs; cbn [negb].
  - destruct (e_launch_fails env) eqn:Hl.
    { cbn [fst snd]. constructor; [exact Hb|]. now rewrite Hs. }
    destruct (stream_loop cfg env (e_polls env) []) as [r acts] eqn:L.
    destruct (stream_loop_shape _ _ _ _ L) as (pre & Hc & Hr).
    destruct r as [[| | |rc]|[cp|]]; cbn [fst snd].
    + subst. now constructor.
    + destruct Hr as [Ht ->]. now constructor.
    + destruct Hr.
    + destruct Hr.
    + subst.
      destruct (finish_cases cp)
        as [(Ha & ->)|[(Ha & Hk & Hrc & ->)|(Ha & Hrc & ->)]];
        cbn [fst snd]; now constructor.
    + subst. now constructor.
  - destruct (e_run env) as [cp| |] eqn:Hr.
    + destruct (finish_cases cp)
        as [(Ha & ->)|[(Ha & Hk & Hrc & ->)|(Ha & Hrc & ->)]];
        cbn [fst snd].
      * now apply (StoppedAfterExit cfg env [Exited (returncode cp)]).
      * now apply (Crashed cfg env [Exited (returncode cp)]).
      * now apply (Completed cfg env [Exited (returncode cp)]).
    + destruct (has_timeout cfg) eqn:Ht; cbn [fst snd]; now constructor.
    + cbn [fst snd]. constructor; [exact Hb|]. now rewrite Hs.
Qed.

(** X10. What the outcome of [execute_safe] tells: a result returned under
    [check] has return code 0; a crash is reported only under [check], for
    a code other than 0 and with the stop flag clear after the exit; TIMEOUT
    needs a time limit; CMD NOT FOUND comes from the launch; and STOPPED is
    raised only when a reading of the stop flag found it set. *)
Theorem outcome_is_accounted_for :
  accounted cfg env (fst (execute_safe cfg env)) (snd (execute_safe cfg env)).
Proof.
  destruct execute_safe_shape; unfold accounted; auto.
  - now left.
  - now rewrite H0.
  - do 2 right. apply in_or_app. right. now left.
  - now rewrite H0.
  - do 2 right. apply in_or_app. right. now left.
Qed.


(** X12. The process is shut down only by the streaming loop, when it
    raises STOPPED or TIMEOUT: every [terminate], [wait] and [kill] lies
    in the block that directly follows the last reading of the stop flag,
    and nothing comes after that block. *)
Theorem shutdown_only_on_stop_or_timeout (a : action) :
  shuts_down a = true ->
  In a (snd (execute_safe cfg env)) ->
  stream cfg = true
  /\ (fst (execute_safe cfg env) = Raised STOPPED
      \/ fst (execute_safe cfg env) = Raised TIMEOUT)
  /\ exists pre b block,
       snd (execute_safe cfg env) = pre ++ ReadStop b :: block
       /\ (forall x, In x pre -> shuts_down x = false)
       /\ block = (if b then stop_process env else timeout_process env)
       /\ hd_error block = Some Terminate.
Proof.
  intros Ha.
  assert (Hcalm : forall pre x, forallb calm pre = true ->
                    In x (ReadStop false :: Spawn :: pre) ->
                    shuts_down x = false).
  { intros pre x Hc [<-|[<-|Hx]]; try reflexivity.
    apply calm_no_shutdown, (calm_in pre); assumption. }
  assert (Hno : forall pre tl, forallb calm pre = true ->
                  forallb calm tl = true \/ tl = [ReadStop true]
                  \/ tl = [ReadStop false; WriteLastFailedCmd] ->
                  In a (ReadStop false :: Spawn :: pre ++ tl) -> False).
  { intros pre tl Hc Ht Hin.
    change (In a ((ReadStop false :: Spawn :: pre) ++ tl)) in Hin.
    apply in_app_or in Hin. destruct Hin as [Hin|Hin].
    - rewrite (Hcalm pre a Hc Hin) in Ha. discriminate.
    - destruct Ht as [Ht|[ -> | -> ]].
      + rewrite (calm_no_shutdown a (calm_in tl a Ht Hin)) in Ha. discriminate.
      + destruct Hin as [<-|[]]. discriminate.
      + destruct Hin as [<-|[<-|[]]]; discriminate. }
  destruct execute_safe_shape as
    [Hb|Hb Hs Hr Ht|Hb Hs Hr Ht|Hb Hl|pre Hb Hs Hc|pre Hb Hs Ht Hc
     |pre Hb Hs Hc|pre Hb Hx Hc|pre rc Hb Hx Hk Hrc Hc|pre cp Hb Hx Hrc Hc];
    intros Hin.
  - destruct Hin as [<-|[]]. discriminate.
  - destruct Hin as [<-|[<-|[<-|[]]]]; discriminate.
  - destruct Hin as [<-|[<-|[]]]; discriminate.
  - destruct Hin as [<-|[<-|[<-|[]]]]; discriminate.
  - split; [exact Hs|]. split; [now left|].
    exists (ReadStop false :: Spawn :: pre), true, (stop_process env).
    repeat split; auto. intros x Hx. now apply (Hcalm pre).
  - split; [exact Hs|]. split; [now right|].
    exists (ReadStop false :: Spawn :: pre), false, (timeout_process env).
    repeat split; auto.
    + intros x Hx. now apply (Hcalm pre).
    + unfold timeout_process. now destruct (e_terminate_raises env).
  - rewrite <- (app_nil_r pre) in Hin. exfalso.
    apply (Hno pre [] Hc); auto.
  - exfalso. apply (Hno pre [ReadStop true] Hc); auto.
  - exfalso. apply (Hno pre [ReadStop false; WriteLastFailedCmd] Hc); auto.
  - exfalso. apply (Hno pre [ReadStop false] Hc); auto.
Qed.

(** X13. [last_failed_cmd.txt] is written exactly when the call fails with
    FFMPEG CRASHED, with CMD NOT FOUND, or with TIMEOUT outside streaming
    mode; neither STOPPED nor the TIMEOUT of the streaming loop leaves the
    file behind. *)
Theorem last_failed_cmd_written_iff :
  In WriteLastFailedCmd (snd (execute_safe cfg env))
  <-> writes_cmd cfg (fst (execute_safe cfg env)).
Proof.
  assert (Hn : forall pre, forallb calm pre = true ->
                 ~ In WriteLastFailedCmd pre).
  { intros pre Hc Hin. now pose proof (calm_in pre _ Hc Hin). }
  assert (Hsd : forall l, forallb shuts_down l = true ->
                  ~ In WriteLastFailedCmd l).
  { intros l Hl Hin. rewrite forallb_forall in Hl.
    now pose proof (Hl _ Hin). }
  destruct execute_safe_shape as
    [Hb|Hb Hs Hr Ht|Hb Hs Hr Ht|Hb Hl|pre Hb Hs Hc|pre Hb Hs Ht Hc
     |pre Hb Hs Hc|pre Hb Hx Hc|pre rc Hb Hx Hk Hrc Hc|pre cp Hb Hx Hrc Hc];
    unfold writes_cmd.
  - split; [intros [H|[]]; discriminate|tauto].
  - split; [auto|]. intros _. cbn. tauto.
  - split; [intros [H|[H|[]]]; discriminate|tauto].
  - split; [auto|]. intros _. cbn. tauto.
  - split; [|tauto]. intros [H|[H|H]]; try discriminate.
    apply in_app_or in H. destruct H as [H|[H|H]]; try discriminate.
    + exact (Hn pre Hc H).
    + exact (Hsd _ stop_process_shuts_down H).
  - split; [|congruence]. intros [H|[H|H]]; try discriminate.
    apply in_app_or in H. destruct H as [H|[H|H]]; try discriminate.
    + destruct (Hn pre Hc H).
    + destruct (Hsd _ timeout_process_shuts_down H).
  - split; [|tauto]. intros [H|[H|H]]; try discriminate.
    exact (Hn pre Hc H).
  - split; [|tauto]. intros [H|[H|H]]; try discriminate.
    apply in_app_or in H. destruct H as [H|[H|[]]]; try discriminate.
    exact (Hn pre Hc H).
  - split; [auto|]. intros _. do 2 right. apply in_or_app. right.
    cbn. tauto.
  - split; [|tauto]. intros [H|[H|H]]; try discriminate.
    apply in_app_or in H. destruct H as [H|[H|[]]]; try discriminate.
    exact (Hn pre Hc H).
Qed.

(** X14. A call launches the process at most once and never retries: not
    at all when the stop flag is set on entry, once otherwise. *)
Theorem process_launched_once :
  spawns (snd (execute_safe cfg env))
  = if e_stop_before env then 0 else 1.
Proof.
  assert (Hsd : forall l, forallb shuts_down l = true ->
                  filter is_spawn l = []).
  { induction l as [|a l IH]; [reflexivity|]. cbn [forallb filter].
    intros H. apply andb_prop in H. destruct H as [Ha Hl].
    destruct a; cbn in Ha |- *; try discriminate; auto. }
  unfold spawns.
  destruct execute_safe_shape as
    [Hb|Hb Hs Hr Ht|Hb Hs Hr Ht|Hb Hl|pre Hb Hs Hc|pre Hb Hs Ht Hc
     |pre Hb Hs Hc|pre Hb Hx Hc|pre rc Hb Hx Hk Hrc Hc|pre cp Hb Hx Hrc Hc];
    rewrite Hb; cbn [filter is_spawn length]; try reflexivity;
    rewrite ?filter_app, (calm_no_spawn pre Hc); cbn [filter is_spawn app];
    rewrite ?(Hsd _ stop_process_shuts_down),
            ?(Hsd _ timeout_process_shuts_down);
    reflexivity.
Qed.

End WithEnvironment.


Lemma shutdown_only_on_stop_or_timeout_witness :
  stream cfg_logging = true
  /\ (fst (execute_safe cfg_logging env_times_out) = Raised STOPPED
      \/ fst (execute_safe cfg_logging env_times_out) = Raised TIMEOUT)
  /\ exists pre b block,
       snd (execute_safe cfg_logging env_times_out)
       = pre ++ ReadStop b :: block
       /\ (forall x, In x pre -> shuts_down x = false)
       /\ block = (if b then stop_process env_times_out
                   else timeout_process env_times_out)
       /\ hd_error block = Some Terminate.
Proof.
  apply (shutdown_only_on_stop_or_timeout cfg_logging env_times_out Kill).
  - reflexivity.
  - vm_compute. tauto.
Defined.

Lemma last_failed_cmd_written_iff_witness :
  writes_cmd cfg_logging (fst (execute_safe cfg_logging env_exit_one)).
Proof.
  apply (proj1 (last_failed_cmd_written_iff cfg_logging env_exit_one)).
  vm_compute. tauto.
Defined.

(** *** The search path of the child process *)

Section Pieces.

Variable sep : codepoint.

Lemma split_nonempty (s : pystr) : split sep s <> [].
Proof.
  destruct s as [|c s]; cbn [split]; [discriminate|].
  destruct (N.eqb c sep); [discriminate|]. now destruct (split sep s).
Qed.

Lemma split_pieces_free (s : pystr) :
  Forall (fun piece => ~ In sep piece) (split sep s).
Proof.
  induction s as [|c s IH]; cbn [split].
  - constructor; [intros []|constructor].
  - destruct (N.eqb_spec c sep) as [->|Hc].
    + constructor; [intros []|exact IH].
    + destruct (split sep s) as [|piece pieces].
      * constructor; [|constructor]. intros [H|[]]. congruence.
      * inversion IH as [|? ? Hp Hps]; subst. constructor; [|exact Hps].
        intros [H|H]; [congruence|auto].
Qed.

(** Joining the pieces of a split gives the string back. *)
Lemma join_split (s : pystr) : join sep (split sep s) = s.
Proof.
  induction s as [|c s IH]; [reflexivity|]. cbn [split].
  pose proof (split_nonempty s) as Hn.
  destruct (N.eqb_spec c sep) as [->|Hc].
  - cbn [join]. destruct (split sep s) as [|piece pieces]; [congruence|].
    cbn [app]. now rewrite IH.
  - destruct (split sep s) as [|piece pieces]; [congruence|].
    cbn [join] in IH |- *. destruct pieces; cbn [app]; now rewrite IH.
Qed.

Lemma split_free (piece : pystr) :
  ~ In sep piece -> split sep piece = [piece].
Proof.
  induction piece as [|c piece IH]; [reflexivity|]. intros H. cbn [split].
  destruct (N.eqb_spec c sep) as [->|_]; [exfalso; apply H; now left|].
  rewrite IH; [reflexivity|]. intros Hin. apply H. now right.
Qed.

Lemma split_app_sep (piece rest : pystr) :
  ~ In sep piece ->
  split sep (piece ++ sep :: rest) = piece :: split sep rest.
Proof.
  induction piece as [|c piece IH]; intros H; cbn [app split].
  - now rewrite N.eqb_refl.
  - destruct (N.eqb_spec c sep) as [->|_]; [exfalso; apply H; now left|].
    rewrite IH; [reflexivity|]. intros Hin. apply H. now right.
Qed.

(** Splitting a join of pieces without the separator gives the pieces
    back, unless there is none: then the split is one empty piece. *)
Lemma split_join (pieces : list pystr) :
  Forall (fun piece => ~ In sep piece) pieces ->
  split sep (join sep pieces)
  = match pieces with [] => [[]] | _ => pieces end.
Proof.
  induction 1 as [|piece pieces Hp Hps IH]; [reflexivity|].
  cbn [join]. destruct pieces as [|piece' pieces'].
  - now apply split_free.
  - rewrite (split_app_sep _ _ Hp), IH. reflexivity.
Qed.

End Pieces.

Section SearchPath.

Variable str_lower : pystr -> pystr.

Lemma clean_path_pieces (path : pystr) :
  split SEMICOLON (clean_path str_lower path)
  = match filter (keeps str_lower) (split SEMICOLON path) with
    | [] => [[]]
    | _ => filter (keeps str_lower) (split SEMICOLON path)
    end.
Proof.
  unfold clean_path. apply split_join.
  pose proof (split_pieces_free SEMICOLON path) as H.
  rewrite Forall_forall in H |- *. intros piece Hin.
  apply filter_In in Hin. now apply H.
Qed.

(** X15. After the cleaning no entry of the search path mentions [torch]
    or [cuda], in any letter case; the entries left are those of the
    original path that mention neither, in their order, and a path with
    no such entry becomes the empty path. *)
Theorem clean_path_has_no_gpu_entry (path : pystr) :
  keeps str_lower [] = true ->
  Forall (fun entry => keeps str_lower entry = true)
    (split SEMICOLON (clean_path str_lower path))
  /\ (filter (keeps str_lower) (split SEMICOLON path) <> [] ->
      split SEMICOLON (clean_path str_lower path)
      = filter (keeps str_lower) (split SEMICOLON path))
  /\ (filter (keeps str_lower) (split SEMICOLON path) = [] ->
      clean_path str_lower path = []).
Proof.
  intros H0. rewrite clean_path_pieces. unfold clean_path.
  destruct (filter (keeps str_lower) (split SEMICOLON path))
    as [|entry kept] eqn:E.
  - split; [now repeat constructor|]. split; [congruence|reflexivity].
  - split; [|split; [reflexivity|discriminate]].
    rewrite <- E, Forall_forall. intros x Hx.
    now apply filter_In in Hx.
Qed.

Lemma filter_all (A : Type) (f : A -> bool) (l : list A) :
  Forall (fun x => f x = true) l -> filter f l = l.
Proof.
  induction 1 as [|x l Hx _ IH]; [reflexivity|].
  cbn [filter]. now rewrite Hx, IH.
Qed.

(** X16. A search path none of whose entries mentions [torch] or [cuda]
    is handed on unchanged, character for character. *)
Theorem clean_path_keeps_clean_path (path : pystr) :
  Forall (fun entry => keeps str_lower entry = true) (split SEMICOLON path) ->
  clean_path str_lower path = path.
Proof.
  intros H. unfold clean_path. rewrite (filter_all _ _ _ H).
  apply join_split.
Qed.

End SearchPath.

Lemma clean_path_has_no_gpu_entry_witness :
  split SEMICOLON
    (clean_path ascii_lower
       (lit "C:\bin;C:\Torch\lib;;D:\CUDA\v11;C:\ffmpeg"))
  = [lit "C:\bin"; []; lit "C:\ffmpeg"].
Proof.
  apply (proj1 (proj2 (clean_path_has_no_gpu_entry ascii_lower
                         (lit "C:\bin;C:\Torch\lib;;D:\CUDA\v11;C:\ffmpeg")
                         eq_refl))).
  vm_compute. discriminate.
Defined.

Lemma clean_path_keeps_clean_path_witness :
  clean_path ascii_lower (lit "C:\bin;;C:\ffmpeg;")
  = lit "C:\bin;;C:\ffmpeg;".
Proof.
  apply (clean_path_keeps_clean_path ascii_lower).
  vm_compute. repeat constructor.
Defined.

(** *** The diagnostic message of a crash *)

(** X17. [clip] never returns more than [max_len] characters and the
    truncation marker, returns a text within the limit unchanged, and
    otherwise keeps exactly the first [max_len] characters before the
    marker. *)
Theorem clip_is_bounded (s : pystr) (max_len : nat) :
  length (clip (Some s) max_len) <= max_len + length TRUNCATED
  /\ firstn max_len (clip (Some s) max_len) = firstn max_len s
  /\ (if length s <=? max_len then clip (Some s) max_len = s
      else clip (Some s) max_len = firstn max_len s ++ TRUNCATED
           /\ length (clip (Some s) max_len) = max_len + length TRUNCATED).
Proof.
  unfold clip. destruct (Nat.leb_spec (length s) max_len) as [H|H].
  - repeat split. lia.
  - assert (Hl : length (firstn max_len s) = max_len)
      by (rewrite length_firstn; lia).
    rewrite length_app, Hl. repeat split; [lia|].
    rewrite firstn_app, Hl, Nat.sub_diag, firstn_firstn, Nat.min_id.
    cbn [firstn]. now rewrite app_nil_r.
Qed.

End KernelMore.

(** ** Clip synthesis loops: counts and order *)

Module OrchestratorMore.

Unset Implicit Arguments.

Import PyStr Aligner Orchestrator OrchestratorSpec OrchestratorNotions
       OrchestratorFacts Samples Loops.

(** The loops of [Loops] are those of [Orchestrator]. *)
Lemma loops_agree :
  Loops._cutting_loop = Orchestrator._cutting_loop
  /\ Loops._image_flow_loop = Orchestrator._image_flow_loop.
Proof. split; reflexivity. Qed.

Lemma count_app (f : event -> bool) (n1 n2 : list event) :
  count f (n1 ++ n2) = count f n1 + count f n2.
Proof. unfold count. now rewrite filter_app, length_app. Qed.

Lemma still_nil : still [].
Proof. now repeat split. Qed.

Lemma still_app (n1 n2 : list event) : still n1 -> still n2 -> still (n1 ++ n2).
Proof.
  unfold still, clips, skips, stops. intros (A1 & B1 & C1) (A2 & B2 & C2).
  rewrite !count_app. lia.
Qed.

Lemma still_one (e : event) :
  is_clip e = false -> is_skip e = false -> is_stop e = false -> still [e].
Proof.
  intros H1 H2 H3. unfold still, clips, skips, stops, count. cbn [filter].
  now rewrite H1, H2, H3.
Qed.

Lemma still_ret {A : Type} (a : A) : emits (ret a) Still.
Proof. apply emits_ret, still_nil. Qed.

Lemma still_raise {A : Type} (e : exn) : emits (@raise A e) Still.
Proof. apply emits_raise, still_nil. Qed.

Lemma still_bind {A B : Type} (m : M A) (k : A -> M B) :
  emits m Still -> (forall a, emits (k a) Still) -> emits (bind m k) Still.
Proof.
  intros Hm Hk.
  apply emits_bind with (Q1 := Still) (Q2 := fun _ => Still); auto.
  intros a n1 r n2. apply still_app.
Qed.

Lemma still_try {A : Type} (m : M A) (handler : exn -> M A) :
  emits m Still -> (forall e, emits (handler e) Still) ->
  emits (try_except m handler) Still.
Proof.
  intros Hm Hh.
  apply emits_try with (Q1 := Still) (Q2 := fun _ => Still); auto.
  intros e n1 r n2. apply still_app.
Qed.

Lemma tallied_after_still {A : Type} (m : M A) (k : A -> M nat)
    (len processed : nat) :
  emits m Still -> (forall a, emits (k a) (tallied len processed)) ->
  emits (bind m k) (tallied len processed).
Proof.
  intros Hm Hk.
  apply emits_bind with (Q1 := Still) (Q2 := fun _ => tallied len processed);
    auto.
  - intros e n (A1 & B1 & C1). unfold tallied. split; [lia|discriminate].
  - intros a n1 r n2 (A1 & B1 & C1) (H1 & H2). unfold tallied in *.
    unfold clips, skips, stops in *. rewrite !count_app.
    split; [lia|]. intros j Hj. destruct (H2 j Hj) as [-> H3].
    split; [lia|]. intros Hs. lia.
Qed.

Section WithEnvironment.

Variable ffmpeg_runner : history -> list pystr -> option exn.
Variable stop_check : history -> bool.
Variable gc_func : bool.
Variable os_makedirs : history -> pystr -> option exn.
Variable find_video_by_vid_any_ext :
  history -> pystr -> Z -> result (option pystr).
Variable ffprobe_has_video_stream : history -> pystr -> bool.
Variable make_image_clip : history -> clip_args -> option exn.
Variable str_float : float -> pystr.
Variable path_join : pystr -> pystr -> pystr.
Variable path_dirname : pystr -> pystr.

Ltac still_event e :=
  let h := fresh "h" in
  intros h; exists [e h]; split; [reflexivity|now apply still_one].

Lemma still_gc : emits do_gc Still.
Proof. still_event (fun _ : history => Gc). Qed.

Lemma still_makedirs (path : pystr) :
  emits (do_makedirs os_makedirs path) Still.
Proof. still_event (fun h => Makedirs path (os_makedirs h path)). Qed.

Lemma still_runner (argv : list pystr) :
  emits (call_runner ffmpeg_runner argv) Still.
Proof. still_event (fun h => RunnerCall argv (ffmpeg_runner h argv)). Qed.

Lemma still_find_video (dir : pystr) (vid : Z) :
  emits (do_find_video find_video_by_vid_any_ext dir vid) Still.
Proof.
  still_event (fun h => FindVideo dir vid (find_video_by_vid_any_ext h dir vid)).
Qed.

Lemma still_probe (path : pystr) :
  emits (do_probe ffprobe_has_video_stream path) Still.
Proof. still_event (fun h => Probe path (ffprobe_has_video_stream h path)). Qed.

Lemma still_make_image_clip (args : clip_args) :
  emits (do_make_image_clip make_image_clip args) Still.
Proof. still_event (fun h => MakeImageClip args (make_image_clip h args)). Qed.

Lemma still_cut_video (cmd : list pystr) :
  emits (cut_video ffmpeg_runner cmd) Still.
Proof.
  unfold cut_video. apply still_try; [apply still_runner|].
  intros _. destruct (rebuild_aac cmd); [apply still_runner|apply still_raise].
Qed.

Lemma still_render_image (canvas_w canvas_h : Z)
    (enc_name enc_preset effect_type picked v_out : pystr) (duration : float) :
  emits (render_image make_image_clip canvas_w canvas_h
           enc_name enc_preset effect_type picked v_out duration) Still.
Proof.
  unfold render_image. apply still_try; [apply still_make_image_clip|].
  intros _. apply still_make_image_clip.
Qed.

Lemma still_pick_visual (files : list pystr) (left : nat) :
  forall cursor,
    emits (pick_visual ffprobe_has_video_stream files left cursor) Still.
Proof.
  induction left as [|left IH]; intros cursor; cbn [pick_visual].
  - apply still_ret.
  - apply still_bind; [apply still_probe|].
    intros [|]; [apply still_ret|apply IH].
Qed.

Lemma still_periodic_gc (c : bool) :
  emits (if c then do_gc else ret tt) Still.
Proof. destruct c; [apply still_gc|apply still_ret]. Qed.

(** The stop check at the head of an iteration. *)
Lemma tallied_stop_check (len processed : nat) (body : M nat) :
  emits body (tallied len processed) ->
  emits (bind (do_stop_check stop_check)
              (fun stopped : bool =>
                 if stopped
                 then bind (do_log LogStopped) (fun _ => ret processed)
                 else body))
        (tallied len processed).
Proof.
  intros Hbody h. unfold bind at 1. unfold do_stop_check. cbn.
  destruct (stop_check h).
  - exists [StopCheck true; Log LogStopped]. cbn.
    rewrite <- app_assoc. split; [reflexivity|]. split; [cbn; lia|].
    intros k [= <-]. split; [cbn; lia|]. cbn. discriminate.
  - destruct (Hbody (h ++ [StopCheck false])) as (n & E & P).
    exists (StopCheck false :: n). split; [rewrite E; now rewrite <- !app_assoc|]. exact P.
Qed.

(** The audio cut: a failure is logged and gives the segment up. *)
Lemma tallied_audio_cut (argv : list pystr) (vid : Z) (k : bool -> M nat)
    (len processed : nat) :
  emits (k true) (tallied (S len) processed) ->
  emits (k false) (tallied len processed) ->
  emits (bind (try_except
                 (bind (call_runner ffmpeg_runner argv) (fun _ => ret true))
                 (fun audio_err =>
                    bind (do_log (LogAudioFailed vid audio_err))
                         (fun _ => ret false)))
              k)
        (tallied (S len) processed).
Proof.
  intros Ht Hf h. unfold bind, try_except, call_runner, do_log, ret. cbn.
  destruct (ffmpeg_runner h argv) as [e|]; cbn.
  - destruct (Hf ((h ++ [RunnerCall argv (Some e)])
                    ++ [Log (LogAudioFailed vid e)])) as (n & E & H1 & H2).
    exists (RunnerCall argv (Some e) :: Log (LogAudioFailed vid e) :: n).
    split; [rewrite E; now rewrite <- !app_assoc|].
    unfold tallied, clips, skips, stops, count in *.
    cbn [filter is_clip is_skip is_stop length].
    split; [lia|]. intros j Hj. destruct (H2 j Hj) as [-> H3].
    split; [reflexivity|]. intros Hs. specialize (H3 Hs). lia.
  - destruct (Ht (h ++ [RunnerCall argv None])) as (n & E & P).
    exists (RunnerCall argv None :: n).
    split; [rewrite E; now rewrite <- !app_assoc|]. exact P.
Qed.

(** The log line of a segment that was cut. *)
Lemma tallied_clip (idx total : nat) (vid : Z) (kind : clip_kind)
    (duration : float) (text : pystr) (k : M nat) (len processed : nat) :
  emits k (tallied len (S processed)) ->
  emits (bind (do_log (LogClip idx total vid kind duration text))
              (fun _ => k))
        (tallied (S len) processed).
Proof.
  intros Hk h. unfold bind, do_log. cbn.
  destruct (Hk (h ++ [Log (LogClip idx total vid kind duration text)]))
    as (n & E & H1 & H2).
  exists (Log (LogClip idx total vid kind duration text) :: n).
  split; [rewrite E; now rewrite <- !app_assoc|].
  unfold tallied, clips, skips, stops, count in *.
  cbn [filter is_clip is_skip is_stop length].
  split; [lia|]. intros j Hj. destruct (H2 j Hj) as [-> H3].
  split; [lia|]. intros Hs. specialize (H3 Hs). lia.
Qed.

(** The log line of a segment without a readable visual file. *)
Lemma tallied_no_visual (vid : Z) (k : M nat) (len processed : nat) :
  emits k (tallied len processed) ->
  emits (bind (do_log (LogNoVisual vid)) (fun _ => k))
        (tallied (S len) processed).
Proof.
  intros Hk h. unfold bind, do_log. cbn.
  destruct (Hk (h ++ [Log (LogNoVisual vid)])) as (n & E & H1 & H2).
  exists (Log (LogNoVisual vid) :: n).
  split; [rewrite E; now rewrite <- !app_assoc|].
  unfold tallied, clips, skips, stops, count in *.
  cbn [filter is_clip is_skip is_stop length].
  split; [lia|]. intros j Hj. destruct (H2 j Hj) as [-> H3].
  split; [lia|]. intros Hs. specialize (H3 Hs). lia.
Qed.

Section CuttingLoop.

Variables (total : nat) (audio_path video_source_dir out_aud out_vid : pystr)
          (enc_name enc_preset : pystr) (ffmpeg_threads : list pystr).

Lemma cutting_for_tallied (matches : list matched) :
  forall idx processed,
    emits (Loops.cutting_for ffmpeg_runner stop_check gc_func os_makedirs
             find_video_by_vid_any_ext str_float path_join path_dirname
             total audio_path video_source_dir out_aud out_vid
             enc_name enc_preset ffmpeg_threads idx matches processed)
          (tallied (length matches) processed).
Proof.
  induction matches as [|[[[vid s_time] e_time] text] rest IH];
    intros idx processed.
  - apply emits_ret. unfold tallied. cbn. split; [lia|].
    intros k [= <-]. lia.
  - cbn [Loops.cutting_for length].
    apply tallied_stop_check.
    apply tallied_after_still; [apply still_periodic_gc|intros _].
    apply tallied_after_still; [apply still_makedirs|intros _].
    apply tallied_audio_cut; cbn [negb]; [|apply IH].
    apply tallied_after_still; [apply still_find_video|intros video_src].
    destruct video_src as [[|c src]|].
    + apply tallied_clip, IH.
    + apply tallied_after_still; [apply still_cut_video|intros _].
      apply tallied_clip, IH.
    + apply tallied_clip, IH.
Qed.

End CuttingLoop.

(** X19. The count returned by [_cutting_loop] is the number of segments
    it logged as cut; every segment is logged at most once, as cut or as
    an audio failure; and when the loop returns without a stop request
    every segment has been logged one way or the other. *)
Theorem cutting_loop_counts_clips (matches : list matched)
    (audio_path video_source_dir out_aud out_vid enc_name enc_preset : pystr)
    (ffmpeg_threads : list pystr) :
  emits (Loops._cutting_loop ffmpeg_runner stop_check gc_func os_makedirs
           find_video_by_vid_any_ext str_float path_join path_dirname
           matches audio_path video_source_dir out_aud out_vid
           enc_name enc_preset ffmpeg_threads)
        (tallied (length matches) 0).
Proof. unfold Loops._cutting_loop. apply cutting_for_tallied. Qed.

Section ImageFlowLoop.

Variables (total : nat) (audio_path out_aud out_vid : pystr)
          (files : list pystr) (canvas_w canvas_h : Z)
          (enc_name enc_preset effect_type : pystr).

Lemma image_for_tallied (matches : list matched) :
  forall idx cursor processed,
    emits (Loops.image_for ffmpeg_runner stop_check gc_func ffprobe_has_video_stream
             make_image_clip str_float path_join
             total audio_path out_aud out_vid files canvas_w canvas_h
             enc_name enc_preset effect_type idx matches cursor processed)
          (tallied (length matches) processed).
Proof.
  induction matches as [|[[[vid s_time] e_time] text] rest IH];
    intros idx cursor processed.
  - apply emits_ret. unfold tallied. cbn. split; [lia|].
    intros k [= <-]. lia.
  - cbn [Loops.image_for length].
    apply tallied_stop_check.
    apply tallied_after_still; [apply still_periodic_gc|intros _].
    apply tallied_audio_cut; cbn [negb]; [|apply IH].
    apply tallied_after_still; [apply still_pick_visual|intros [picked cursor']].
    destruct picked as [[|c picked]|].
    + apply tallied_no_visual, IH.
    + apply tallied_after_still; [apply still_render_image|intros _].
      apply tallied_clip, IH.
    + apply tallied_no_visual, IH.
Qed.

(** X18. The search for a readable visual file probes the files in
    round-robin order from the cursor on, at most [left] of them; it stops
    at the first readable one and returns it, or returns nothing after
    [left] unreadable ones; and the cursor it returns has moved by the
    number of files probed. *)
Theorem pick_visual_round_robin (left : nat) :
  forall cursor,
    emits (pick_visual ffprobe_has_video_stream files left cursor)
          (picks files left cursor).
Proof.
  induction left as [|left IH]; intros cursor; cbn [pick_visual].
  - apply emits_ret. exists 0, false. cbn. now rewrite !Nat.add_0_r.
  - intros h. unfold bind, do_probe. cbn.
    destruct (ffprobe_has_video_stream h
                (nth (cursor mod length files) files [])) eqn:R.
    + exists [Probe (nth (cursor mod length files) files []) true].
      split; [reflexivity|]. exists 0, true. cbn [repeat app probe_events].
      rewrite !Nat.add_0_r, Nat.add_1_r. repeat split. lia.
    + destruct (IH (S cursor)
                  (h ++ [Probe (nth (cursor mod length files) files []) false]))
        as (n & E & misses & hit & Hn & Hr & Hl).
      exists (Probe (nth (cursor mod length files) files []) false :: n).
      split; [rewrite E; now rewrite <- !app_assoc|].
      exists (S misses), hit. cbn [repeat app probe_events]. rewrite Hn, Hr.
      replace (S cursor + misses) with (cursor + S misses) by lia.
      repeat split. destruct hit; lia.
Qed.

End ImageFlowLoop.

(** X20. The count returned by [_image_flow_loop] is the number of segments
    it logged as cut; every segment is logged at most once, as cut, as an
    audio failure or as lacking a readable visual file; and when the loop
    returns without a stop request every segment has been logged. *)
Theorem image_flow_loop_counts_clips (matches : list matched)
    (audio_path out_aud out_vid : pystr) (files : list pystr)
    (start_idx : nat) (canvas_w canvas_h : Z)
    (enc_name enc_preset effect_type : pystr) :
  emits (Loops._image_flow_loop ffmpeg_runner stop_check gc_func
           ffprobe_has_video_stream make_image_clip str_float path_join
           matches audio_path out_aud out_vid files start_idx
           canvas_w canvas_h enc_name enc_preset effect_type)
        (tallied (length matches) 0).
Proof. unfold Loops._image_flow_loop. apply image_for_tallied. Qed.

(** *** Runs without failures *)

Section Entries.

Variables (X : Type) (f : event -> list X).

Lemma returns_ret {A : Type} (a : A) : emits (ret a) (returns f a []).
Proof. apply emits_ret. now split. Qed.

Lemma returns_bind {A B : Type} (m : M A) (k : A -> M B) (a : A) (b : B)
    (l1 l2 : list X) :
  emits m (returns f a l1) -> emits (k a) (returns f b l2) ->
  emits (bind m k) (returns f b (l1 ++ l2)).
Proof.
  intros Hm Hk h. unfold bind.
  destruct (Hm h) as (n1 & E1 & R1 & L1).
  destruct (m h) as [r h1]. cbn in E1, R1. subst r h1.
  destruct (Hk (h ++ n1)) as (n2 & E2 & R2 & L2).
  exists (n1 ++ n2). rewrite E2, app_assoc. split; [reflexivity|].
  split; [exact R2|]. now rewrite flat_map_app, L1, L2.
Qed.

Lemma returns_after {A B : Type} (m : M A) (k : A -> M B) (b : B)
    (l1 l2 : list X) :
  emits m (succeeds f l1) -> (forall a, emits (k a) (returns f b l2)) ->
  emits (bind m k) (returns f b (l1 ++ l2)).
Proof.
  intros Hm Hk h. unfold bind.
  destruct (Hm h) as (n1 & E1 & (a & R1) & L1).
  destruct (m h) as [r h1]. cbn in E1, R1. subst r h1.
  destruct (Hk a (h ++ n1)) as (n2 & E2 & R2 & L2).
  exists (n1 ++ n2). rewrite E2, app_assoc. split; [reflexivity|].
  split; [exact R2|]. now rewrite flat_map_app, L1, L2.
Qed.

Lemma returns_succeeds {A : Type} (m : M A) (a : A) (l : list X) :
  emits m (returns f a l) -> emits m (succeeds f l).
Proof.
  intros H. eapply emits_weaken; [exact H|].
  intros r n [-> L]. split; [now exists a|exact L].
Qed.

(** A body that ends normally never enters its handler. *)
Lemma succeeds_try {A : Type} (m : M A) (handler : exn -> M A)
    (l : list X) :
  emits m (succeeds f l) -> emits (try_except m handler) (succeeds f l).
Proof.
  intros Hm h. unfold try_except.
  destruct (Hm h) as (n & E & (a & R) & L).
  destruct (m h) as [r h1]. cbn in E, R. subst r h1.
  exists n. cbn. repeat split; [now exists a|exact L].
Qed.

Lemma returns_try {A : Type} (m : M A) (handler : exn -> M A) (a : A)
    (l : list X) :
  emits m (returns f a l) -> emits (try_except m handler) (returns f a l).
Proof.
  intros Hm h. unfold try_except.
  destruct (Hm h) as (n & E & R & L).
  destruct (m h) as [r h1]. cbn in E, R. subst r h1.
  exists n. cbn. now repeat split.
Qed.

(** A call that ends normally and leaves one event behind. *)
Lemma succeeds_event {A : Type} (m : M A) (val : history -> A)
    (ev : history -> event) (l : list X) :
  (forall h, m h = (Ok (val h), h ++ [ev h])) ->
  (forall h, f (ev h) = l) ->
  emits m (succeeds f l).
Proof.
  intros Hm Hf h. exists [ev h]. rewrite Hm. unfold succeeds.
  cbn [fst snd flat_map].
  split; [reflexivity|]. split; [now exists (val h)|].
  now rewrite Hf, app_nil_r.
Qed.

Lemma returns_event {A : Type} (m : M A) (a : A)
    (ev : history -> event) (l : list X) :
  (forall h, m h = (Ok a, h ++ [ev h])) ->
  (forall h, f (ev h) = l) ->
  emits m (returns f a l).
Proof.
  intros Hm Hf h. exists [ev h]. rewrite Hm. unfold returns.
  cbn [fst snd flat_map].
  split; [reflexivity|]. split; [reflexivity|].
  now rewrite Hf, app_nil_r.
Qed.

End Entries.

Section WithoutFailures.

Hypothesis never_stopped : forall h, stop_check h = false.
Hypothesis runner_succeeds : forall h argv, ffmpeg_runner h argv = None.
Hypothesis makedirs_succeeds : forall h path, os_makedirs h path = None.
Hypothesis find_video_returns :
  forall h dir vid, exists found,
    find_video_by_vid_any_ext h dir vid = Ok found.
Hypothesis every_file_readable :
  forall h path, ffprobe_has_video_stream h path = true.
Hypothesis image_clip_succeeds : forall h args, make_image_clip h args = None.

Section Entries.

Variables (X : Type) (f : event -> list X) (on_runner : list pystr -> list X).
Hypothesis f_stop_check : forall b, f (StopCheck b) = [].
Hypothesis f_gc : f Gc = [].
Hypothesis f_runner : forall argv r, f (RunnerCall argv r) = on_runner argv.
Hypothesis f_makedirs : forall path r, f (Makedirs path r) = [].
Hypothesis f_find_video : forall dir vid r, f (FindVideo dir vid r) = [].

Lemma stop_check_passes : emits (do_stop_check stop_check) (returns f false []).
Proof.
  apply returns_event with (ev := fun _ => StopCheck false); [|auto].
  intros h. unfold do_stop_check. now rewrite never_stopped.
Qed.

Lemma periodic_gc_succeeds (c : bool) :
  emits (if c then do_gc else ret tt) (succeeds f []).
Proof.
  destruct c.
  - now apply succeeds_event with (val := fun _ => tt) (ev := fun _ => Gc).
  - eapply returns_succeeds, returns_ret.
Qed.

Lemma runner_call_succeeds (argv : list pystr) :
  emits (call_runner ffmpeg_runner argv) (returns f tt (on_runner argv)).
Proof.
  apply returns_event with (ev := fun _ => RunnerCall argv None); [|auto].
  intros h. unfold call_runner. now rewrite runner_succeeds.
Qed.

Lemma cut_video_succeeds (cmd : list pystr) :
  emits (cut_video ffmpeg_runner cmd) (succeeds f (on_runner cmd)).
Proof.
  unfold cut_video. apply succeeds_try.
  eapply returns_succeeds, runner_call_succeeds.
Qed.

(** The head of an iteration: the stop check and the periodic collection. *)
Lemma iteration_goes_on (gc : bool) (stopped_here body : M nat) (v : nat)
    (l : list X) :
  emits body (returns f v l) ->
  emits (bind (do_stop_check stop_check)
           (fun stopped : bool =>
              if stopped then stopped_here
              else bind (if gc then do_gc else ret tt) (fun _ => body)))
        (returns f v l).
Proof.
  intros Hbody.
  apply (returns_bind _ f _ _ false v [] l); [apply stop_check_passes|].
  apply (returns_after _ f _ _ v [] l); [apply periodic_gc_succeeds|].
  intros _. exact Hbody.
Qed.

(** The audio cut goes through and the segment goes on to its video. *)
Lemma audio_cut_goes_on (argv : list pystr) (vid : Z) (k : bool -> M nat)
    (v : nat) (l : list X) :
  emits (k true) (returns f v l) ->
  emits (bind (try_except
                 (bind (call_runner ffmpeg_runner argv) (fun _ => ret true))
                 (fun audio_err =>
                    bind (do_log (LogAudioFailed vid audio_err))
                         (fun _ => ret false)))
              k)
        (returns f v (on_runner argv ++ l)).
Proof.
  intros Hk.
  apply (returns_bind _ f _ _ true v (on_runner argv) l); [|exact Hk].
  apply returns_try. rewrite <- (app_nil_r (on_runner argv)).
  apply (returns_bind _ f _ _ tt true (on_runner argv) []);
    [apply runner_call_succeeds|apply returns_ret].
Qed.

Lemma makedirs_call_succeeds (path : pystr) :
  emits (do_makedirs os_makedirs path) (succeeds f []).
Proof.
  apply succeeds_event
    with (val := fun _ => tt) (ev := fun _ => Makedirs path None); [|auto].
  intros h. unfold do_makedirs. now rewrite makedirs_succeeds.
Qed.

Lemma find_video_call_succeeds (dir : pystr) (vid : Z) :
  emits (do_find_video find_video_by_vid_any_ext dir vid) (succeeds f []).
Proof.
  intros h. exists [FindVideo dir vid (find_video_by_vid_any_ext h dir vid)].
  split; [reflexivity|]. split.
  - unfold do_find_video. cbn [fst]. apply find_video_returns.
  - cbn [flat_map]. now rewrite f_find_video.
Qed.

End Entries.

Section CuttingLoop.

Variables (total : nat) (audio_path video_source_dir out_aud out_vid : pystr)
          (enc_name enc_preset : pystr) (ffmpeg_threads : list pystr).

Lemma log_clip_entry (idx : nat) (vid : Z) (kind : clip_kind)
    (duration : float) (text : pystr) :
  emits (do_log (LogClip idx total vid kind duration text))
        (succeeds clip_entry [(idx, total, vid)]).
Proof.
  now apply succeeds_event
    with (val := fun _ => tt)
         (ev := fun _ => Log (LogClip idx total vid kind duration text)).
Qed.

Lemma cutting_for_without_failures (matches : list matched) :
  forall idx processed,
    emits (Loops.cutting_for ffmpeg_runner stop_check gc_func os_makedirs
             find_video_by_vid_any_ext str_float path_join path_dirname
             total audio_path video_source_dir out_aud out_vid
             enc_name enc_preset ffmpeg_threads idx matches processed)
          (returns clip_entry (processed + length matches)
             (numbered idx total matches)).
Proof.
  induction matches as [|[[[vid s_time] e_time] text] rest IH];
    intros idx processed.
  - cbn [Loops.cutting_for length numbered]. rewrite Nat.add_0_r.
    apply returns_ret.
  - cbn [Loops.cutting_for length numbered].
    apply (iteration_goes_on _ clip_entry); try reflexivity.
    apply (returns_after _ clip_entry _ _ _ []
             ((idx, total, vid) :: numbered (S idx) total rest));
      [apply (makedirs_call_succeeds _ clip_entry); reflexivity|intros _].
    apply (audio_cut_goes_on _ clip_entry (fun _ => [])); try reflexivity.
    cbn [negb].
    replace (processed + S (length rest))
      with (S processed + length rest) by lia.
    apply (returns_after _ clip_entry _ _ _ []
             ((idx, total, vid) :: numbered (S idx) total rest));
      [apply (find_video_call_succeeds _ clip_entry); reflexivity|intros video_src].
    destruct video_src as [[|c src]|].
    + apply (returns_after _ clip_entry _ _ _ [(idx, total, vid)]);
        [apply log_clip_entry|intros _; apply IH].
    + apply (returns_after _ clip_entry _ _ _ []
               ((idx, total, vid) :: numbered (S idx) total rest));
        [apply (cut_video_succeeds _ clip_entry (fun _ => [])); reflexivity|intros _].
      apply (returns_after _ clip_entry _ _ _ [(idx, total, vid)]);
        [apply log_clip_entry|intros _; apply IH].
    + apply (returns_after _ clip_entry _ _ _ [(idx, total, vid)]);
        [apply log_clip_entry|intros _; apply IH].
Qed.

End CuttingLoop.

(** X21. When no stop is requested and no call fails, [_cutting_loop]
    returns the number of segments and logs every segment as cut, in
    the order of the matches, numbered from 1 and with the number of
    segments as the total. *)
Theorem cutting_loop_without_failures (matches : list matched)
    (audio_path video_source_dir out_aud out_vid enc_name enc_preset : pystr)
    (ffmpeg_threads : list pystr) :
  emits (Loops._cutting_loop ffmpeg_runner stop_check gc_func os_makedirs
           find_video_by_vid_any_ext str_float path_join path_dirname
           matches audio_path video_source_dir out_aud out_vid
           enc_name enc_preset ffmpeg_threads)
        (fun r n =>
           r = Ok (length matches)
           /\ clip_log n = numbered 1 (length matches) matches).
Proof.
  unfold Loops._cutting_loop.
  apply (cutting_for_without_failures (length matches) audio_path
           video_source_dir out_aud out_vid enc_name enc_preset
           ffmpeg_threads matches 1 0).
Qed.

Section CuttingCommands.

Variable lookup : Z -> option pystr.
Variables (total : nat) (audio_path video_source_dir out_aud out_vid : pystr)
          (enc_name enc_preset : pystr) (ffmpeg_threads : list pystr).

Hypothesis find_video_is :
  forall h vid,
    find_video_by_vid_any_ext h video_source_dir vid = Ok (lookup vid).

Lemma find_video_call_returns (vid : Z) :
  emits (do_find_video find_video_by_vid_any_ext video_source_dir vid)
        (returns runner_entry (lookup vid) []).
Proof.
  apply returns_event
    with (ev := fun _ => FindVideo video_source_dir vid (Ok (lookup vid)));
    [|reflexivity].
  intros h. unfold do_find_video. now rewrite find_video_is.
Qed.

Lemma log_no_command (m : log_msg) :
  emits (do_log m) (succeeds runner_entry []).
Proof.
  now apply succeeds_event with (val := fun _ => tt) (ev := fun _ => Log m).
Qed.

Lemma cutting_for_commands (matches : list matched) :
  forall idx processed,
    emits (Loops.cutting_for ffmpeg_runner stop_check gc_func os_makedirs
             find_video_by_vid_any_ext str_float path_join path_dirname
             total audio_path video_source_dir out_aud out_vid
             enc_name enc_preset ffmpeg_threads idx matches processed)
          (returns runner_entry (processed + length matches)
             (flat_map (segment_commands str_float path_join lookup
                          audio_path out_aud out_vid enc_name enc_preset
                          ffmpeg_threads) matches)).
Proof.
  induction matches as [|[[[vid s_time] e_time] text] rest IH];
    intros idx processed.
  - cbn [Loops.cutting_for length flat_map]. rewrite Nat.add_0_r.
    apply returns_ret.
  - cbn [Loops.cutting_for length flat_map segment_commands].
    apply (iteration_goes_on _ runner_entry); try reflexivity.
    apply (returns_after _ runner_entry _ _ _ []);
      [apply (makedirs_call_succeeds _ runner_entry); reflexivity|intros _].
    cbn [app].
    apply (audio_cut_goes_on _ runner_entry (fun argv => [argv]));
      try reflexivity.
    cbn [negb].
    replace (processed + S (length rest))
      with (S processed + length rest) by lia.
    apply (returns_bind _ runner_entry _ _ (lookup vid) _ []);
      [apply find_video_call_returns|].
    destruct (lookup vid) as [[|c src]|].
    + apply (returns_after _ runner_entry _ _ _ []);
        [apply log_no_command|intros _; apply IH].
    + cbn [app].
      apply (returns_after _ runner_entry _ _ _ [_]);
        [apply (cut_video_succeeds _ runner_entry (fun argv => [argv]));
         reflexivity|intros _].
      apply (returns_after _ runner_entry _ _ _ []);
        [apply log_no_command|intros _; apply IH].
    + apply (returns_after _ runner_entry _ _ _ []);
        [apply log_no_command|intros _; apply IH].
Qed.

End CuttingCommands.

(** X23. When no stop is requested and no call fails, the commands that
    [_cutting_loop] hands to the transcoder are, segment by segment in
    the order of the matches, the audio cut of the segment into
    [<out_aud>/<id>.mp3] and, when a video was found for its id, the cut
    of that very file into [<out_vid>/<id>.mp4] with the audio stream
    copied; no other command is run. *)
Theorem cutting_loop_commands (lookup : Z -> option pystr)
    (matches : list matched)
    (audio_path video_source_dir out_aud out_vid enc_name enc_preset : pystr)
    (ffmpeg_threads : list pystr) :
  (forall h vid,
     find_video_by_vid_any_ext h video_source_dir vid = Ok (lookup vid)) ->
  emits (Loops._cutting_loop ffmpeg_runner stop_check gc_func os_makedirs
           find_video_by_vid_any_ext str_float path_join path_dirname
           matches audio_path video_source_dir out_aud out_vid
           enc_name enc_preset ffmpeg_threads)
        (fun r n =>
           r = Ok (length matches)
           /\ commands n
              = flat_map (segment_commands str_float path_join lookup
                            audio_path out_aud out_vid enc_name enc_preset
                            ffmpeg_threads) matches).
Proof.
  intros Hfind. unfold Loops._cutting_loop.
  apply (cutting_for_commands lookup (length matches) audio_path
           video_source_dir out_aud out_vid enc_name enc_preset
           ffmpeg_threads Hfind matches 1 0).
Qed.

Section ImageFlowLoop.

Variables (total : nat) (audio_path out_aud out_vid : pystr)
          (files : list pystr) (canvas_w canvas_h : Z)
          (enc_name enc_preset effect_type : pystr).

Hypothesis some_file : files <> [].
Hypothesis files_named : Forall (fun path => path <> []) files.

Lemma round_robin_next (cursor count : nat) :
  round_robin files cursor (S count)
  = nth (cursor mod length files) files []
    :: round_robin files (S cursor) count.
Proof.
  unfold round_robin. cbn [seq map]. rewrite Nat.add_0_r. f_equal.
  rewrite <- seq_shift, map_map. apply map_ext. intros i.
  now rewrite Nat.add_succ_r.
Qed.

Lemma file_in_turn (cursor : nat) :
  nth (cursor mod length files) files [] <> [].
Proof.
  rewrite Forall_forall in files_named. apply files_named, nth_In.
  apply Nat.mod_upper_bound. now destruct files.
Qed.

Lemma first_probe_picks (cursor : nat) :
  emits (pick_visual ffprobe_has_video_stream files (length files) cursor)
        (returns image_entry
           (Some (nth (cursor mod length files) files []), S cursor) []).
Proof.
  assert (Hl : exists left, length files = S left).
  { destruct files as [|file rest]; [congruence|]. now exists (length rest). }
  destruct Hl as [left Hl]. rewrite Hl at 1. cbn [pick_visual].
  apply (returns_bind _ image_entry _ _ true _ [] []).
  - apply returns_event
      with (ev := fun _ => Probe (nth (cursor mod length files) files []) true);
      [|reflexivity].
    intros h. unfold do_probe. now rewrite every_file_readable.
  - apply returns_ret.
Qed.

Lemma render_image_entry (picked v_out : pystr) (duration : float) :
  emits (render_image make_image_clip canvas_w canvas_h
           enc_name enc_preset effect_type picked v_out duration)
        (succeeds image_entry [picked]).
Proof.
  unfold render_image. apply succeeds_try.
  apply succeeds_event
    with (val := fun _ => tt)
         (ev := fun _ => MakeImageClip
                           (clip canvas_w canvas_h effect_type picked v_out
                              duration enc_name enc_preset) None);
    [|reflexivity].
  intros h. unfold do_make_image_clip. now rewrite image_clip_succeeds.
Qed.

Lemma image_for_without_failures (matches : list matched) :
  forall idx cursor processed,
    emits (Loops.image_for ffmpeg_runner stop_check gc_func ffprobe_has_video_stream
             make_image_clip str_float path_join
             total audio_path out_aud out_vid files canvas_w canvas_h
             enc_name enc_preset effect_type idx matches cursor processed)
          (returns image_entry (processed + length matches)
             (round_robin files cursor (length matches))).
Proof.
  induction matches as [|[[[vid s_time] e_time] text] rest IH];
    intros idx cursor processed.
  - cbn [Loops.image_for length]. rewrite Nat.add_0_r. apply returns_ret.
  - cbn [Loops.image_for length]. rewrite round_robin_next.
    apply (iteration_goes_on _ image_entry); try reflexivity.
    apply (audio_cut_goes_on _ image_entry (fun _ => [])); try reflexivity.
    cbn [negb].
    replace (processed + S (length rest))
      with (S processed + length rest) by lia.
    apply (returns_bind _ image_entry _ _ _ _ [] _ (first_probe_picks cursor)).
    pose proof (file_in_turn cursor) as Hp.
    destruct (nth (cursor mod length files) files []) as [|c picked];
      [congruence|].
    apply (returns_after _ image_entry _ _ _ [c :: picked]);
      [apply render_image_entry|intros _].
    apply (returns_after _ image_entry _ _ _ []).
    + now apply succeeds_event
        with (val := fun _ => tt)
             (ev := fun _ => Log (LogClip idx total vid AudioImage
                                    (max_tenth (e_time - s_time))
                                    (text_display text))).
    + intros _. apply IH.
Qed.

End ImageFlowLoop.

(** X22. When no stop is requested, no call fails and every visual file is
    readable, [_image_flow_loop] returns the number of segments and gives
    the segments the files in round-robin order from [start_idx] on: one
    file per segment, starting over at the end of the list. *)
Theorem image_flow_loop_round_robin (matches : list matched)
    (audio_path out_aud out_vid : pystr) (files : list pystr)
    (start_idx : nat) (canvas_w canvas_h : Z)
    (enc_name enc_preset effect_type : pystr) :
  files <> [] ->
  Forall (fun path => path <> []) files ->
  emits (Loops._image_flow_loop ffmpeg_runner stop_check gc_func
           ffprobe_has_video_stream make_image_clip str_float path_join
           matches audio_path out_aud out_vid files start_idx
           canvas_w canvas_h enc_name enc_preset effect_type)
        (fun r n =>
           r = Ok (length matches)
           /\ images n = round_robin files start_idx (length matches)).
Proof.
  intros Hf Hn. unfold Loops._image_flow_loop.
  apply (image_for_without_failures (length matches) audio_path out_aud
           out_vid files canvas_w canvas_h enc_name enc_preset effect_type
           Hf Hn matches 1 start_idx 0).
Qed.

End WithoutFailures.

End WithEnvironment.

Lemma cutting_loop_without_failures_witness :
  emits (Loops._cutting_loop runner_ok never_stopped true makedirs_ok
           video_present str_float_sample posix_join posix_dirname
           two_matches (lit "in.wav") (lit "videos") (lit "out/audios")
           (lit "out/videos") (lit "h264_nvenc") (lit "p1")
           [lit "-threads"; lit "0"])
        (fun r n => r = Ok 2 /\ clip_log n = [(1, 2, 1%Z); (2, 2, 2%Z)]).
Proof.
  apply (cutting_loop_without_failures runner_ok never_stopped true
           makedirs_ok video_present str_float_sample posix_join
           posix_dirname
           (fun _ => eq_refl) (fun _ _ => eq_refl) (fun _ _ => eq_refl)
           (fun h dir vid => ex_intro _ _ eq_refl)
           two_matches (lit "in.wav") (lit "videos") (lit "out/audios")
           (lit "out/videos") (lit "h264_nvenc") (lit "p1")
           [lit "-threads"; lit "0"]).
Defined.

Lemma cutting_loop_commands_witness :
  emits (Loops._cutting_loop runner_ok never_stopped true makedirs_ok
           video_present str_float_sample posix_join posix_dirname
           two_matches (lit "in.wav") (lit "videos") (lit "out/audios")
           (lit "out/videos") (lit "h264_nvenc") (lit "p1")
           [lit "-threads"; lit "0"])
        (fun r n =>
           r = Ok 2
           /\ map (fun argv => last argv []) (commands n)
              = map lit [ "out/audios/001.mp3"; "out/videos/001.mp4";
                          "out/audios/002.mp3"; "out/videos/002.mp4" ]%string
           /\ map (fun argv => nth 7 argv []) (commands n)
              = map lit [ "in.wav"; "videos/1.mp4";
                          "in.wav"; "videos/2.mp4" ]%string).
Proof.
  eapply emits_weaken.
  - apply (cutting_loop_commands runner_ok never_stopped true
             makedirs_ok video_present str_float_sample posix_join
             posix_dirname
             (fun _ => eq_refl) (fun _ _ => eq_refl) (fun _ _ => eq_refl)
             (fun vid => Some (posix_join (lit "videos")
                                 (str_int vid ++ lit ".mp4")))
             two_matches (lit "in.wav") (lit "videos") (lit "out/audios")
             (lit "out/videos") (lit "h264_nvenc") (lit "p1")
             [lit "-threads"; lit "0"]
             (fun _ _ => eq_refl)).
  - intros r n [Hr Hc]. rewrite Hc. split; [exact Hr|].
    split; vm_compute; reflexivity.
Defined.

Lemma image_flow_loop_round_robin_witness :
  emits (Loops._image_flow_loop runner_ok never_stopped true all_readable
           image_clip_ok str_float_sample posix_join
           (two_matches ++ two_matches) (lit "in.wav") (lit "out/audios")
           (lit "out/videos")
           [lit "img/a.png"; lit "img/b.png"; lit "img/c.png"] 2 1080 1920
           (lit "h264_nvenc") (lit "p1") (lit "kenburns"))
        (fun r n =>
           r = Ok 4
           /\ images n = map lit [ "img/c.png"; "img/a.png";
                                   "img/b.png"; "img/c.png" ]%string).
Proof.
  apply (image_flow_loop_round_robin runner_ok never_stopped true
           all_readable image_clip_ok str_float_sample posix_join
           (fun _ => eq_refl) (fun _ _ => eq_refl) (fun _ _ => eq_refl)
           (fun _ _ => eq_refl)
           (two_matches ++ two_matches) (lit "in.wav") (lit "out/audios")
           (lit "out/videos")
           [lit "img/a.png"; lit "img/b.png"; lit "img/c.png"] 2 1080 1920
           (lit "h264_nvenc") (lit "p1") (lit "kenburns")).
  - discriminate.
  - repeat constructor; discriminate.
Defined.

End OrchestratorMore.

(** ** The transcoder callback *)

Module RunnerFacts.

Unset Implicit Arguments.

Import PyStr Kernel KernelNotions Orchestrator Runner.

Lemma starts_with_app (needle a b : pystr) :
  starts_with needle a = true -> starts_with needle (a ++ b) = true.
Proof.
  revert a. induction needle as [|x needle IH]; intros a; [reflexivity|].
  destruct a as [|y a]; cbn [starts_with app]; [discriminate|].
  intros H. apply andb_prop in H. destruct H as [-> H]. cbn [andb]. auto.
Qed.

Lemma contains_app_l (needle a b : pystr) :
  contains needle a = true -> contains needle (a ++ b) = true.
Proof.
  induction a as [|y a IH]; intros H.
  - cbn [contains] in H. rewrite orb_false_r in H.
    destruct needle; [|discriminate]. now destruct b.
  - cbn [contains app] in *. apply orb_prop in H. destruct H as [H|H].
    + change (y :: a ++ b) with ((y :: a) ++ b).
      now rewrite (starts_with_app _ _ b H).
    + rewrite (IH H). apply orb_true_r.
Qed.

Lemma contains_app_r (needle a b : pystr) :
  contains needle b = true -> contains needle (a ++ b) = true.
Proof.
  intros H. induction a as [|y a IH]; [exact H|].
  cbn [contains app]. rewrite IH. apply orb_true_r.
Qed.

Section WithRuntime.

Variable str_lower : pystr -> pystr.
Variable str_upper : pystr -> pystr.
Variable path_dirname : pystr -> pystr.
Variable ffmpeg_path : pystr.
Variable os_makedirs : pystr -> option exn.
Variable last_failed : pystr.

(** X24. A stop request is never lost on the way up: when the module's
    stop flag is set, or when any reading of the kernel's stop flag
    during the call finds it set, [run_ffmpeg_fast] raises
    [StopRequested]. *)
Theorem stop_becomes_stop_request (stop_flag : bool) (env : environment)
    (stderr : pystr) (cmd_list : list pystr) :
  str_upper (lit "STOPPED") = lit "STOPPED" ->
  prepare_output path_dirname os_makedirs
    (resolve str_lower ffmpeg_path cmd_list) = None ->
  stop_flag = true \/ In (ReadStop true) (snd (execute_safe cfg_default env)) ->
  run_ffmpeg_fast str_lower str_upper path_dirname ffmpeg_path os_makedirs
    last_failed stop_flag env stderr cmd_list
  = Failed StopRequested.
Proof.
  intros Hup Hout Hstop. unfold run_ffmpeg_fast.
  destruct stop_flag; [reflexivity|]. rewrite Hout.
  destruct Hstop as [Hstop|Hstop]; [discriminate|].
  rewrite (KernelFacts.read_stop_raises _ _ Hstop).
  unfold says_stopped, message. now rewrite Hup.
Qed.

(** X25. A crash is taken for a stop request when its command line says
    "stopped": if the transcoder exits with a code other than 0, no stop
    was requested, and the command line as the error message shows it
    contains the word in any letter case (in the name of a file, say),
    [run_ffmpeg_fast] raises [StopRequested] and not the [RuntimeError]
    of the crash. *)
Theorem crash_mentioning_stopped_is_taken_for_stop (env : environment)
    (stderr : pystr) (cmd_list : list pystr) (rc : Z) :
  (forall a b, str_upper (a ++ b) = str_upper a ++ str_upper b) ->
  prepare_output path_dirname os_makedirs
    (resolve str_lower ffmpeg_path cmd_list) = None ->
  fst (execute_safe cfg_default env) = Raised (FFMPEG_CRASHED rc) ->
  says_stopped str_upper
    (KernelNotions.clip (Some (_cmd_to_str (resolve str_lower ffmpeg_path cmd_list))) 4000)
  = true ->
  run_ffmpeg_fast str_lower str_upper path_dirname ffmpeg_path os_makedirs
    last_failed false env stderr cmd_list
  = Failed StopRequested
  /\ ~ In (ReadStop true) (snd (execute_safe cfg_default env)).
Proof.
  intros Hup Hout Hcrash Hsays. split.
  - unfold run_ffmpeg_fast. rewrite Hout, Hcrash.
    unfold says_stopped, message in *.
    rewrite !Hup.
    rewrite contains_app_r; [reflexivity|].
    rewrite contains_app_r; [reflexivity|].
    rewrite contains_app_r; [reflexivity|].
    now apply contains_app_l.
  - intros Hin. apply KernelFacts.read_stop_raises in Hin. congruence.
Qed.

(** X26. [run_ffmpeg_fast] returns normally only when the stop flag of the
    module was clear, the transcoder exited with code 0, and no reading of
    the kernel's stop flag found it set. *)
Theorem runner_returns_only_on_success (stop_flag : bool)
    (env : environment) (stderr : pystr) (cmd_list : list pystr) :
  run_ffmpeg_fast str_lower str_upper path_dirname ffmpeg_path os_makedirs
    last_failed stop_flag env stderr cmd_list
  = Done ->
  stop_flag = false
  /\ (exists cp, fst (execute_safe cfg_default env) = Returned cp
                 /\ returncode cp = 0%Z)
  /\ ~ In (ReadStop true) (snd (execute_safe cfg_default env)).
Proof.
  unfold run_ffmpeg_fast. destruct stop_flag; [discriminate|].
  destruct (prepare_output _ _ _); [discriminate|].
  pose proof (KernelMore.execute_safe_shape cfg_default env) as Hs.
  destruct (fst (execute_safe cfg_default env)) as [cp|f|] eqn:E;
    [|destruct (says_stopped _ _); discriminate|discriminate].
  intros _. split; [reflexivity|]. split.
  - exists cp. split; [reflexivity|]. inversion Hs; auto.
  - intros Hin. pose proof (KernelFacts.read_stop_raises _ _ Hin). congruence.
Qed.

End WithRuntime.

Lemma stop_becomes_stop_request_witness :
  run_ffmpeg_fast ascii_lower ascii_upper dirname_none (lit "ffmpeg")
    makedirs_fine (lit "last_failed_cmd.txt") false
    Samples.env_stop_after_success []
    [lit "ffmpeg"; lit "-i"; lit "a.mp4"; lit "b.mp4"]
  = Failed StopRequested.
Proof.
  apply (stop_becomes_stop_request ascii_lower ascii_upper dirname_none
           (lit "ffmpeg") makedirs_fine (lit "last_failed_cmd.txt")).
  - reflexivity.
  - reflexivity.
  - right. vm_compute. tauto.
Defined.

Lemma crash_mentioning_stopped_is_taken_for_stop_witness :
  run_ffmpeg_fast ascii_lower ascii_upper dirname_none (lit "ffmpeg")
    makedirs_fine (lit "last_failed_cmd.txt") false env_exit_one []
    [lit "ffmpeg"; lit "-i"; lit "a.mp4"; lit "unstopped.mp4"]
  = Failed StopRequested
  /\ ~ In (ReadStop true) (snd (execute_safe cfg_default env_exit_one)).
Proof.
  apply (crash_mentioning_stopped_is_taken_for_stop ascii_lower ascii_upper
           dirname_none (lit "ffmpeg") makedirs_fine
           (lit "last_failed_cmd.txt") env_exit_one []
           [lit "ffmpeg"; lit "-i"; lit "a.mp4"; lit "unstopped.mp4"] 1%Z).
  - intros a b. apply map_app.
  - reflexivity.
  - reflexivity.
  - vm_compute. reflexivity.
Defined.

Lemma runner_returns_only_on_success_witness :
  false = false
  /\ (exists cp, fst (execute_safe cfg_default env_two_lines) = Returned cp
                 /\ returncode cp = 0%Z)
  /\ ~ In (ReadStop true) (snd (execute_safe cfg_default env_two_lines)).
Proof.
  apply (runner_returns_only_on_success ascii_lower ascii_upper dirname_none
           (lit "ffmpeg") makedirs_fine (lit "last_failed_cmd.txt")
           false env_two_lines []
           [lit "ffmpeg"; lit "-i"; lit "a.mp4"; lit "b.mp4"]).
  reflexivity.
Defined.

End RunnerFacts.

(** ** The video of a segment *)

Module FinderFacts.

Unset Implicit Arguments.

Import PyStr Orchestrator Finder.

Lemma str_ltb_irrefl (a : pystr) : str_ltb a a = false.
Proof.
  induction a as [|x a IH]; [reflexivity|]. cbn [str_ltb].
  now rewrite N.ltb_irrefl.
Qed.

Lemma str_ltb_trans (a : pystr) :
  forall b c, str_ltb a b = true -> str_ltb b c = true -> str_ltb a c = true.
Proof.
  induction a as [|x a IH]; intros [|y b] [|z c]; cbn [str_ltb];
    try discriminate; try reflexivity.
  destruct (N.ltb_spec x y) as [Hxy|Hxy].
  - intros _. destruct (N.ltb_spec y z) as [Hyz|Hyz].
    + intros _. destruct (N.ltb_spec x z); [reflexivity|lia].
    + destruct (N.ltb_spec z y) as [Hzy|Hzy]; [discriminate|].
      intros _. destruct (N.ltb_spec x z); [reflexivity|lia].
  - destruct (N.ltb_spec y x) as [Hyx|Hyx]; [discriminate|].
    assert (x = y) by lia. subst y. intros Hab.
    destruct (N.ltb_spec x z) as [Hxz|Hxz]; [reflexivity|].
    destruct (N.ltb_spec z x) as [Hzx|Hzx]; [discriminate|].
    now apply IH.
Qed.

Lemma insert_In (x z : pystr) (l : list pystr) :
  In z (insert x l) <-> z = x \/ In z l.
Proof.
  induction l as [|y l IH]; cbn [insert].
  - cbn. intuition.
  - destruct (str_ltb x y); cbn [In]; [intuition|]. rewrite IH. intuition.
Qed.

Lemma sort_In (z : pystr) (l : list pystr) : In z (sort l) <-> In z l.
Proof.
  induction l as [|x l IH]; [reflexivity|]. cbn [sort fold_right].
  fold (sort l). rewrite insert_In, IH. cbn. intuition.
Qed.

Lemma insert_head_least (x : pystr) (l : list pystr) :
  head_least l -> head_least (insert x l).
Proof.
  destruct l as [|y l]; cbn [insert head_least].
  - intros _ q [<-|[]]. apply str_ltb_irrefl.
  - intros H. destruct (str_ltb x y) eqn:Hxy; cbn [head_least].
    + intros q [<-|Hq]; [apply str_ltb_irrefl|].
      destruct (str_ltb q x) eqn:Hqx; [|reflexivity].
      rewrite <- (H q Hq). symmetry. now apply (str_ltb_trans q x y).
    + intros q [<-|Hq]; [apply str_ltb_irrefl|].
      apply insert_In in Hq. destruct Hq as [->|Hq]; [exact Hxy|].
      apply H. now right.
Qed.

Lemma sort_head_least (l : list pystr) : head_least (sort l).
Proof.
  induction l as [|x l IH]; [exact I|]. cbn [sort fold_right].
  now apply insert_head_least.
Qed.

Section WithRuntime.

Variable is_space : codepoint -> bool.
Variable str_lower : pystr -> pystr.
Variable os_path_isdir : pystr -> bool.
Variable os_listdir : pystr -> result (list pystr).
Variable os_path_isfile : pystr -> bool.
Variable path_join : pystr -> pystr -> pystr.
Variable splitext_stem : pystr -> pystr.
Variable py_int : pystr -> option Z.

Lemma candidate_In (video_dir : pystr) (vid : Z) (names : list pystr)
    (p : pystr) :
  In p (flat_map (candidate is_space str_lower os_path_isfile path_join
                    splitext_stem py_int video_dir vid) names)
  <-> exists name,
        In name names /\ p = path_join video_dir name
        /\ os_path_isfile p = true
        /\ stem_number is_space str_lower splitext_stem py_int name
           = Some vid.
Proof.
  rewrite in_flat_map. unfold candidate. split.
  - intros (name & Hn & Hp). exists name.
    destruct (os_path_isfile (path_join video_dir name)) eqn:Hf; [|destruct Hp].
    destruct (stem_number is_space str_lower splitext_stem py_int name)
      as [n|] eqn:Hs; [|destruct Hp].
    destruct (Z.eqb_spec n vid) as [E|_]; [|destruct Hp].
    destruct Hp as [<-|[]]. subst n. auto.
  - intros (name & Hn & -> & Hf & Hs). exists name. split; [exact Hn|].
    rewrite Hf, Hs, Z.eqb_refl. now left.
Qed.

(** X27. The video found for a segment is a regular file of the directory
    whose name, without extension and surrounding blanks and without a
    leading "v" or "V", reads as the segment's id; among all such files
    it is the first in string order; and nothing is found only when the
    directory is missing or has no such file. *)
Theorem found_video_is_least_candidate (video_dir : pystr) (vid : Z)
    (names : list pystr) :
  video_dir <> [] ->
  os_path_isdir video_dir = true ->
  os_listdir video_dir = Ok names ->
  match _find_video_by_vid_any_ext is_space str_lower os_path_isdir
          os_listdir os_path_isfile path_join splitext_stem py_int
          video_dir vid with
  | Ok (Some p) =>
      (exists name,
         In name names /\ p = path_join video_dir name
         /\ os_path_isfile p = true
         /\ stem_number is_space str_lower splitext_stem py_int name
            = Some vid)
      /\ forall name,
           In name names ->
           os_path_isfile (path_join video_dir name) = true ->
           stem_number is_space str_lower splitext_stem py_int name
           = Some vid ->
           str_ltb (path_join video_dir name) p = false
  | Ok None =>
      forall name,
        In name names ->
        os_path_isfile (path_join video_dir name) = true ->
        stem_number is_space str_lower splitext_stem py_int name <> Some vid
  | Raise _ => False
  end.
Proof.
  intros Hd Hdir Hls. unfold _find_video_by_vid_any_ext.
  destruct video_dir as [|c video_dir]; [congruence|].
  rewrite Hdir, Hls. cbn [negb].
  pose proof (sort_head_least
                (flat_map (candidate is_space str_lower os_path_isfile
                             path_join splitext_stem py_int
                             (c :: video_dir) vid) names)) as Hleast.
  pose proof (fun z => sort_In z
                (flat_map (candidate is_space str_lower os_path_isfile
                             path_join splitext_stem py_int
                             (c :: video_dir) vid) names)) as Hin.
  destruct (sort _) as [|p sorted]; cbn [hd_error].
  - intros name Hn Hf Hs.
    apply (proj2 (Hin (path_join (c :: video_dir) name))).
    apply candidate_In. exists name. auto.
  - split.
    + apply candidate_In, Hin. now left.
    + intros name Hn Hf Hs. apply Hleast, Hin, candidate_In.
      exists name. auto.
Qed.

End WithRuntime.

Lemma found_video_is_least_candidate_witness :
  (exists name,
     In name (map lit [ "notes.txt"; "v1.mp4"; "2.mp4"; "V1.mov";
                        " 1 .avi" ]%string)
     /\ lit "videos/ 1 .avi" = Samples.posix_join (lit "videos") name
     /\ true = true
     /\ stem_number ascii_space ascii_lower stem_to_dot int_of_ascii name
        = Some 1%Z)
  /\ forall name,
       In name (map lit [ "notes.txt"; "v1.mp4"; "2.mp4"; "V1.mov";
                          " 1 .avi" ]%string) ->
       true = true ->
       stem_number ascii_space ascii_lower stem_to_dot int_of_ascii name
       = Some 1%Z ->
       str_ltb (Samples.posix_join (lit "videos") name)
               (lit "videos/ 1 .avi") = false.
Proof.
  assert (Hd : lit "videos" <> []) by discriminate.
  exact (found_video_is_least_candidate ascii_space ascii_lower
           (fun _ => true) sample_listing (fun _ => true)
           Samples.posix_join stem_to_dot int_of_ascii
           (lit "videos") 1%Z
           (map lit [ "notes.txt"; "v1.mp4"; "2.mp4"; "V1.mov";
                      " 1 .avi" ]%string)
           Hd eq_refl eq_refl).
Defined.

End FinderFacts.

(** ** The words of a transcription *)

Module ExtractorFacts.

Unset Implicit Arguments.

Import PyStr Aligner AlignerNotions Extractor.

Lemma extract_segment_timed (seg : segment) :
  Forall timed (extract_segment seg).
Proof.
  destruct seg as [[[|w ws]|] text [s|] [e|]|]; cbn [extract_segment];
    try constructor;
    try (eexists; eexists; split; [reflexivity|reflexivity]);
    try constructor;
    rewrite Forall_forall; intros x Hx; apply in_map_iff in Hx;
    destruct Hx as (d & <- & Hd); apply filter_In in Hd;
    destruct Hd as [_ Hd]; unfold has_start in Hd;
    destruct (w_start d) as [t|] eqn:E; try discriminate;
    now exists d, t.
Qed.

Lemma extracted_timed (result_segments : option (list segment)) :
  Forall timed (_extract_words_with_fallback result_segments).
Proof.
  unfold _extract_words_with_fallback.
  induction (match result_segments with Some segs => segs | None => [] end)
    as [|seg segs IH]; [constructor|].
  cbn [flat_map]. apply Forall_app. split; [apply extract_segment_timed|exact IH].
Qed.

(** X28. Every entry that [_extract_words_with_fallback] returns is a dict
    with a start time: words without one are dropped, a segment without
    words stands in as one word only when it has both its start and its
    end, and what is no dict is passed over. *)
Theorem extracted_words_are_timed (result_segments : option (list segment)) :
  Forall timed (_extract_words_with_fallback result_segments)
  /\ (warns_nothing_extracted true result_segments = true
      <-> _extract_words_with_fallback result_segments = []).
Proof.
  split; [apply extracted_timed|].
  unfold warns_nothing_extracted. cbn [andb].
  destruct (_extract_words_with_fallback result_segments);
    split; congruence.
Qed.

Section WithRuntime.

Variable str_lower : pystr -> pystr.
Variable ratio : pystr -> pystr -> float.

(** X29. Aligned on the extracted words, every match starts at the start
    time of a transcribed word and no match is left to start at the
    default 0 that the aligner keeps for words without a start time. *)
Theorem match_starts_at_a_word (result_segments : option (list segment))
    (script_items : list script_item) :
  Forall (fun m =>
            exists d,
              In (Dict d) (_extract_words_with_fallback result_segments)
              /\ w_start d = Some (start_of m))
    (_match_words_to_script str_lower ratio
       (_extract_words_with_fallback result_segments) script_items).
Proof.
  unfold _match_words_to_script.
  pose proof (AlignerMore.run_times_from str_lower ratio
                (_extract_words_with_fallback result_segments) script_items)
    as H.
  induction H as [|m idxs ms idxss (i & j & f & l & _ & _ & Hi & _ & Hs & _) _ IH];
    constructor; [|exact IH].
  exists f. apply nth_error_In in Hi. split; [exact Hi|].
  pose proof (extracted_timed result_segments) as Ht.
  rewrite Forall_forall in Ht. destruct (Ht _ Hi) as (d & s & [= <-] & E).
  rewrite Hs, E. reflexivity.
Qed.

End WithRuntime.

Lemma extracted_words_are_timed_witness :
  _extract_words_with_fallback
    (Some [ Segment None (Some (lit "hello")) (Some 0%float) None;
            NotSegment ]) = [].
Proof.
  apply (proj1 (proj2 (extracted_words_are_timed
                         (Some [ Segment None (Some (lit "hello"))
                                   (Some 0%float) None;
                                 NotSegment ])))).
  reflexivity.
Defined.

End ExtractorFacts.
